(** * Cherry Studio app: provider access layer, message pausing and
      preference tables

    A shallow embedding of
    - [src/shared/data/preference/preferenceTypes.ts] and
      [preferenceSchemas.ts] (module [Preference]),
    - [src/hooks/useMessageOperation.ts] (module [MessageOperation]),
    - [src/hooks/useProviders.ts] (modules [AllProviders] and [ProviderHooks]),
    - the provider service the hooks call, which the repository keeps in
      [@/services/ProviderService] (module [ProviderService], written after
      the design document of the reactive entity cache).

    Part I holds the definitions, Part II the properties: the preference
    tables ([PreferenceFacts]), [pauseMessages] ([MessageOperationFacts]),
    [useAllProviders] ([AllProvidersFacts]), the service's invariants
    ([ProviderServiceFacts]) and the hooks over the service
    ([ProviderHooksFacts]). *)

From Stdlib Require Import ZArith NArith List Bool String Ascii Permutation Lia.
From stdpp Require Import base option list gmap strings sets.

Open Scope string_scope.
Open Scope list_scope.
Open Scope nat_scope.
Open Scope stdpp_scope.

(* ===================================================================== *)
(** * Part I: the embedding                                               *)
(* ===================================================================== *)

(** ** JavaScript values the hooks rely on *)

Module Js.

(** A JavaScript string is a sequence of UTF-16 code units.  Provider ids
    are kept in this form because [String.prototype.trim] inspects code
    units; all other strings of the model are only compared for equality
    and emptiness and are kept as [string]. *)
Abbreviation js_string := (list N).

(** ASCII text as code units (used to write ids in examples). *)
Fixpoint of_ascii (s : string) : js_string :=
  match s with
  | EmptyString => []
  | String c rest => N_of_ascii c :: of_ascii rest
  end.

(** ECMAScript [WhiteSpace] and [LineTerminator] code points, the characters
    [trim] strips: TAB, VT, FF, SP, NBSP, ZWNBSP, the Zs category, LF, CR,
    LS and PS.  All of them are in the Basic Multilingual Plane. *)
Definition isWhiteSpace (u : N) : bool :=
  ((9 <=? u) && (u <=? 13) || (u =? 32) || (u =? 160) || (u =? 5760)
   || (8192 <=? u) && (u <=? 8202) || (u =? 8232) || (u =? 8233)
   || (u =? 8239) || (u =? 8287) || (u =? 12288) || (u =? 65279))%N.

Fixpoint trimStart (s : js_string) : js_string :=
  match s with
  | [] => []
  | u :: rest => if isWhiteSpace u then trimStart rest else s
  end.

Definition trimEnd (s : js_string) : js_string := rev (trimStart (rev s)).

(** [String.prototype.trim]. *)
Definition trim (s : js_string) : js_string := trimEnd (trimStart s).

(** Empty, or whitespace only. *)
Definition blank (s : js_string) : bool := forallb isWhiteSpace s.

(** Truthiness of a string: the empty string is the only falsy one. *)
Definition truthy (s : js_string) : bool :=
  match s with [] => false | _ :: _ => true end.

(** [!!id] for an optional text: [undefined] and [''] are falsy. *)
Definition truthy_text (o : option string) : bool :=
  match o with
  | Some s => negb (String.eqb s "")
  | None => false
  end.

Section ArraySort.
Context {A : Type} (compareFn : A → A → Z).

(** One step of a stable insertion: [x] stood before every element of
    [sorted] in the array, so it stays before the elements it ties with. *)
Fixpoint sort_insert (x : A) (sorted : list A) : list A :=
  match sorted with
  | [] => [x]
  | y :: rest =>
      if (compareFn x y <=? 0)%Z then x :: sorted
      else y :: sort_insert x rest
  end.

(** [Array.prototype.sort(compareFn)].  ECMAScript requires the sort to be
    stable; for a consistent comparator the result of a stable sort is
    unique, and this insertion sort computes it. *)
Definition Array_sort (l : list A) : list A := foldr sort_insert [] l.
End ArraySort.

Section SetOfArray.
Context {A : Type} `{EqDecision A}.

(** [new Set(array)] followed by a spread: the distinct elements in the
    order of their first occurrence. *)
Fixpoint Set_add_all (seen : list A) (l : list A) : list A :=
  match l with
  | [] => seen
  | x :: rest =>
      if decide (x ∈ seen) then Set_add_all seen rest
      else Set_add_all (seen ++ [x]) rest
  end.

Definition Set_spread (l : list A) : list A := Set_add_all [] l.
End SetOfArray.

End Js.

(** ** src/shared/data/preference *)

Module Preference.

(** [ThemeMode] of [@/types]: the enumeration the comment in
    [preferenceSchemas.ts] lists (light, dark, system). *)
Inductive ThemeMode := light | dark | system.

(** The types a key of [PreferenceSchemas['default']] is declared with. *)
Inductive PreferenceType :=
| TString | TThemeMode | TBoolean | TNumber | TNumberOrUndefined.

Inductive PreferenceValue :=
| VString (s : string)
| VThemeMode (m : ThemeMode)
| VBoolean (b : bool)
| VNumber (n : Z)
| VUndefined.

(** [interface PreferenceSchemas { default: { ... } }] of
    [preferenceTypes.ts], key by key in declaration order. *)
Definition PreferenceSchemas : list (string * PreferenceType) :=
  [ ("user.avatar", TString);
    ("user.name", TString);
    ("user.id", TString);
    ("ui.theme_mode", TThemeMode);
    ("topic.current_id", TString);
    ("websearch.search_with_time", TBoolean);
    ("websearch.max_results", TNumber);
    ("websearch.override_search_service", TBoolean);
    ("websearch.content_limit", TNumberOrUndefined);
    ("app.initialization_version", TNumber) ].

(** [DefaultPreferences.default] of [preferenceSchemas.ts]. *)
Definition DefaultPreferences : list (string * PreferenceValue) :=
  [ ("user.avatar", VString "");
    ("user.name", VString "Cherry Studio");
    ("user.id", VString "uuid()");
    ("ui.theme_mode", VThemeMode system);
    ("topic.current_id", VString "");
    ("websearch.search_with_time", VBoolean true);
    ("websearch.max_results", VNumber 5);
    ("websearch.override_search_service", VBoolean true);
    ("websearch.content_limit", VNumber 2000);
    ("app.initialization_version", VNumber 0) ].

(** [PreferenceDescriptions] of [preferenceSchemas.ts]. *)
Definition PreferenceDescriptions : list (string * string) :=
  [ ("user.avatar", "User avatar image path or URL");
    ("user.name", "User display name");
    ("user.id", "Unique user identifier (UUID)");
    ("ui.theme_mode", "Application theme mode (light/dark/system)");
    ("topic.current_id", "Currently active conversation topic ID");
    ("websearch.search_with_time",
      "Add current date to search queries for recent results");
    ("websearch.max_results", "Maximum number of search results (1-20)");
    ("websearch.override_search_service",
      "Use custom search service configuration");
    ("websearch.content_limit",
      "Content length limit for search results (characters)");
    ("app.initialization_version",
      "Current version of app data initialization migrations") ].

(** [Object.keys]: the own keys of an object literal, in source order. *)
Definition keys {V : Type} (table : list (string * V)) : list string :=
  table.*1.

(** Property read [table[k]]; a later duplicate of a key would win in an
    object literal, so the last binding is the one returned. *)
Fixpoint get {V : Type} (table : list (string * V)) (k : string) : option V :=
  match table with
  | [] => None
  | (k', v) :: rest =>
      match get rest k with
      | Some w => Some w
      | None => if String.eqb k' k then Some v else None
      end
  end.

(** The key set of a table. *)
Definition key_set {V : Type} (table : list (string * V)) : gset string :=
  list_to_set (keys table).

(** A value inhabits a declared type. *)
Definition has_type (v : PreferenceValue) (t : PreferenceType) : bool :=
  match v, t with
  | VString _, TString => true
  | VThemeMode _, TThemeMode => true
  | VBoolean _, TBoolean => true
  | VNumber _, TNumber => true
  | VNumber _, TNumberOrUndefined => true
  | VUndefined, TNumberOrUndefined => true
  | _, _ => false
  end.

End Preference.

(** ** src/hooks/useMessageOperation.ts *)

Module MessageOperation.
Import Js.

(** The fields of a message that [pauseMessages] reads. *)
Record Message := mkMessage {
  message_id : string;
  status : string;
  askId : option string
}.

Record Topic := mkTopic {
  topic_id : string;
  topic_isLoading : bool
}.

(** The calls [pauseMessages] makes on its collaborators, in order. *)
Inductive Call :=
| abortCompletion (askId : string)
| updateTopic (topicId : string) (isLoading : bool).

Section PauseMessages.
(** [messageDatabase.getMessagesByTopicId]; [None] is a nullish result. *)
Context (getMessagesByTopicId : string → option (list Message)).

Definition isStreaming (m : Message) : bool :=
  String.eqb (status m) "processing" || String.eqb (status m) "pending".

(** [[...new Set(streamingMessages.map(m => m.askId).filter(id => !!id))]] *)
Definition askIds (topicMessages : list Message) : list string :=
  let streamingMessages := List.filter isStreaming topicMessages in
  Set_spread
    (omap id (List.filter truthy_text (map askId streamingMessages))).

Definition pauseMessages (topic : Topic) : list Call :=
  match getMessagesByTopicId (topic_id topic) with
  | None => []
  | Some topicMessages =>
      map abortCompletion (askIds topicMessages)
      ++ [updateTopic (topic_id topic) false]
  end.
End PauseMessages.

End MessageOperation.

(** ** Providers as the hooks see them *)

Module Types.
Import Js.

(** Modelled from the spec: the type [Provider] of [@/types/assistant], which
    is not among the sources: "an identified record ... with a stable unique
    id (string)", here with the fields the hooks and their documentation
    read ([id], [name], [enabled]). *)
Record Provider := mkProvider {
  id : js_string;
  name : string;
  enabled : bool
}.

(** [Partial<Omit<Provider, 'id'>>]: the "partial change" of an update. *)
Record ProviderUpdates := mkUpdates {
  new_name : option string;
  new_enabled : option bool
}.

#[export] Instance Provider_eq_dec : EqDecision Provider.
Proof. solve_decision. Defined.

End Types.

(** ** src/hooks/useProviders.ts: [useAllProviders] *)

Module AllProviders.
Import Js Types.

(** What [useLiveQuery] hands back: the rows and the time of the last
    delivery, both possibly [undefined]. *)
Record LiveQuery (Row : Type) := mkLiveQuery {
  data : option (list Row);
  updatedAt : option nat
}.
Arguments mkLiveQuery {Row} _ _.
Arguments data {Row} _.
Arguments updatedAt {Row} _.

Record Result := mkResult {
  providers : list Provider;
  isLoading : bool
}.

(** The comparator passed to [sort]. *)
Definition compareEnabled (a b : Provider) : Z :=
  if Bool.eqb (enabled a) (enabled b) then 0
  else if enabled a then (-1) else 1.

(** [!rawProviders || rawProviders.length === 0] *)
Definition noRows {Row : Type} (rawProviders : option (list Row)) : bool :=
  match rawProviders with
  | None => true
  | Some rows => Nat.eqb (length rows) 0
  end.

Section UseAllProviders.
Context {Row : Type} (transformDbToProvider : Row → Provider).

(** The memoised [processedProviders]. *)
Definition processedProviders (rawProviders : option (list Row))
  : list Provider :=
  if noRows rawProviders then []
  else
    let transformed := map transformDbToProvider (default [] rawProviders) in
    Array_sort compareEnabled transformed.

Definition useAllProviders (query : LiveQuery Row) : Result :=
  let rawProviders := data query in
  if negb (bool_decide (is_Some (updatedAt query))) || noRows rawProviders
  then {| providers := []; isLoading := true |}
  else {| providers := processedProviders rawProviders; isLoading := false |}.
End UseAllProviders.

(** The rows a query result carries ([undefined] carries none). *)
Definition rows {Row : Type} (query : LiveQuery Row) : list Row :=
  default [] (data query).

(** [useLiveQuery] sets the rows and [updatedAt] in one delivery: before the
    first delivery both are unset. *)
Definition delivered_together {Row : Type} (query : LiveQuery Row) : Prop :=
  updatedAt query = None → rows query = [].

(** Every enabled provider stands before every disabled one. *)
Definition enabled_first (l : list Provider) : Prop :=
  ∀ i j a b,
    l !! i = Some a → l !! j = Some b →
    enabled a = true → enabled b = false → (i < j)%nat.

End AllProviders.

(** ** The provider service ([@/services/ProviderService])

    The hooks of [useProviders.ts] call [providerService]
    ([subscribeProvider], [getProviderCached], [getProvider],
    [updateProvider], [subscribeDefaultProvider], [getDefaultProvider],
    [initialize]); the file that defines it is not among the sources.  Every
    definition of this module is therefore written after the design document
    of the reactive entity cache (sections 3 to 7): an entity cache with a
    default slot, a subscription registry, an optimistic update coordinator
    and an idempotent initialisation, on top of an asynchronous persistence
    gateway.  Asynchrony is explicit: an operation runs up to its first
    suspension point and leaves a promise behind; the gateway's reply is a
    later step that resumes it. *)

Module ProviderService.
Import Js Types.

(** Modelled from the spec: ProviderService's cached entity value.  [addr] is
    the identity of the JavaScript object (what reference equality compares),
    [obj] its fields. *)
Record Ref := mkRef { addr : nat; obj : Provider }.

(** Modelled from the spec: ProviderService's cache entry, "CacheEntry: wraps an Entity value, holding the
    last known value, a version/generation counter, and a flag indicating
    whether the current cached value is optimistic or confirmed". *)
Record CacheEntry := mkEntry {
  value : Ref;
  generation : nat;
  optimistic : bool
}.

(** Modelled from the spec: ProviderService's errors, the error kinds of
    section 7. *)
Inductive Failure :=
| EntityNotFound
| PersistenceFailure (cause : string)
| UninitializedDefault.

(** Modelled from the spec: a subscriber's callback; when it fires it may release
    registrations (its own or others'), which is the re-entrancy the registry
    has to survive. *)
Record Callback := mkCallback { label : nat; releases : list nat }.

(** Modelled from the spec: ProviderService's registration, "Subscription: a
    pair (entityId, callback) with a stable handle". *)
Record Subscription := mkSubscription { handle : nat; callback : Callback }.

(** Modelled from the spec: ProviderService's "PendingWrite: an in-flight optimistic mutation,
    recording entityId, the optimistic value applied, and the prior confirmed
    value needed for rollback". *)
Record PendingWrite := mkPendingWrite {
  pw_id : js_string;
  pw_optimistic : Ref;
  pw_prior : Ref
}.

(** Modelled from the spec: what a pending promise of ProviderService waits
    for: a load ([getProvider]), the read of step 1 of [update], or the write
    of step 3. *)
Inductive Awaiting :=
| AwaitFetch (id : js_string)
| AwaitRead (id : js_string) (change : ProviderUpdates)
| AwaitWrite (pw : PendingWrite).

(** Modelled from the spec: the persistence gateway's requests (section 6). *)
Inductive GatewayCall :=
| fetchEntity (id : js_string)
| fetchDefaultEntity
| writeEntity (id : js_string) (change : ProviderUpdates).

(** Modelled from the spec: the gateway's answers: an entity, "NotFound", or
    a rejection. *)
Inductive Reply :=
| Entity (p : Provider)
| NotFound
| Failed (cause : string).

(** How a promise settles. *)
Inductive Outcome := Resolved | Rejected (e : Failure).

(** Modelled from the spec: ProviderService's entity cache with its default
    slot; [nextAddr] is the identity the next new object gets. *)
Record Store := mkStore {
  cache : gmap js_string CacheEntry;
  defaultSlot : option Ref;
  nextAddr : nat
}.

(** Modelled from the spec: ProviderService's subscription registry, per id
    and for the default channel, in insertion order.  [fired] is the record of
    callback invocations, by handle, oldest first. *)
Record Registry := mkRegistry {
  subscriptions : gmap js_string (list Subscription);
  defaultSubscriptions : list Subscription;
  nextHandle : nat;
  fired : list nat
}.

(** Modelled from the spec: ProviderService's asynchronous side.
    [calls] are the gateway requests issued so far, [awaiting] the promises
    not settled yet, [initializing] the callers of the initialisation in
    flight, [settled] the promises settled so far, oldest first. *)
Record Gateway := mkGateway {
  calls : list GatewayCall;
  awaiting : gmap nat Awaiting;
  initializing : option (list nat);
  settled : list (nat * Outcome);
  nextPromise : nat
}.

(** Modelled from the spec: the state of ProviderService. *)
Record Service := mkService {
  store : Store;
  registry : Registry;
  gateway : Gateway
}.

(** The service as the module is loaded: nothing cached, nobody subscribed. *)
Definition initial : Service :=
  {| store := mkStore ∅ None 0;
     registry := mkRegistry ∅ [] 0 [];
     gateway := mkGateway [] ∅ None [] 0 |}.

Definition with_store (f : Store → Store) (s : Service) : Service :=
  {| store := f (store s); registry := registry s; gateway := gateway s |}.

Definition with_registry (f : Registry → Registry) (s : Service) : Service :=
  {| store := store s; registry := f (registry s); gateway := gateway s |}.

Definition with_gateway (f : Gateway → Gateway) (s : Service) : Service :=
  {| store := store s; registry := registry s; gateway := f (gateway s) |}.

(** *** Subscription registry (section 4.2) *)

(** The live registrations of an id. *)
Definition subscribers (id : js_string) (r : Registry) : list Subscription :=
  default [] (subscriptions r !! id).

(** Modelled from the spec: ProviderService's [subscribeProvider],
    "subscribe(id, callback) -> unsubscribeHandle". *)
Definition subscribe (id : js_string) (cb : Callback) (r : Registry)
  : nat * Registry :=
  (nextHandle r,
   {| subscriptions :=
        <[id := subscribers id r ++ [mkSubscription (nextHandle r) cb]]>
          (subscriptions r);
      defaultSubscriptions := defaultSubscriptions r;
      nextHandle := S (nextHandle r);
      fired := fired r |}).

(** Modelled from the spec: ProviderService's [subscribeDefaultProvider], the
    "separate notification channel" of the DefaultSlot. *)
Definition subscribeDefault (cb : Callback) (r : Registry) : nat * Registry :=
  (nextHandle r,
   {| subscriptions := subscriptions r;
      defaultSubscriptions :=
        defaultSubscriptions r ++ [mkSubscription (nextHandle r) cb];
      nextHandle := S (nextHandle r);
      fired := fired r |}).

(** Modelled from the spec: the unsubscribe handle of ProviderService;
    invoking it "removes exactly that registration, idempotently". *)
Definition release (h : nat) (r : Registry) : Registry :=
  {| subscriptions := filter (λ sub, handle sub ≠ h) <$> subscriptions r;
     defaultSubscriptions :=
       filter (λ sub, handle sub ≠ h) (defaultSubscriptions r);
     nextHandle := nextHandle r;
     fired := fired r |}.

(** Modelled from the spec: one callback of a dispatch runs: the invocation is
    recorded, then the callback's own releases take effect on the live
    registry. *)
Definition invoke (sub : Subscription) (r : Registry) : Registry :=
  foldr release
    {| subscriptions := subscriptions r;
       defaultSubscriptions := defaultSubscriptions r;
       nextHandle := nextHandle r;
       fired := fired r ++ [handle sub] |}
    (releases (callback sub)).

(** Modelled from the spec: the dispatch pass of ProviderService's [notify],
    "iterating over a stable snapshot of the registration set taken at the
    start of the call". *)
Definition dispatch (snapshot : list Subscription) (r : Registry) : Registry :=
  foldl (λ r sub, invoke sub r) r snapshot.

(** Modelled from the spec: "notify(id): invokes every currently-live
    callback registered for id". *)
Definition notify (id : js_string) (r : Registry) : Registry :=
  dispatch (subscribers id r) r.

(** Modelled from the spec: [notifyDefault], the same on the default
    channel. *)
Definition notifyDefault (r : Registry) : Registry :=
  dispatch (defaultSubscriptions r) r.

(** *** Entity cache (section 4.1) *)

(** Modelled from the spec: ProviderService's [getProviderCached],
    "get(id) -> Entity | absent". *)
Definition get (id : js_string) (s : Store) : option Ref :=
  value <$> cache s !! id.

(** Modelled from the spec: a value built by the service (a merge, a gateway
    answer) is a new object: its identity is fresh. *)
Definition alloc (p : Provider) (s : Store) : Ref * Store :=
  (mkRef (nextAddr s) p,
   {| cache := cache s; defaultSlot := defaultSlot s;
      nextAddr := S (nextAddr s) |}).

(** Modelled from the spec: the test of [put], "differs by reference from the
    previous one". *)
Definition differs (previous : option Ref) (v : Ref) : bool :=
  match previous with
  | Some old => negb (addr old =? addr v)
  | None => true
  end.

(** Modelled from the spec: ProviderService's cache write, "put(id, value,
    optimistic): replaces the
    CacheEntry for id, bumps its generation, marks optimism flag; triggers the
    Subscription Registry to notify id's subscribers if the value differs by
    reference from the previous one". *)
Definition put (id : js_string) (v : Ref) (isOptimistic : bool) (s : Service)
  : Service :=
  let previous := cache (store s) !! id in
  let entry :=
    {| value := v;
       generation := S (from_option generation 0 previous);
       optimistic := isOptimistic |} in
  let s' :=
    with_store (λ st, {| cache := <[id := entry]> (cache st);
                         defaultSlot := defaultSlot st;
                         nextAddr := nextAddr st |}) s in
  if differs (value <$> previous) v then with_registry (notify id) s' else s'.

(** Modelled from the spec: ProviderService's [getDefaultProvider];
    "getDefault() signals an uninitialized condition until setDefault has been
    called at least once".  The throw is the left injection. *)
Definition getDefault (s : Store) : Failure + Ref :=
  match defaultSlot s with
  | Some v => inr v
  | None => inl UninitializedDefault
  end.

(** Modelled from the spec: ProviderService's [setDefault], "analogous" to
    [put] on the DefaultSlot and its own notification channel. *)
Definition setDefault (v : Ref) (s : Service) : Service :=
  let previous := defaultSlot (store s) in
  let s' :=
    with_store (λ st, {| cache := cache st; defaultSlot := Some v;
                         nextAddr := nextAddr st |}) s in
  if differs previous v then with_registry notifyDefault s' else s'.

(** Modelled from the spec: the explicit invalidation of a regular entry (it
    never touches the DefaultSlot). *)
Definition invalidate (id : js_string) (s : Service) : Service :=
  with_store (λ st, {| cache := delete id (cache st);
                       defaultSlot := defaultSlot st;
                       nextAddr := nextAddr st |}) s.

(** *** Promises and the gateway *)

(** A request goes out to the gateway. *)
Definition issue (c : GatewayCall) (s : Service) : Service :=
  with_gateway (λ g, {| calls := calls g ++ [c]; awaiting := awaiting g;
                        initializing := initializing g; settled := settled g;
                        nextPromise := nextPromise g |}) s.

(** A new promise. *)
Definition promise (s : Service) : nat * Service :=
  (nextPromise (gateway s),
   with_gateway (λ g, {| calls := calls g; awaiting := awaiting g;
                         initializing := initializing g; settled := settled g;
                         nextPromise := S (nextPromise g) |}) s).

(** Promise [k] suspends on the gateway. *)
Definition await (k : nat) (a : Awaiting) (s : Service) : Service :=
  with_gateway (λ g, {| calls := calls g; awaiting := <[k := a]> (awaiting g);
                        initializing := initializing g; settled := settled g;
                        nextPromise := nextPromise g |}) s.

(** A promise settles: its outcome is recorded ... *)
Definition conclude (k : nat) (o : Outcome) (s : Service) : Service :=
  with_gateway (λ g, {| calls := calls g; awaiting := awaiting g;
                        initializing := initializing g;
                        settled := settled g ++ [(k, o)];
                        nextPromise := nextPromise g |}) s.

(** ... and, when it waited for the gateway, it waits no longer. *)
Definition settle (k : nat) (o : Outcome) (s : Service) : Service :=
  conclude k o
    (with_gateway (λ g, {| calls := calls g; awaiting := delete k (awaiting g);
                           initializing := initializing g;
                           settled := settled g;
                           nextPromise := nextPromise g |}) s).

(** The callers of the initialisation in flight. *)
Definition set_initializing (i : option (list nat)) (s : Service) : Service :=
  with_gateway (λ g, {| calls := calls g; awaiting := awaiting g;
                        initializing := i; settled := settled g;
                        nextPromise := nextPromise g |}) s.

(** The outcome of a promise, once it is settled. *)
Fixpoint outcome_in (k : nat) (l : list (nat * Outcome)) : option Outcome :=
  match l with
  | [] => None
  | (k', o) :: rest => if decide (k' = k) then Some o else outcome_in k rest
  end.

Definition outcome (k : nat) (s : Service) : option Outcome :=
  outcome_in k (settled (gateway s)).

(** The gateway did not answer with an entity: the request failed. *)
Definition rejects (r : Reply) : bool :=
  match r with
  | Entity _ => false
  | _ => true
  end.

(** Modelled from the spec: the typed failure a failed request turns into,
    [EntityNotFound] or [PersistenceFailure] (section 7). *)
Definition failure_of (r : Reply) : Failure :=
  match r with
  | Failed cause => PersistenceFailure cause
  | _ => EntityNotFound
  end.

(** *** Loading an entity (section 4.5) *)

(** Modelled from the spec: ProviderService's [getProvider], up to its first
    suspension point; "if the entity is absent, an async load is
    triggered through the Persistence Gateway, populating the cache and firing
    notifications on arrival". *)
Definition getProvider (id : js_string) (s : Service) : nat * Service :=
  let (k, s) := promise s in
  match get id (store s) with
  | Some _ => (k, conclude k Resolved s)
  | None => (k, await k (AwaitFetch id) (issue (fetchEntity id) s))
  end.

(** Modelled from the spec: the load's gateway success, "cache populated,
    notified". *)
Definition loaded (id : js_string) (p : Provider) (s : Service) : Service :=
  let (v, st) := alloc p (store s) in
  put id v false (with_store (λ _, st) s).

(** *** Optimistic update coordinator (section 4.3) *)

(** Modelled from the spec: "merging partialChange over the current value",
    [{...current, ...change}]. *)
Definition merge (current : Provider) (change : ProviderUpdates) : Provider :=
  {| id := id current;
     name := default (name current) (new_name change);
     enabled := default (enabled current) (new_enabled change) |}.

(** Modelled from the spec: the object the optimistic step allocates. *)
Definition optimisticValue (current : Ref) (change : ProviderUpdates)
    (s : Service) : Ref :=
  mkRef (nextAddr (store s)) (merge (obj current) change).

(** Modelled from the spec: the write in flight that applied [v], the value
    the cache holds for [id]: "PendingWrite: an in-flight optimistic mutation,
    recording entityId, the optimistic value applied, and the prior confirmed
    value".  Objects are compared by identity. *)
Definition appliedBy (id : js_string) (v : Ref) (a : Awaiting)
  : option PendingWrite :=
  match a with
  | AwaitWrite pw =>
      if decide (pw_id pw = id ∧ addr (pw_optimistic pw) = addr v)
      then Some pw else None
  | _ => None
  end.

(** Modelled from the spec: the PendingWrite, among the writes in flight,
    that applied [v] to [id]. *)
Definition pendingWriteOf (id : js_string) (v : Ref) (g : Gateway)
  : option PendingWrite :=
  head (omap (λ ka, appliedBy id v ka.2) (map_to_list (awaiting g))).

(** Modelled from the spec: step 1 of [update], "Read current confirmed value
    for id", for an id the cache holds: the cached value when it is confirmed;
    when it is optimistic, "the prior confirmed value" that the write in
    flight which applied it recorded (so "a second update issued while one is
    pending" rolls back to the same confirmed value as the first).  An
    optimistic value that no write in flight accounts for (there is none
    while optimistic values are put by [update] only) is all the service
    knows of the entity, and is taken as it is. *)
Definition priorConfirmedValue (id : js_string) (e : CacheEntry) (g : Gateway)
  : Ref :=
  if optimistic e
  then from_option pw_prior (value e) (pendingWriteOf id (value e) g)
  else value e.

(** Modelled from the spec: the confirmed value held for [id], if the cache
    holds [id] at all. *)
Definition confirmedValue (id : js_string) (s : Service) : option Ref :=
  (λ e, priorConfirmedValue id e (gateway s)) <$> cache (store s) !! id.

(** Modelled from the spec: steps 2 and 3 of [update]: merge over the
    current value, [put] the optimistic value (which notifies), ask the
    gateway to write; the write in flight records the prior confirmed
    value. *)
Definition applyOptimistic (k : nat) (id : js_string) (current prior : Ref)
    (change : ProviderUpdates) (s : Service) : Service :=
  let (next, st) := alloc (merge (obj current) change) (store s) in
  let s := put id next true (with_store (λ _, st) s) in
  await k (AwaitWrite (mkPendingWrite id next prior))
    (issue (writeEntity id change) s).

(** Modelled from the spec: ProviderService's [updateProvider],
    [update(id, partialChange)], up to its first
    suspension point.  With the entity cached this is steps 1 to 3, the
    optimistic value being computed "from the most recently applied optimistic
    value" and the rollback value being the confirmed one; otherwise step 1
    has to ask the gateway first. *)
Definition update (id : js_string) (change : ProviderUpdates) (s : Service)
  : nat * Service :=
  let (k, s) := promise s in
  match cache (store s) !! id with
  | Some e =>
      (k, applyOptimistic k id (value e)
            (priorConfirmedValue id e (gateway s)) change s)
  | None => (k, await k (AwaitRead id change) (issue (fetchEntity id) s))
  end.

(** Modelled from the spec: step 4 of [update]: the authoritative value
    replaces the optimistic one ("reference-equality or deep value-equality"
    is left open by section 9; value equality is taken here); when it
    agrees with the guess the guessed object stays, so nobody is notified a
    second time. *)
Definition reconcile (pw : PendingWrite) (p : Provider) (s : Service)
  : Service :=
  if decide (obj (pw_optimistic pw) = p)
  then put (pw_id pw) (pw_optimistic pw) false s
  else
    let (v, st) := alloc p (store s) in
    put (pw_id pw) v false (with_store (λ _, st) s).

(** Modelled from the spec: step 5 of [update], "put(id,
    priorConfirmedValue, optimistic=false), notify". *)
Definition rollback (pw : PendingWrite) (s : Service) : Service :=
  put (pw_id pw) (pw_prior pw) false s.

(** Modelled from the spec: the gateway answers the request promise [k]
    waits for, and the suspended operation resumes: a load populates the
    cache or rejects; an update reconciles, or rolls back and rejects with a
    typed failure.  The entity the gateway returns to the read of step 1 is
    the current confirmed value of that update. *)
Definition reply (k : nat) (r : Reply) (s : Service) : Service :=
  match awaiting (gateway s) !! k with
  | None => s
  | Some (AwaitFetch id) =>
      match r with
      | Entity p => settle k Resolved (loaded id p s)
      | _ => settle k (Rejected (failure_of r)) s
      end
  | Some (AwaitRead id change) =>
      match r with
      | Entity p =>
          let (current, st) := alloc p (store s) in
          applyOptimistic k id current current change (with_store (λ _, st) s)
      | _ => settle k (Rejected (failure_of r)) s
      end
  | Some (AwaitWrite pw) =>
      match r with
      | Entity p => settle k Resolved (reconcile pw p s)
      | _ => settle k (Rejected (failure_of r)) (rollback pw s)
      end
  end.

(** *** Default-entity initialisation (section 4.4) *)

(** Modelled from the spec: ProviderService's [initialize], up to its first
    suspension point; "if the DefaultSlot is already populated, resolves
    immediately without contacting the gateway; if an initialization is
    already in flight, subsequent calls await the same in-flight operation". *)
Definition initialize (s : Service) : nat * Service :=
  let (k, s) := promise s in
  match defaultSlot (store s) with
  | Some _ => (k, conclude k Resolved s)
  | None =>
      match initializing (gateway s) with
      | Some callers => (k, set_initializing (Some (callers ++ [k])) s)
      | None => (k, set_initializing (Some [k]) (issue fetchDefaultEntity s))
      end
  end.

(** Every caller of the initialisation settles the same way. *)
Definition conclude_all (callers : list nat) (o : Outcome) (s : Service)
  : Service :=
  foldl (λ s k, conclude k o s) s callers.

(** Modelled from the spec: the gateway answers [fetchDefaultEntity] and
    [initialize] completes: on success the DefaultSlot is
    populated and every waiting caller resolves; on failure the slot stays
    empty and every waiting caller is rejected with the same error. *)
Definition replyDefault (r : Reply) (s : Service) : Service :=
  match initializing (gateway s) with
  | None => s
  | Some callers =>
      let s := set_initializing None s in
      match r with
      | Entity p =>
          let (v, st) := alloc p (store s) in
          conclude_all callers Resolved (setDefault v (with_store (λ _, st) s))
      | _ => conclude_all callers (Rejected (failure_of r)) s
      end
  end.

(** *** Operation sequences *)

(** What can happen to the service: a call of one of its operations, or an
    answer of the gateway. *)
Inductive Op :=
| OpSubscribe (id : js_string) (cb : Callback)
| OpSubscribeDefault (cb : Callback)
| OpRelease (h : nat)
| OpPut (id : js_string) (p : Provider) (isOptimistic : bool)
| OpInvalidate (id : js_string)
| OpSetDefault (p : Provider)
| OpGetProvider (id : js_string)
| OpUpdate (id : js_string) (change : ProviderUpdates)
| OpInitialize
| OpReply (k : nat) (r : Reply)
| OpReplyDefault (r : Reply).

(** One operation. *)
Definition step (op : Op) (s : Service) : Service :=
  match op with
  | OpSubscribe id cb => with_registry (λ r, (subscribe id cb r).2) s
  | OpSubscribeDefault cb => with_registry (λ r, (subscribeDefault cb r).2) s
  | OpRelease h => with_registry (release h) s
  | OpPut id p isOptimistic =>
      let (v, st) := alloc p (store s) in
      put id v isOptimistic (with_store (λ _, st) s)
  | OpInvalidate id => invalidate id s
  | OpSetDefault p =>
      let (v, st) := alloc p (store s) in
      setDefault v (with_store (λ _, st) s)
  | OpGetProvider id => (getProvider id s).2
  | OpUpdate id change => (update id change s).2
  | OpInitialize => (initialize s).2
  | OpReply k r => reply k r s
  | OpReplyDefault r => replyDefault r s
  end.

(** A sequence of operations, oldest first. *)
Definition run (ops : list Op) (s : Service) : Service :=
  foldl (λ s op, step op s) s ops.

(** The operations that populate the DefaultSlot: [setDefault] and a
    successful answer to the initialisation's gateway read. *)
Definition populatesDefault (op : Op) : bool :=
  match op with
  | OpSetDefault _ => true
  | OpReplyDefault (Entity _) => true
  | _ => false
  end.


(** [initialize()] called [n] times in a row. *)
Definition initializeTimes (n : nat) (s : Service) : Service :=
  Nat.iter n (λ s, (initialize s).2) s.

(** *** Well-formed states *)

(** Handles are given out once: the registrations of an id (and of the
    default channel) carry distinct handles below [nextHandle]. *)
Definition registry_wf (r : Registry) : Prop :=
  (∀ id, NoDup (handle <$> subscribers id r))
  ∧ (∀ id sub, sub ∈ subscribers id r → handle sub < nextHandle r)
  ∧ NoDup (handle <$> defaultSubscriptions r)
  ∧ (∀ sub, sub ∈ defaultSubscriptions r → handle sub < nextHandle r).

(** Objects the service holds were allocated, and pending promises were
    created. *)
Definition heap_wf (st : Store) (g : Gateway) : Prop :=
  (∀ id e, cache st !! id = Some e → addr (value e) < nextAddr st)
  ∧ (∀ k pw, awaiting g !! k = Some (AwaitWrite pw) →
       addr (pw_prior pw) < nextAddr st
       ∧ addr (pw_optimistic pw) < nextAddr st)
  ∧ (∀ k a, awaiting g !! k = Some a → k < nextPromise g)
  ∧ (∀ k o, (k, o) ∈ settled g → k < nextPromise g)
  ∧ (∀ callers k, initializing g = Some callers → k ∈ callers →
       k < nextPromise g).

(** What a promise may wait for in a well-formed state. *)
Definition awaitable (a : Awaiting) (s : Service) : Prop :=
  match a with
  | AwaitWrite pw =>
      addr (pw_prior pw) < nextAddr (store s)
      ∧ addr (pw_optimistic pw) < nextAddr (store s)
  | _ => True
  end.

(** The states the service can be in. *)
Definition wf (s : Service) : Prop :=
  registry_wf (registry s) ∧ heap_wf (store s) (gateway s).

(** A registry after some releases. *)
Definition narrows (r r' : Registry) : Prop :=
  nextHandle r' = nextHandle r
  ∧ (∀ id, subscribers id r' `sublist_of` subscribers id r)
  ∧ defaultSubscriptions r' `sublist_of` defaultSubscriptions r.



End ProviderService.

(** ** src/hooks/useProviders.ts: [useProvider] and [useDefaultProvider] *)

Module ProviderHooks.
Import Js Types ProviderService.

(** [providerId && providerId.trim() !== ''], read as a condition. *)
Definition isValidId (providerId : js_string) : bool :=
  truthy providerId && negb (bool_decide (trim providerId = [])).

(** What a [subscribe] function hands back: [() => {}] or the service's
    unsubscribe handle. *)
Inductive Unsubscribe := NoOp | Release (h : nat).

(** The lines written through [logger]. *)
Inductive LogEntry :=
| verbose_subscribing (providerId : js_string)
| verbose_subscribing_default
| error_failed_to_load (providerId : js_string) (error : Failure)
| error_failed_to_initialize (error : Failure).

(** The dependencies of the loading effect: [provider] (compared by
    identity), [providerId], [isValidId]. *)
Definition EffectDeps : Type := option nat * js_string * bool.

(** One mounted [useProvider]: the [isLoading] state, the dependencies the
    subscription and the loading effect last ran with, the unsubscribe
    function in force, and the [getProvider] promises whose handlers are
    attached (each with the [providerId] its closure captured). *)
Record Instance := mkInstance {
  isLoading : bool;
  storeDeps : option (js_string * bool);
  effectDeps : option EffectDeps;
  unsubscribe : Unsubscribe;
  loads : list (nat * js_string)
}.

Record World := mkWorld {
  service : Service;
  instance : Instance;
  logger : list LogEntry
}.

(** A freshly mounted hook: [useState(false)], nothing subscribed. *)
Definition mounted : Instance := mkInstance false None None NoOp [].

Definition mount (svc : Service) (log : list LogEntry) : World :=
  mkWorld svc mounted log.

Definition with_service (f : Service → Service) (w : World) : World :=
  {| service := f (service w); instance := instance w; logger := logger w |}.

Definition with_instance (f : Instance → Instance) (w : World) : World :=
  {| service := service w; instance := f (instance w); logger := logger w |}.

Definition log (entry : LogEntry) (w : World) : World :=
  {| service := service w; instance := instance w;
     logger := logger w ++ [entry] |}.

Definition setIsLoading (b : bool) (w : World) : World :=
  with_instance (λ i, {| isLoading := b; storeDeps := storeDeps i;
                         effectDeps := effectDeps i;
                         unsubscribe := unsubscribe i; loads := loads i |}) w.

(** The callback [useSyncExternalStore] passes to [subscribe]: it schedules
    a render and leaves the registry alone. *)
Definition storeChanged : Callback := mkCallback 0 [].

(** *** [useProvider] *)

(** [subscribe] (lines 79-89). *)
Definition useProvider_subscribe (providerId : js_string) (callback : Callback)
    (w : World) : Unsubscribe * World :=
  if negb (isValidId providerId) then (NoOp, w)
  else
    let w := log (verbose_subscribing providerId) w in
    let (h, r) := subscribe providerId callback (registry (service w)) in
    (Release h, with_service (with_registry (λ _, r)) w).

Definition call (u : Unsubscribe) (w : World) : World :=
  match u with
  | NoOp => w
  | Release h => with_service (with_registry (release h)) w
  end.

(** [getSnapshot] (lines 94-99); [providerService.getProviderCached] is the
    cache read [get]. *)
Definition useProvider_getSnapshot (providerId : js_string) (svc : Service)
  : option Ref :=
  if negb (isValidId providerId) then None
  else get providerId (store svc).

(** The [.then] and [.catch] handlers of the loading effect. *)
Definition loadSettled (providerId : js_string) (o : Outcome) (w : World)
  : World :=
  match o with
  | Resolved => setIsLoading false w
  | Rejected error =>
      setIsLoading false (log (error_failed_to_load providerId error) w)
  end.

(** The body of the loading effect (lines 121-142). *)
Definition loadingEffect (providerId : js_string) (provider : option Ref)
    (w : World) : World :=
  if negb (isValidId providerId) then setIsLoading false w
  else
    match provider with
    | None =>
        let w := setIsLoading true w in
        let (k, svc) := getProvider providerId (service w) in
        with_instance
          (λ i, {| isLoading := isLoading i; storeDeps := storeDeps i;
                   effectDeps := effectDeps i; unsubscribe := unsubscribe i;
                   loads := loads i ++ [(k, providerId)] |})
          (with_service (λ _, svc) w)
    | Some _ => setIsLoading false w
    end.

(** [updateProvider] (lines 149-154) up to its [await]. *)
Definition useProvider_updateProvider (providerId : js_string)
    (updates : ProviderUpdates) (svc : Service) : nat * Service :=
  update providerId updates svc.

(** What [useProvider] returns (lines 158-162). *)
Record Result := mkResult { provider : option Ref; result_isLoading : bool }.

Definition useProvider (providerId : js_string) (w : World) : Result :=
  let provider := useProvider_getSnapshot providerId (service w) in
  {| provider := provider;
     result_isLoading :=
       negb (bool_decide (is_Some provider)) && isLoading (instance w) |}.

(** After a render React commits: [useSyncExternalStore] re-subscribes when
    [subscribe] changed (its dependencies are [providerId] and [isValidId]),
    releasing the subscription in force first; then the loading effect runs
    when one of its dependencies changed. *)
Definition resubscribe (providerId : js_string) (w : World) : World :=
  let deps := (providerId, isValidId providerId) in
  if decide (storeDeps (instance w) = Some deps) then w
  else
    let w := call (unsubscribe (instance w)) w in
    let (u, w) := useProvider_subscribe providerId storeChanged w in
    with_instance
      (λ i, {| isLoading := isLoading i; storeDeps := Some deps;
               effectDeps := effectDeps i; unsubscribe := u;
               loads := loads i |}) w.

Definition runLoadingEffect (providerId : js_string) (w : World) : World :=
  let provider := useProvider_getSnapshot providerId (service w) in
  let deps : EffectDeps := (addr <$> provider, providerId, isValidId providerId) in
  if decide (effectDeps (instance w) = Some deps) then w
  else
    loadingEffect providerId provider
      (with_instance
         (λ i, {| isLoading := isLoading i; storeDeps := storeDeps i;
                  effectDeps := Some deps; unsubscribe := unsubscribe i;
                  loads := loads i |}) w).

Definition commit (providerId : js_string) (w : World) : World :=
  runLoadingEffect providerId (resubscribe providerId w).

(** The handlers of the promises that have settled run, each once. *)
Definition deliver (w : World) : World :=
  let svc := service w in
  let due := filter (λ l, is_Some (outcome l.1 svc)) (loads (instance w)) in
  let w :=
    foldl (λ w l, loadSettled l.2 (default Resolved (outcome l.1 svc)) w) w due
  in
  with_instance
    (λ i, {| isLoading := isLoading i; storeDeps := storeDeps i;
             effectDeps := effectDeps i; unsubscribe := unsubscribe i;
             loads := filter (λ l, ¬ is_Some (outcome l.1 svc)) (loads i) |}) w.

(** What happens around a mounted hook: React renders it with some
    [providerId] and commits, or the service is used (by anyone) or hears
    from the gateway; settled promises then run their handlers. *)
Inductive Event :=
| Render (providerId : js_string)
| Use (op : Op).

Definition react (ev : Event) (w : World) : World :=
  deliver
    match ev with
    | Render providerId => commit providerId w
    | Use op => with_service (step op) w
    end.

Definition play (evs : list Event) (w : World) : World :=
  foldl (λ w ev, react ev w) w evs.

(** The service operations among the events. *)
Definition serviceOps (evs : list Event) : list Op :=
  omap (λ ev, match ev with Use op => Some op | Render _ => None end) evs.

(** The ids the hook was rendered with. *)
Definition renderedIds (evs : list Event) : list js_string :=
  omap (λ ev, match ev with Render i => Some i | Use _ => None end) evs.

(** *** [useDefaultProvider] *)

(** [getSnapshot] (lines 189-196): the throw of [getDefaultProvider] is
    caught and read as [null]. *)
Definition useDefaultProvider_getSnapshot (svc : Service) : option Ref :=
  match getDefault (store svc) with
  | inr v => Some v
  | inl _ => None
  end.

(** The initialisation effect (lines 211-226), up to the [await]: the
    promise it waits on, if it asked for one. *)
Definition initializeEffect (defaultProvider : option Ref) (svc : Service)
  : bool * option nat * Service :=
  match defaultProvider with
  | None => let (k, svc) := initialize svc in (true, Some k, svc)
  | Some _ => (false, None, svc)
  end.

(** *** Worlds the properties speak about *)

(** The flag is up only while the effect's last run was for a valid id. *)
Definition loadingOnlyIfValid (w : World) : Prop :=
  isLoading (instance w) = true →
  ∃ p id, effectDeps (instance w) = Some (p, id, true).

(** Nothing loading, nothing awaited, nothing subscribed. *)
Definition idle (w : World) : Prop :=
  isLoading (instance w) = false
  ∧ loads (instance w) = []
  ∧ unsubscribe (instance w) = NoOp.

(** The same world, field by field. *)
Definition same (w : World) : World :=
  {| service := service w;
     instance :=
       {| isLoading := isLoading (instance w);
          storeDeps := storeDeps (instance w);
          effectDeps := effectDeps (instance w);
          unsubscribe := unsubscribe (instance w);
          loads := loads (instance w) |};
     logger := logger w |}.

(** The world right after the first render of an absent, valid id. *)
Definition loadingWorld (svc : Service) (log : list LogEntry)
    (providerId : js_string) : World :=
  {| service :=
       (getProvider providerId
          (with_registry (λ r, (subscribe providerId storeChanged r).2) svc)).2;
     instance :=
       {| isLoading := true;
          storeDeps := Some (providerId, true);
          effectDeps := Some (None, providerId, true);
          unsubscribe := Release (nextHandle (registry svc));
          loads := [(nextPromise (gateway svc), providerId)] |};
     logger := log ++ [verbose_subscribing providerId] |}.

(** The world after the gateway failed that load. *)
Definition failedWorld (svc : Service) (log : list LogEntry)
    (providerId : js_string) (r : Reply) : World :=
  {| service :=
       settle (nextPromise (gateway svc)) (Rejected (failure_of r))
         (service (loadingWorld svc log providerId));
     instance :=
       {| isLoading := false;
          storeDeps := Some (providerId, true);
          effectDeps := Some (None, providerId, true);
          unsubscribe := Release (nextHandle (registry svc));
          loads := [] |};
     logger :=
       log ++ [verbose_subscribing providerId;
               error_failed_to_load providerId (failure_of r)] |}.

End ProviderHooks.

(** ** src/hooks/useMessageOperation.ts: [useTopicLoading] *)

Module TopicLoading.
Import MessageOperation.

(** What [useTopic] hands back: the topic, if the query found one, and
    whether the query is still loading. *)
Record UseTopic := mkUseTopic {
  topic : option Topic;
  isLoading : bool
}.

Section UseTopicLoading.
(** [useTopic] of [./useTopic]. *)
Context (useTopic : string → UseTopic).

(** [useTopicLoading] (lines 41-50). *)
Definition useTopicLoading (topicId : string) : bool :=
  let result := useTopic topicId in
  let isTopicQueryLoading := isLoading result in
  if isTopicQueryLoading || negb (bool_decide (is_Some (topic result)))
  then false
  else from_option topic_isLoading false (topic result) || false.
End UseTopicLoading.

End TopicLoading.

(** ** src/hooks/useProviders.ts: a mounted [useDefaultProvider] *)

Module DefaultProviderHook.
Import Js Types ProviderService ProviderHooks.

(** One mounted [useDefaultProvider]: the [isLoading] state, the unsubscribe
    function of the subscription made when it mounted (its dependency list
    is empty), the dependency the initialisation effect last ran with
    ([defaultProvider], compared by identity), and the [initialize] promises
    whose handlers are attached. *)
Record Instance := mkInstance {
  isLoading : bool;
  unsubscribe : option Unsubscribe;
  effectDeps : option (option nat);
  initializations : list nat
}.

Record World := mkWorld {
  service : Service;
  instance : Instance;
  logger : list LogEntry
}.

(** A freshly mounted hook: [useState(false)], nothing subscribed. *)
Definition mounted : Instance := mkInstance false None None [].

Definition mount (svc : Service) (log : list LogEntry) : World :=
  mkWorld svc mounted log.

Definition with_service (f : Service → Service) (w : World) : World :=
  {| service := f (service w); instance := instance w; logger := logger w |}.

Definition with_instance (f : Instance → Instance) (w : World) : World :=
  {| service := service w; instance := f (instance w); logger := logger w |}.

Definition log (entry : LogEntry) (w : World) : World :=
  {| service := service w; instance := instance w;
     logger := logger w ++ [entry] |}.

Definition setIsLoading (b : bool) (w : World) : World :=
  with_instance (λ i, {| isLoading := b; unsubscribe := unsubscribe i;
                         effectDeps := effectDeps i;
                         initializations := initializations i |}) w.

(** [subscribe] (lines 184-187). *)
Definition useDefaultProvider_subscribe (callback : Callback) (w : World)
  : Unsubscribe * World :=
  let w := log verbose_subscribing_default w in
  let (h, r) := subscribeDefault callback (registry (service w)) in
  (Release h, with_service (with_registry (λ _, r)) w).

(** The [.then] and [.catch] handlers of the initialisation effect. *)
Definition initializeSettled (o : Outcome) (w : World) : World :=
  match o with
  | Resolved => setIsLoading false w
  | Rejected error =>
      setIsLoading false (log (error_failed_to_initialize error) w)
  end.

(** The body of the initialisation effect (lines 211-226): what
    [initializeEffect] does to the service, and the [isLoading] it sets. *)
Definition initializationEffect (defaultProvider : option Ref) (w : World)
  : World :=
  let '(loading, k, svc) := initializeEffect defaultProvider (service w) in
  with_instance
    (λ i, {| isLoading := loading; unsubscribe := unsubscribe i;
             effectDeps := effectDeps i;
             initializations := initializations i ++ option_list k |})
    (with_service (λ _, svc) w).

(** What [useDefaultProvider] returns (lines 228-231). *)
Record Result := mkResult {
  defaultProvider : option Ref;
  result_isLoading : bool
}.

Definition useDefaultProvider (w : World) : Result :=
  let defaultProvider := useDefaultProvider_getSnapshot (service w) in
  {| defaultProvider := defaultProvider;
     result_isLoading :=
       negb (bool_decide (is_Some defaultProvider)) && isLoading (instance w) |}.

(** After a render React commits: [useSyncExternalStore] subscribes when the
    hook mounts ([subscribe] never changes), then the effect runs when
    [defaultProvider] changed. *)
Definition subscribeOnce (w : World) : World :=
  match unsubscribe (instance w) with
  | Some _ => w
  | None =>
      let (u, w) := useDefaultProvider_subscribe storeChanged w in
      with_instance
        (λ i, {| isLoading := isLoading i; unsubscribe := Some u;
                 effectDeps := effectDeps i;
                 initializations := initializations i |}) w
  end.

Definition runInitializationEffect (w : World) : World :=
  let defaultProvider := useDefaultProvider_getSnapshot (service w) in
  let deps := addr <$> defaultProvider in
  if decide (effectDeps (instance w) = Some deps) then w
  else
    initializationEffect defaultProvider
      (with_instance
         (λ i, {| isLoading := isLoading i; unsubscribe := unsubscribe i;
                  effectDeps := Some deps;
                  initializations := initializations i |}) w).

Definition commit (w : World) : World :=
  runInitializationEffect (subscribeOnce w).

(** The handlers of the promises that have settled run, each once. *)
Definition deliver (w : World) : World :=
  let svc := service w in
  let due := filter (λ k, is_Some (outcome k svc)) (initializations (instance w)) in
  let w :=
    foldl (λ w k, initializeSettled (default Resolved (outcome k svc)) w) w due
  in
  with_instance
    (λ i, {| isLoading := isLoading i; unsubscribe := unsubscribe i;
             effectDeps := effectDeps i;
             initializations :=
               filter (λ k, ¬ is_Some (outcome k svc)) (initializations i) |})
    w.

(** React renders the hook and commits, or the service is used (by anyone)
    or hears from the gateway; settled promises then run their handlers. *)
Inductive Event :=
| Render
| Use (op : Op).

Definition react (ev : Event) (w : World) : World :=
  deliver
    match ev with
    | Render => commit w
    | Use op => with_service (step op) w
    end.

Definition play (evs : list Event) (w : World) : World :=
  foldl (λ w ev, react ev w) w evs.

End DefaultProviderHook.

(** ** src/hooks/useProviders.ts: the registration a mounted [useProvider] holds *)

Module HookSubscriptions.
Import Js Types ProviderService ProviderHooks.

(** The registration a mounted [useProvider] holds for [id]: the one its
    unsubscribe function releases, made for the id its [subscribe] was last
    built with. *)
Definition hookSubscription (id : js_string) (w : World) : list Subscription :=
  match unsubscribe (instance w), storeDeps (instance w) with
  | Release h, Some (id0, _) =>
      if decide (id = id0) then [mkSubscription h storeChanged] else []
  | _, _ => []
  end.

(** The hook's bookkeeping agrees with the registry: over the registrations
    of [base], the registry holds the hook's own and nothing else. *)
Definition tracked (base : Registry) (w : World) : Prop :=
  nextHandle base ≤ nextHandle (registry (service w))
  ∧ match storeDeps (instance w), unsubscribe (instance w) with
    | None, NoOp => True
    | Some (_, false), NoOp => True
    | Some (_, true), Release h => nextHandle base ≤ h
    | _, _ => False
    end
  ∧ defaultSubscriptions (registry (service w)) = defaultSubscriptions base
  ∧ ∀ id, subscribers id (registry (service w))
          = subscribers id base ++ hookSubscription id w.

End HookSubscriptions.

(** ** Sample data *)

Module Samples.
Import Js Types ProviderService ProviderHooks.

Definition sample_rows : list Provider :=
  [ mkProvider (of_ascii "openai") "OpenAI" false;
    mkProvider (of_ascii "anthropic") "Anthropic" true;
    mkProvider (of_ascii "ollama") "Ollama" false;
    mkProvider (of_ascii "gemini") "Gemini" true ].

Definition p1 : js_string := of_ascii "p1".

(** The cache of the design document's example: provider [p1], disabled,
    with one subscriber. *)
Definition example_ops : list Op :=
  [ OpPut p1 (mkProvider p1 "Provider 1" false) false;
    OpSubscribe p1 (mkCallback 1 []) ].

Definition enable : ProviderUpdates := mkUpdates None (Some true).

Definition watched_ops : list Op :=
  [ OpSubscribeDefault (mkCallback 1 [1]);
    OpSubscribeDefault (mkCallback 2 []);
    OpSubscribe p1 (mkCallback 3 []) ].

Definition default_provider : Provider :=
  mkProvider (of_ascii "cherryai") "CherryAI" true.

Definition busy_ops : list Op :=
  [ OpSubscribeDefault (mkCallback 1 []);
    OpInitialize;
    OpPut p1 (mkProvider p1 "Provider 1" false) false;
    OpReplyDefault (Failed "no default configured");
    OpUpdate p1 enable;
    OpReply 1 (Entity (mkProvider p1 "Provider 1" true));
    OpInitialize;
    OpInvalidate p1 ].

End Samples.

(* ===================================================================== *)
(** * Part II: properties                                                 *)
(* ===================================================================== *)

(** ** Preference tables *)

Module PreferenceFacts.
Import Preference.

Lemma keys_defaults_schemas : keys DefaultPreferences = keys PreferenceSchemas.
Proof. reflexivity. Qed.

Lemma keys_descriptions_schemas :
  keys PreferenceDescriptions = keys PreferenceSchemas.
Proof. reflexivity. Qed.

Lemma schema_keys_NoDup : NoDup (keys PreferenceSchemas).
Proof. apply (bool_decide_unpack _). vm_compute. exact I. Qed.

(** Every declared key has a default of its declared type. *)
Lemma defaults_well_typed :
  Forall (λ kt, ∃ v, get DefaultPreferences kt.1 = Some v
                     ∧ has_type v kt.2 = true) PreferenceSchemas.
Proof. repeat constructor; eexists; split; reflexivity. Qed.

(** C10: the key sets of [DefaultPreferences.default] and of
    [PreferenceDescriptions] are equal, and both are exactly the keys that
    [PreferenceSchemas['default']] declares (each declared once); every
    declared key has a default value and a description. *)
Theorem preference_tables_total_and_consistent :
  key_set DefaultPreferences = key_set PreferenceDescriptions
  ∧ key_set DefaultPreferences = key_set PreferenceSchemas
  ∧ key_set PreferenceDescriptions = key_set PreferenceSchemas
  ∧ NoDup (keys PreferenceSchemas)
  ∧ ∀ k, k ∈ keys PreferenceSchemas →
      is_Some (get DefaultPreferences k)
      ∧ is_Some (get PreferenceDescriptions k).
Proof.
  unfold key_set.
  rewrite keys_defaults_schemas, keys_descriptions_schemas.
  split_and!; try done.
  - apply schema_keys_NoDup.
  - apply Forall_forall.
    repeat constructor; eexists; reflexivity.
Qed.

End PreferenceFacts.

(** ** [pauseMessages] *)

Module MessageOperationFacts.
Import Js MessageOperation.

Section SetOfArrayFacts.
Context {A : Type} `{EqDecision A}.
Implicit Types (seen l : list A).

Lemma Set_add_all_elem x seen l :
  x ∈ Set_add_all seen l ↔ x ∈ seen ∨ x ∈ l.
Proof.
  revert seen. induction l as [|y l IH]; intros seen; simpl.
  - rewrite elem_of_nil. tauto.
  - destruct (decide (y ∈ seen)) as [Hy|Hy]; rewrite IH.
    + rewrite elem_of_cons. split; [tauto|].
      intros [?|[->|?]]; auto.
    + rewrite elem_of_app, !elem_of_cons, elem_of_nil. tauto.
Qed.

Lemma Set_add_all_NoDup seen l : NoDup seen → NoDup (Set_add_all seen l).
Proof.
  revert seen. induction l as [|y l IH]; intros seen Hnd; simpl; [done|].
  destruct (decide (y ∈ seen)) as [Hy|Hy]; apply IH; [done|].
  apply NoDup_app. split_and!; [done| |apply NoDup_singleton].
  intros z Hz Hz'. apply list_elem_of_singleton in Hz'. by subst.
Qed.

Lemma Set_add_all_length seen l :
  (length (Set_add_all seen l) ≤ length seen + length l)%nat.
Proof.
  revert seen. induction l as [|y l IH]; intros seen; simpl; [lia|].
  destruct (decide (y ∈ seen)).
  - specialize (IH seen). lia.
  - specialize (IH (seen ++ [y])). rewrite length_app in IH. simpl in IH. lia.
Qed.

Lemma Set_spread_elem x l : x ∈ Set_spread l ↔ x ∈ l.
Proof.
  unfold Set_spread. rewrite Set_add_all_elem, elem_of_nil. tauto.
Qed.

Lemma Set_spread_NoDup l : NoDup (Set_spread l).
Proof. apply Set_add_all_NoDup, NoDup_nil_2. Qed.
End SetOfArrayFacts.

Lemma isStreaming_spec m :
  isStreaming m = true ↔ status m = "processing" ∨ status m = "pending".
Proof.
  unfold isStreaming. rewrite orb_true_iff, !String.eqb_eq. tauto.
Qed.

Lemma truthy_text_spec o :
  truthy_text o = true ↔ ∃ s, o = Some s ∧ s ≠ "".
Proof.
  destruct o as [s|]; simpl.
  - rewrite negb_true_iff. split.
    + intros H. exists s. split; [done|]. intros ->. by rewrite String.eqb_refl in H.
    + intros (s' & [= <-] & Hne). by apply String.eqb_neq.
  - split; [done|]. by intros (? & ? & ?).
Qed.

(** The ids handed to [abortCompletion] are the non-empty [askId]s of the
    streaming messages. *)
Lemma askIds_elem a msgs :
  a ∈ askIds msgs ↔
  a ≠ "" ∧ ∃ m, m ∈ msgs ∧ (status m = "processing" ∨ status m = "pending")
                ∧ askId m = Some a.
Proof.
  unfold askIds. rewrite Set_spread_elem, list_elem_of_omap.
  split.
  - intros (o & Ho & Hid). simpl in Hid. subst o.
    apply list_elem_of_In, filter_In in Ho as [Ho Ht].
    apply truthy_text_spec in Ht as (s & [= <-] & Hne).
    apply in_map_iff in Ho as (m & Hm & Hin).
    apply filter_In in Hin as [Hin Hs].
    split; [done|]. exists m. split_and!; [by apply list_elem_of_In| |done].
    by apply isStreaming_spec.
  - intros (Hne & m & Hin & Hs & Ha).
    exists (Some a). split; [|done].
    apply list_elem_of_In, filter_In. split.
    + apply in_map_iff. exists m. split; [done|].
      apply filter_In. split; [by apply list_elem_of_In|].
      by apply isStreaming_spec.
    + apply truthy_text_spec. eauto.
Qed.

Lemma omap_length_le {A B : Type} (f : A → option B) (l : list A) :
  (length (omap f l) ≤ length l)%nat.
Proof.
  induction l as [|x l IH]; csimpl; [lia|].
  destruct (f x); simpl; lia.
Qed.

Lemma askIds_length msgs : (length (askIds msgs) ≤ length msgs)%nat.
Proof.
  unfold askIds, Set_spread.
  etrans; [apply Set_add_all_length|]. simpl.
  etrans; [apply omap_length_le|].
  etrans; [apply List.filter_length_le|].
  rewrite length_map. apply List.filter_length_le.
Qed.

(** C7: [pauseMessages] calls [abortCompletion] exactly once for each
    distinct non-empty [askId] among the topic's messages whose status is
    'processing' or 'pending' (at most one call per message), then calls
    [updateTopic] with [isLoading: false] for the topic; when the lookup
    returns nothing it makes no call at all. *)
Theorem pauseMessages_aborts_each_streaming_askId_once
    (getMessagesByTopicId : string → option (list Message)) (topic : Topic) :
  match getMessagesByTopicId (topic_id topic) with
  | None => pauseMessages getMessagesByTopicId topic = []
  | Some topicMessages =>
      ∃ ids : list string,
        pauseMessages getMessagesByTopicId topic
        = map abortCompletion ids ++ [updateTopic (topic_id topic) false]
        ∧ NoDup ids
        ∧ (length ids ≤ length topicMessages)%nat
        ∧ ∀ a, a ∈ ids ↔
               a ≠ "" ∧ ∃ m, m ∈ topicMessages
                 ∧ (status m = "processing" ∨ status m = "pending")
                 ∧ askId m = Some a
  end.
Proof.
  unfold pauseMessages.
  destruct (getMessagesByTopicId (topic_id topic)) as [msgs|]; [|done].
  exists (askIds msgs). split_and!.
  - done.
  - apply Set_spread_NoDup.
  - apply askIds_length.
  - intros a. apply askIds_elem.
Qed.

End MessageOperationFacts.

(** ** [useAllProviders] *)

Module AllProvidersFacts.
Import Js Types AllProviders Samples.

Abbreviation is_enabled := (λ p : Provider, enabled p = true).
Abbreviation is_disabled := (λ p : Provider, enabled p = false).

(** An enabled provider never moves behind anything. *)
Lemma sort_insert_enabled x l :
  enabled x = true → sort_insert compareEnabled x l = x :: l.
Proof.
  intros Hx. destruct l as [|y l]; simpl; [done|].
  unfold compareEnabled. rewrite Hx. by destruct (enabled y).
Qed.

(** A disabled provider moves behind the enabled ones ... *)
Lemma sort_insert_disabled_skip x front back :
  enabled x = false → Forall is_enabled front →
  sort_insert compareEnabled x (front ++ back)
  = front ++ sort_insert compareEnabled x back.
Proof.
  intros Hx. induction 1 as [|y front Hy _ IH]; simpl; [done|].
  unfold compareEnabled at 1. rewrite Hx, Hy. simpl. by rewrite IH.
Qed.

(** ... and stops in front of the disabled ones. *)
Lemma sort_insert_disabled_stop x back :
  enabled x = false → Forall is_disabled back →
  sort_insert compareEnabled x back = x :: back.
Proof.
  intros Hx Hback. destruct Hback as [|y back Hy _]; simpl; [done|].
  unfold compareEnabled. by rewrite Hx, Hy.
Qed.

Lemma Forall_filter_self {A : Type} (P : A → Prop) `{∀ x, Decision (P x)}
    (l : list A) :
  Forall P (filter P l).
Proof.
  apply Forall_forall. intros y Hy. by apply list_elem_of_filter in Hy as [? _].
Qed.

(** The sort is the stable partition into enabled and disabled providers. *)
Lemma Array_sort_compareEnabled l :
  Array_sort compareEnabled l = filter is_enabled l ++ filter is_disabled l.
Proof.
  induction l as [|x l IH]; [done|].
  change (Array_sort compareEnabled (x :: l))
    with (sort_insert compareEnabled x (Array_sort compareEnabled l)).
  rewrite IH. destruct (enabled x) eqn:Hx.
  - rewrite sort_insert_enabled by done.
    rewrite (filter_cons_True is_enabled) by done.
    rewrite (filter_cons_False is_disabled); [done|]. simpl. congruence.
  - rewrite sort_insert_disabled_skip by (done || apply Forall_filter_self).
    rewrite sort_insert_disabled_stop by (done || apply Forall_filter_self).
    rewrite (filter_cons_False is_enabled) by (simpl; congruence).
    by rewrite (filter_cons_True is_disabled).
Qed.

Lemma partition_enabled_Permutation l :
  filter is_enabled l ++ filter is_disabled l ≡ₚ l.
Proof.
  induction l as [|x l IH]; [done|]. destruct (enabled x) eqn:Hx.
  - rewrite (filter_cons_True is_enabled) by done.
    rewrite (filter_cons_False is_disabled) by (simpl; congruence).
    simpl. by rewrite IH.
  - rewrite (filter_cons_False is_enabled) by (simpl; congruence).
    rewrite (filter_cons_True is_disabled) by done.
    rewrite <- Permutation_middle. by rewrite IH.
Qed.

Lemma partition_enabled_first front back :
  Forall is_enabled front → Forall is_disabled back →
  enabled_first (front ++ back).
Proof.
  intros Hfront Hback i j a b Hi Hj Ha Hb.
  destruct (decide (i < length front)) as [Hlt|Hge].
  - destruct (decide (j < length front)) as [Hj'|Hj']; [|lia].
    rewrite lookup_app_l in Hj by done.
    eapply Forall_lookup_1 in Hj; [|done]. simpl in Hj. congruence.
  - rewrite lookup_app_r in Hi by lia.
    eapply Forall_lookup_1 in Hi; [|done]. simpl in Hi. congruence.
Qed.

Lemma Array_sort_enabled_first l : enabled_first (Array_sort compareEnabled l).
Proof.
  rewrite Array_sort_compareEnabled.
  apply partition_enabled_first; apply Forall_filter_self.
Qed.

Lemma Array_sort_Permutation l : Array_sort compareEnabled l ≡ₚ l.
Proof. rewrite Array_sort_compareEnabled. apply partition_enabled_Permutation. Qed.

Lemma enabled_first_nil : enabled_first [].
Proof. intros i j a b Hi. by rewrite lookup_nil in Hi. Qed.

Lemma noRows_rows {Row : Type} (query : LiveQuery Row) :
  noRows (data query) = true ↔ rows query = [].
Proof.
  unfold noRows, rows. by destruct (data query) as [[|r l]|].
Qed.

Section Facts.
Context {Row : Type} (transformDbToProvider : Row → Provider).

Lemma processedProviders_enabled_first raw :
  enabled_first (processedProviders transformDbToProvider raw).
Proof.
  unfold processedProviders. destruct (noRows raw).
  - apply enabled_first_nil.
  - apply Array_sort_enabled_first.
Qed.

Lemma processedProviders_Permutation (query : LiveQuery Row) :
  processedProviders transformDbToProvider (data query)
  ≡ₚ map transformDbToProvider (rows query).
Proof.
  unfold processedProviders. destruct (noRows (data query)) eqn:Hno.
  - apply noRows_rows in Hno. by rewrite Hno.
  - apply Array_sort_Permutation.
Qed.
End Facts.

(** The two outcomes of [useAllProviders]. *)
Lemma useAllProviders_loading {Row : Type} (transformDbToProvider : Row → Provider)
    (query : LiveQuery Row) :
  updatedAt query = None ∨ rows query = [] →
  useAllProviders transformDbToProvider query
  = {| providers := []; isLoading := true |}.
Proof.
  intros Hq. unfold useAllProviders.
  destruct Hq as [->|Hno]; [done|].
  apply noRows_rows in Hno. rewrite Hno. by rewrite orb_true_r.
Qed.

Lemma useAllProviders_ready {Row : Type} (transformDbToProvider : Row → Provider)
    (query : LiveQuery Row) :
  is_Some (updatedAt query) → rows query ≠ [] →
  useAllProviders transformDbToProvider query
  = {| providers := processedProviders transformDbToProvider (data query);
       isLoading := false |}.
Proof.
  intros Ht Hrows. unfold useAllProviders.
  rewrite bool_decide_eq_true_2 by done.
  destruct (noRows (data query)) eqn:Hno; [|done].
  by apply noRows_rows in Hno.
Qed.

(** C6: whatever rows the live query delivered, the providers returned by
    [useAllProviders] are sorted enabled-first (every provider with
    [enabled = true] stands before every provider with [enabled = false])
    and are a permutation of the transformed rows. *)
Theorem useAllProviders_enabled_first_permutation
    {Row : Type} (transformDbToProvider : Row → Provider)
    (query : LiveQuery Row) :
  delivered_together query →
  enabled_first (providers (useAllProviders transformDbToProvider query))
  ∧ providers (useAllProviders transformDbToProvider query)
    ≡ₚ map transformDbToProvider (rows query).
Proof.
  intros Hq.
  destruct (rows query) as [|r rest] eqn:Hrows.
  - rewrite useAllProviders_loading by auto.
    split; [apply enabled_first_nil|done].
  - destruct (updatedAt query) as [t|] eqn:Ht; [|by rewrite Hq in Hrows].
    rewrite <- Hrows.
    rewrite useAllProviders_ready by (by rewrite ?Ht, ?Hrows).
    split; [apply processedProviders_enabled_first|].
    apply processedProviders_Permutation.
Qed.

Example useAllProviders_sample :
  name <$> providers (useAllProviders (λ p, p)
                        (mkLiveQuery (Some sample_rows) (Some 1)))
  = ["Anthropic"; "Gemini"; "OpenAI"; "Ollama"].
Proof. reflexivity. Qed.

Lemma useAllProviders_enabled_first_permutation_witness :
  let query := mkLiveQuery (Some sample_rows) (Some 1) in
  delivered_together query
  ∧ enabled_first (providers (useAllProviders (λ p, p) query))
  ∧ providers (useAllProviders (λ p, p) query) ≡ₚ map (λ p, p) (rows query).
Proof.
  split.
  - intros Hnone. discriminate Hnone.
  - apply (useAllProviders_enabled_first_permutation
             (λ p, p) (mkLiveQuery (Some sample_rows) (Some 1))).
    intros Hnone. discriminate Hnone.
Defined.

(** The result before the first delivery of the live query. *)
Definition stillLoading {Row : Type} : LiveQuery Row := mkLiveQuery (Some []) None.

(** C8: whenever the query result holds no provider rows, [useAllProviders]
    returns an empty list with [isLoading = true], also after the query has
    completed ([updatedAt] set): the result is the one of the query that has
    not delivered yet. *)
Theorem useAllProviders_no_rows_reports_loading
    {Row : Type} (transformDbToProvider : Row → Provider)
    (query : LiveQuery Row) :
  rows query = [] →
  useAllProviders transformDbToProvider query
  = {| providers := []; isLoading := true |}
  ∧ useAllProviders transformDbToProvider query
    = useAllProviders transformDbToProvider stillLoading.
Proof.
  intros Hrows.
  rewrite !useAllProviders_loading by auto. done.
Qed.

Lemma useAllProviders_no_rows_reports_loading_witness :
  let query : LiveQuery Provider := mkLiveQuery (Some []) (Some 1700) in
  rows query = []
  ∧ useAllProviders (λ p, p) query = {| providers := []; isLoading := true |}
  ∧ useAllProviders (λ p, p) query = useAllProviders (λ p, p) stillLoading.
Proof.
  split.
  - reflexivity.
  - apply (useAllProviders_no_rows_reports_loading
             (λ p, p) (mkLiveQuery (Some []) (Some 1700))).
    reflexivity.
Defined.

End AllProvidersFacts.

(** ** Strings *)

Module JsFacts.
Import Js.

Lemma trimStart_blank s : trimStart s = [] ↔ blank s = true.
Proof.
  induction s as [|u s IH]; simpl; [done|].
  destruct (isWhiteSpace u); simpl; [done|]. split; discriminate.
Qed.

Lemma blank_rev s : blank (rev s) = blank s.
Proof.
  unfold blank. induction s as [|u s IH]; simpl; [done|].
  rewrite forallb_app, IH. simpl. rewrite andb_true_r. apply andb_comm.
Qed.

Lemma blank_trimStart s : blank (trimStart s) = blank s.
Proof.
  induction s as [|u s IH]; simpl; [done|].
  destruct (isWhiteSpace u) eqn:Hu; simpl; [done|]. by rewrite Hu.
Qed.

Lemma trim_blank s : trim s = [] ↔ blank s = true.
Proof.
  unfold trim, trimEnd.
  rewrite <- (rev_involutive []) at 1. simpl.
  split.
  - intros H. apply (f_equal (@rev N)) in H. rewrite rev_involutive in H.
    simpl in H. apply trimStart_blank in H.
    by rewrite blank_rev, blank_trimStart in H.
  - intros H. apply trimStart_blank in H. by rewrite H.
Qed.

End JsFacts.

(** ** The provider service *)

Module ProviderServiceFacts.
Import Js Types ProviderService.

#[local] Arguments put : simpl never.
#[local] Arguments setDefault : simpl never.
#[local] Arguments applyOptimistic : simpl never.
#[local] Arguments loaded : simpl never.
#[local] Arguments reconcile : simpl never.
#[local] Arguments rollback : simpl never.

(** *** The registry *)

Lemma subscribers_release id h r :
  subscribers id (release h r) = filter (λ sub, handle sub ≠ h) (subscribers id r).
Proof.
  unfold subscribers, release. simpl. rewrite lookup_fmap.
  by destruct (subscriptions r !! id).
Qed.

Instance narrows_refl : Reflexive narrows.
Proof. intros r. by split_and!. Qed.

Instance narrows_trans : Transitive narrows.
Proof.
  intros r1 r2 r3 (Hn & Hs & Hd) (Hn' & Hs' & Hd'). split_and!.
  - congruence.
  - intros id. etrans; [apply Hs'|apply Hs].
  - etrans; [apply Hd'|apply Hd].
Qed.

Lemma release_narrows h r : narrows r (release h r).
Proof.
  split_and!; [done| |apply sublist_filter].
  intros id. rewrite subscribers_release. apply sublist_filter.
Qed.

Lemma releases_narrows hs r : narrows r (foldr release r hs).
Proof.
  induction hs as [|h hs IH]; simpl; [done|].
  etrans; [exact IH|apply release_narrows].
Qed.

Lemma release_fired h r : fired (release h r) = fired r.
Proof. done. Qed.

Lemma releases_fired hs r : fired (foldr release r hs) = fired r.
Proof. induction hs as [|h hs IH]; [done|]. simpl. exact IH. Qed.

Lemma invoke_fired sub r : fired (invoke sub r) = fired r ++ [handle sub].
Proof. unfold invoke. by rewrite releases_fired. Qed.

Lemma invoke_narrows sub r : narrows r (invoke sub r).
Proof.
  unfold invoke. etrans; [|apply releases_narrows]. by split_and!.
Qed.

Lemma dispatch_fired snapshot r :
  fired (dispatch snapshot r) = fired r ++ (handle <$> snapshot).
Proof.
  unfold dispatch. revert r.
  induction snapshot as [|sub snapshot IH]; intros r; simpl.
  - by rewrite app_nil_r.
  - rewrite IH, invoke_fired. by rewrite <- app_assoc.
Qed.

Lemma dispatch_narrows snapshot r : narrows r (dispatch snapshot r).
Proof.
  unfold dispatch. revert r.
  induction snapshot as [|sub snapshot IH]; intros r; simpl; [done|].
  etrans; [apply invoke_narrows|apply IH].
Qed.

Lemma narrows_wf r r' : registry_wf r → narrows r r' → registry_wf r'.
Proof.
  intros (Hnd & Hlt & Hndd & Hltd) (Hn & Hs & Hd). split_and!.
  - intros id. eapply sublist_NoDup; [apply Hnd|]. by apply fmap_sublist.
  - intros id sub Hin. rewrite Hn. eapply Hlt, elem_of_sublist; [done|apply Hs].
  - eapply sublist_NoDup; [apply Hndd|]. by apply fmap_sublist.
  - intros sub Hin. rewrite Hn. eapply Hltd, elem_of_sublist; done.
Qed.

Lemma subscribers_subscribe id id' cb r :
  subscribers id' (subscribe id cb r).2
  = if decide (id = id')
    then subscribers id r ++ [mkSubscription (nextHandle r) cb]
    else subscribers id' r.
Proof.
  unfold subscribers at 1. simpl. rewrite lookup_insert.
  by destruct (decide (id = id')) as [->|].
Qed.

Lemma NoDup_handles_snoc (l : list Subscription) n cb :
  NoDup (handle <$> l) → (∀ sub, sub ∈ l → handle sub < n) →
  NoDup (handle <$> (l ++ [mkSubscription n cb])).
Proof.
  intros Hnd Hlt. rewrite fmap_app. apply NoDup_app. split_and!; [done| |].
  - intros h Hh Hh'. simpl in Hh'. apply list_elem_of_singleton in Hh'. subst h.
    apply list_elem_of_fmap in Hh as (sub & Heq & Hin). apply Hlt in Hin. lia.
  - simpl. apply NoDup_singleton.
Qed.

Lemma subscribe_wf id cb r : registry_wf r → registry_wf (subscribe id cb r).2.
Proof.
  intros (Hnd & Hlt & Hndd & Hltd). split_and!.
  - intros id'. rewrite subscribers_subscribe. case_decide; [|done].
    apply NoDup_handles_snoc; [done|]. apply Hlt.
  - intros id' sub. rewrite subscribers_subscribe. simpl. case_decide.
    + rewrite elem_of_app, list_elem_of_singleton. intros [Hin| ->]; simpl; [|lia].
      apply Hlt in Hin. lia.
    + intros Hin. apply Hlt in Hin. lia.
  - done.
  - intros sub Hin. apply Hltd in Hin. simpl. lia.
Qed.

Lemma subscribeDefault_wf cb r :
  registry_wf r → registry_wf (subscribeDefault cb r).2.
Proof.
  intros (Hnd & Hlt & Hndd & Hltd). split_and!.
  - done.
  - intros id sub Hin. apply Hlt in Hin. simpl. lia.
  - simpl. by apply NoDup_handles_snoc.
  - intros sub. simpl. rewrite elem_of_app, list_elem_of_singleton.
    intros [Hin| ->]; simpl; [|lia]. apply Hltd in Hin. lia.
Qed.

Lemma notify_wf id r : registry_wf r → registry_wf (notify id r).
Proof. intros Hwf. eapply narrows_wf; [done|apply dispatch_narrows]. Qed.

Lemma notifyDefault_wf r : registry_wf r → registry_wf (notifyDefault r).
Proof. intros Hwf. eapply narrows_wf; [done|apply dispatch_narrows]. Qed.

Lemma release_wf h r : registry_wf r → registry_wf (release h r).
Proof. intros Hwf. eapply narrows_wf; [done|apply release_narrows]. Qed.

(** *** What the primitives touch *)

Lemma put_store id v o s :
  store (put id v o s)
  = {| cache := <[id := mkEntry v (S (from_option generation 0
                                         (cache (store s) !! id))) o]>
                  (cache (store s));
       defaultSlot := defaultSlot (store s);
       nextAddr := nextAddr (store s) |}.
Proof. unfold put. by destruct (differs _ _). Qed.

Lemma put_gateway id v o s : gateway (put id v o s) = gateway s.
Proof. unfold put. by destruct (differs _ _). Qed.

Lemma put_registry id v o s :
  registry (put id v o s)
  = if differs (value <$> cache (store s) !! id) v
    then notify id (registry s) else registry s.
Proof. unfold put. by destruct (differs _ _). Qed.

Lemma put_narrows id v o s : narrows (registry s) (registry (put id v o s)).
Proof.
  rewrite put_registry. destruct (differs _ _); [apply dispatch_narrows|done].
Qed.

Lemma put_get id v o s : get id (store (put id v o s)) = Some v.
Proof. unfold get. rewrite put_store. simpl. by rewrite lookup_insert_eq. Qed.

Lemma put_get_ne id id' v o s :
  id ≠ id' → get id' (store (put id v o s)) = get id' (store s).
Proof.
  intros Hne. unfold get. rewrite put_store. simpl.
  by rewrite lookup_insert_ne.
Qed.

Lemma setDefault_store v s :
  store (setDefault v s)
  = {| cache := cache (store s); defaultSlot := Some v;
       nextAddr := nextAddr (store s) |}.
Proof. unfold setDefault. by destruct (differs _ _). Qed.

Lemma setDefault_gateway v s : gateway (setDefault v s) = gateway s.
Proof. unfold setDefault. by destruct (differs _ _). Qed.

Lemma setDefault_registry v s :
  registry (setDefault v s)
  = if differs (defaultSlot (store s)) v
    then notifyDefault (registry s) else registry s.
Proof. unfold setDefault. by destruct (differs _ _). Qed.

Lemma setDefault_narrows v s :
  narrows (registry s) (registry (setDefault v s)).
Proof.
  rewrite setDefault_registry.
  destruct (differs _ _); [apply dispatch_narrows|done].
Qed.

(** A freshly allocated object differs from everything allocated before. *)
Lemma differs_fresh previous n p :
  (∀ old, previous = Some old → addr old < n) →
  differs previous (mkRef n p) = true.
Proof.
  intros Hlt. destruct previous as [old|]; simpl; [|done].
  apply negb_true_iff, Nat.eqb_neq. specialize (Hlt old eq_refl). lia.
Qed.

(** *** Well-formedness is kept *)

Lemma wf_initial : wf initial.
Proof.
  split; [split_and!|split_and!]; simpl; try done.
  - intros id. unfold subscribers. simpl. rewrite lookup_empty. constructor.
  - intros id sub. unfold subscribers. simpl. rewrite lookup_empty.
    by intros ?%elem_of_nil.
  - constructor.
  - by intros sub ?%elem_of_nil.
  - by intros k o ?%elem_of_nil.
Qed.

Lemma wf_with_registry f s :
  wf s → registry_wf (f (registry s)) → wf (with_registry f s).
Proof. intros [_ Hh] Hr. by split. Qed.

Lemma wf_put id v o s : wf s → addr v < nextAddr (store s) → wf (put id v o s).
Proof.
  intros [Hr (Hc & Hp & Hk & Hs & Hi)] Hv. split.
  - eapply narrows_wf; [done|apply put_narrows].
  - rewrite put_store, put_gateway. split_and!; simpl; [|done..].
    intros id' e. rewrite lookup_insert. case_decide.
    + by intros [= <-].
    + apply Hc.
Qed.

Lemma wf_setDefault v s : wf s → wf (setDefault v s).
Proof.
  intros [Hr Hh]. split.
  - eapply narrows_wf; [done|apply setDefault_narrows].
  - by rewrite setDefault_store, setDefault_gateway.
Qed.

Lemma wf_alloc p s : wf s → wf (with_store (λ _, (alloc p (store s)).2) s).
Proof.
  intros [Hr (Hc & Hp & Hk & Hs & Hi)]. split; [done|]. split_and!; simpl.
  - intros id e He. apply Hc in He. lia.
  - intros k pw Hpw. apply Hp in Hpw. lia.
  - done.
  - done.
  - done.
Qed.

Lemma wf_invalidate id s : wf s → wf (invalidate id s).
Proof.
  intros [Hr (Hc & Hp & Hk & Hs & Hi)]. split; [done|].
  split_and!; simpl; [|done..].
  intros id' e. rewrite lookup_delete. case_decide; [done|apply Hc].
Qed.

Lemma wf_issue c s : wf s → wf (issue c s).
Proof. by intros [Hr (Hc & Hp & Hk & Hs & Hi)]. Qed.

Lemma wf_conclude k o s :
  wf s → k < nextPromise (gateway s) → wf (conclude k o s).
Proof.
  intros [Hr (Hc & Hp & Hk & Hs & Hi)] Hlt. split; [done|].
  split_and!; simpl; [done..| |done].
  intros k' o'. rewrite elem_of_app, list_elem_of_singleton.
  intros [Hin|[= -> ->]]; [by eapply Hs|done].
Qed.

Lemma wf_conclude_all ks o s :
  wf s → (∀ k, k ∈ ks → k < nextPromise (gateway s)) →
  wf (conclude_all ks o s).
Proof.
  unfold conclude_all. revert s.
  induction ks as [|k ks IH]; intros s Hs Hks; simpl; [done|].
  apply IH.
  - apply wf_conclude; [done|]. apply Hks. by left.
  - intros k' Hk'. simpl. apply Hks. by right.
Qed.

Lemma wf_set_initializing i s :
  wf s → (∀ callers k, i = Some callers → k ∈ callers →
            k < nextPromise (gateway s)) →
  wf (set_initializing i s).
Proof. by intros [Hr (Hc & Hp & Hk & Hs & Hi)] Hnew. Qed.

Lemma wf_promise s : wf s → wf (promise s).2.
Proof.
  intros [Hr (Hc & Hp & Hk & Hs & Hi)]. split; [done|].
  split_and!; simpl; [done..| | |].
  - intros k a Ha. apply Hk in Ha. lia.
  - intros k o Ho. apply Hs in Ho. lia.
  - intros callers k Hc' Hin. eapply Hi in Hin; [|done]. lia.
Qed.

Lemma wf_settle k o s :
  wf s → k < nextPromise (gateway s) → wf (settle k o s).
Proof.
  intros [Hr (Hc & Hp & Hk & Hs & Hi)] Hlt. apply wf_conclude; [|done].
  split; [done|]. split_and!; simpl; [done| | |done..].
  - intros k' pw. rewrite lookup_delete. case_decide; [done|apply Hp].
  - intros k' a. rewrite lookup_delete. case_decide; [done|apply Hk].
Qed.

Lemma wf_await k a s :
  wf s → k < nextPromise (gateway s) → awaitable a s → wf (await k a s).
Proof.
  intros [Hr (Hc & Hp & Hk & Hs & Hi)] Hlt Ha. split; [done|].
  split_and!; simpl; [done| | |done..].
  - intros k' pw. rewrite lookup_insert. case_decide; [|apply Hp].
    by intros [= ->].
  - intros k' a'. rewrite lookup_insert. case_decide; [|apply Hk].
    intros _. by subst.
Qed.

Lemma loaded_gateway id p s : gateway (loaded id p s) = gateway s.
Proof. unfold loaded. simpl. by rewrite put_gateway. Qed.

Lemma reconcile_gateway pw p s : gateway (reconcile pw p s) = gateway s.
Proof. unfold reconcile. case_decide; simpl; by rewrite put_gateway. Qed.

Lemma rollback_gateway pw s : gateway (rollback pw s) = gateway s.
Proof. apply put_gateway. Qed.

Lemma wf_loaded id p s : wf s → wf (loaded id p s).
Proof.
  intros Hs. unfold loaded. simpl.
  apply wf_put; [by apply (wf_alloc p)|]. simpl. lia.
Qed.

Lemma wf_applyOptimistic k id current prior change s :
  wf s → k < nextPromise (gateway s) → addr prior < nextAddr (store s) →
  wf (applyOptimistic k id current prior change s).
Proof.
  intros Hs Hk Hcur. unfold applyOptimistic. simpl.
  apply wf_await.
  - apply wf_issue, wf_put; [by apply (wf_alloc (merge (obj current) change))|].
    simpl. lia.
  - simpl. by rewrite put_gateway.
  - simpl. rewrite put_store. simpl. lia.
Qed.

Lemma wf_reconcile pw p s :
  wf s → awaitable (AwaitWrite pw) s → wf (reconcile pw p s).
Proof.
  intros Hs [_ Hopt]. unfold reconcile. case_decide.
  - by apply wf_put.
  - simpl. apply wf_put; [by apply (wf_alloc p)|]. simpl. lia.
Qed.

Lemma wf_rollback pw s :
  wf s → awaitable (AwaitWrite pw) s → wf (rollback pw s).
Proof. intros Hs [Hprior _]. by apply wf_put. Qed.

Lemma wf_awaiting k a s :
  wf s → awaiting (gateway s) !! k = Some a →
  k < nextPromise (gateway s) ∧ awaitable a s.
Proof.
  intros [_ (Hc & Hp & Hk & _)] Ha. split; [by eapply Hk|].
  destruct a; simpl; try done. by eapply Hp.
Qed.

Lemma wf_reply k r s : wf s → wf (reply k r s).
Proof.
  intros Hs. unfold reply.
  destruct (awaiting (gateway s) !! k) as [a|] eqn:Ha; [|done].
  destruct (wf_awaiting _ _ _ Hs Ha) as [Hk Haw].
  destruct a as [id|id change|pw].
  - destruct r; apply wf_settle; rewrite ?loaded_gateway; try done.
    by apply wf_loaded.
  - destruct r; [|by apply wf_settle..]. simpl.
    apply wf_applyOptimistic; [by apply (wf_alloc p)|done|simpl; lia].
  - destruct r; apply wf_settle;
      rewrite ?reconcile_gateway, ?rollback_gateway; try done.
    + by apply wf_reconcile.
    + by apply wf_rollback.
    + by apply wf_rollback.
Qed.

Lemma wf_replyDefault r s : wf s → wf (replyDefault r s).
Proof.
  intros Hs. unfold replyDefault.
  destruct (initializing (gateway s)) as [callers|] eqn:Hi; [|done].
  assert (∀ k, k ∈ callers → k < nextPromise (gateway s)) as Hcallers.
  { intros k Hk. destruct Hs as [_ (_ & _ & _ & _ & Hinit)]. by eapply Hinit. }
  assert (wf (set_initializing None s)) as Hs'.
  { by apply wf_set_initializing. }
  destruct r; simpl; apply wf_conclude_all; try done.
  - apply wf_setDefault. by apply (wf_alloc p (set_initializing None s)).
  - by rewrite setDefault_gateway.
Qed.

Lemma wf_getProvider id s : wf s → wf (getProvider id s).2.
Proof.
  intros Hs. unfold getProvider. simpl.
  destruct (get id (store s)); simpl.
  - apply wf_conclude; [by apply (wf_promise s)|simpl; lia].
  - apply wf_await; [by apply wf_issue, (wf_promise s)|simpl; lia|done].
Qed.

Lemma pendingWriteOf_Some id v g pw :
  pendingWriteOf id v g = Some pw →
  ∃ k, awaiting g !! k = Some (AwaitWrite pw)
       ∧ pw_id pw = id ∧ addr (pw_optimistic pw) = addr v.
Proof.
  unfold pendingWriteOf. intros Hhead.
  apply head_Some_elem_of, list_elem_of_omap in Hhead as ([k a] & Hin & Ha).
  apply elem_of_map_to_list in Hin. simpl in Ha.
  destruct a as [| |pw']; simpl in Ha; try done.
  case_decide as Hpw; [|done]. injection Ha as ->. exists k. by destruct Hpw.
Qed.

Lemma priorConfirmedValue_wf id e s :
  wf s → cache (store s) !! id = Some e →
  addr (priorConfirmedValue id e (gateway s)) < nextAddr (store s).
Proof.
  intros [_ (Hc & Hp & _)] He. unfold priorConfirmedValue.
  destruct (optimistic e); [|by eapply Hc].
  destruct (pendingWriteOf id (value e) (gateway s)) as [pw|] eqn:Hpw; simpl.
  - apply pendingWriteOf_Some in Hpw as (k & Hk & _).
    by destruct (Hp k pw Hk).
  - by eapply Hc.
Qed.

Lemma wf_update id change s : wf s → wf (update id change s).2.
Proof.
  intros Hs. unfold update. simpl.
  destruct (cache (store s) !! id) as [e|] eqn:He; simpl.
  - apply wf_applyOptimistic; [by apply (wf_promise s)|simpl; lia|].
    by apply (priorConfirmedValue_wf id e s).
  - apply wf_await; [by apply wf_issue, (wf_promise s)|simpl; lia|done].
Qed.

Lemma wf_initialize s : wf s → wf (initialize s).2.
Proof.
  intros Hs. unfold initialize. simpl.
  pose proof (wf_promise s Hs) as Hs'.
  destruct (defaultSlot (store s)); simpl.
  - apply wf_conclude; [done|simpl; lia].
  - destruct (initializing (gateway s)) as [callers|] eqn:Hi; simpl.
    + apply wf_set_initializing; [done|]. simpl.
      intros ? k [= <-] [Hk| ->%list_elem_of_singleton]%elem_of_app; [|lia].
      destruct Hs as [_ (_ & _ & _ & _ & Hinit)]. eapply Hinit in Hk; [|done]. lia.
    + apply wf_set_initializing; [by apply wf_issue|]. simpl.
      intros ? k [= <-] ->%list_elem_of_singleton. lia.
Qed.

Lemma wf_step op s : wf s → wf (step op s).
Proof.
  intros Hs. destruct op; simpl.
  - apply wf_with_registry; [done|]. apply subscribe_wf, Hs.
  - apply wf_with_registry; [done|]. apply subscribeDefault_wf, Hs.
  - apply wf_with_registry; [done|]. apply release_wf, Hs.
  - apply wf_put; [by apply (wf_alloc p)|]. simpl. lia.
  - by apply wf_invalidate.
  - apply wf_setDefault. by apply (wf_alloc p).
  - by apply wf_getProvider.
  - by apply wf_update.
  - by apply wf_initialize.
  - by apply wf_reply.
  - by apply wf_replyDefault.
Qed.

Lemma wf_run ops s : wf s → wf (run ops s).
Proof.
  unfold run. revert s.
  induction ops as [|op ops IH]; intros s Hs; simpl; [done|].
  by apply IH, wf_step.
Qed.

Lemma run_app ops ops' s : run (ops ++ ops') s = run ops' (run ops s).
Proof. apply foldl_app. Qed.

(** *** The optimistic update, step by step *)

Lemma update_cached id change s e :
  cache (store s) !! id = Some e →
  update id change s
  = (nextPromise (gateway s),
     applyOptimistic (nextPromise (gateway s)) id (value e)
       (priorConfirmedValue id e (gateway s)) change (promise s).2).
Proof. intros He. unfold update, get. simpl. by rewrite He. Qed.

Lemma applyOptimistic_store k id current prior change s :
  store (applyOptimistic k id current prior change s)
  = {| cache := <[id := mkEntry (optimisticValue current change s)
                           (S (from_option generation 0 (cache (store s) !! id)))
                           true]> (cache (store s));
       defaultSlot := defaultSlot (store s);
       nextAddr := S (nextAddr (store s)) |}.
Proof. unfold applyOptimistic. simpl. by rewrite put_store. Qed.

Lemma applyOptimistic_gateway k id current prior change s :
  gateway (applyOptimistic k id current prior change s)
  = {| calls := calls (gateway s) ++ [writeEntity id change];
       awaiting :=
         <[k := AwaitWrite (mkPendingWrite id (optimisticValue current change s)
                              prior)]> (awaiting (gateway s));
       initializing := initializing (gateway s);
       settled := settled (gateway s);
       nextPromise := nextPromise (gateway s) |}.
Proof. unfold applyOptimistic. simpl. by rewrite put_gateway. Qed.

(** In a well-formed state the optimistic value is a new object, so the
    [put] of step 2 always notifies. *)
Lemma applyOptimistic_registry k id current prior change s :
  wf s →
  registry (applyOptimistic k id current prior change s)
  = notify id (registry s).
Proof.
  intros [_ (Hc & _)]. unfold applyOptimistic. simpl.
  rewrite put_registry. simpl. rewrite differs_fresh; [done|].
  intros old Hold. destruct (cache (store s) !! id) as [e|] eqn:He; [|done].
  injection Hold as <-. by eapply Hc.
Qed.

Lemma notify_fired id r :
  fired (notify id r) = fired r ++ (handle <$> subscribers id r).
Proof. apply dispatch_fired. Qed.

Lemma notifyDefault_fired r :
  fired (notifyDefault r) = fired r ++ (handle <$> defaultSubscriptions r).
Proof. apply dispatch_fired. Qed.

(** *** Promises that stay pending *)




(** *** The default slot *)

Lemma conclude_all_store ks o s : store (conclude_all ks o s) = store s.
Proof.
  unfold conclude_all. revert s.
  induction ks as [|k ks IH]; intros s; simpl; [done|]. by rewrite IH.
Qed.

Lemma conclude_all_registry ks o s :
  registry (conclude_all ks o s) = registry s.
Proof.
  unfold conclude_all. revert s.
  induction ks as [|k ks IH]; intros s; simpl; [done|]. by rewrite IH.
Qed.

Lemma conclude_all_gateway ks o s :
  gateway (conclude_all ks o s)
  = {| calls := calls (gateway s); awaiting := awaiting (gateway s);
       initializing := initializing (gateway s);
       settled := settled (gateway s) ++ ((λ k, (k, o)) <$> ks);
       nextPromise := nextPromise (gateway s) |}.
Proof.
  unfold conclude_all. revert s.
  induction ks as [|k ks IH]; intros s; simpl.
  - rewrite app_nil_r. by destruct (gateway s).
  - rewrite IH. simpl. by rewrite <- app_assoc.
Qed.

Lemma loaded_defaultSlot id p s :
  defaultSlot (store (loaded id p s)) = defaultSlot (store s).
Proof. unfold loaded. simpl. by rewrite put_store. Qed.

Lemma reconcile_defaultSlot pw p s :
  defaultSlot (store (reconcile pw p s)) = defaultSlot (store s).
Proof. unfold reconcile. case_decide; simpl; by rewrite put_store. Qed.

Lemma rollback_defaultSlot pw s :
  defaultSlot (store (rollback pw s)) = defaultSlot (store s).
Proof. unfold rollback. by rewrite put_store. Qed.

(** Only [setDefault] and a successful initialisation write the slot. *)
Lemma step_defaultSlot op s :
  populatesDefault op = false →
  defaultSlot (store (step op s)) = defaultSlot (store s).
Proof.
  intros Hop.
  destruct op as [id cb|cb|h|id p o|id|p|id|id change| |k r|r];
    simpl in *; try done.
  - by rewrite put_store.
  - unfold getProvider. simpl. by destruct (get id (store s)).
  - unfold update. simpl. destruct (cache (store s) !! id); simpl; [|done].
    by rewrite put_store.
  - unfold initialize. simpl.
    destruct (defaultSlot (store s)) eqn:Hslot; simpl; [done|].
    by destruct (initializing (gateway s)).
  - unfold reply. destruct (awaiting (gateway s) !! k) as [a|]; [|done].
    destruct a as [id|id change|pw], r; simpl;
      by rewrite ?loaded_defaultSlot, ?reconcile_defaultSlot,
           ?rollback_defaultSlot, ?put_store.
  - unfold replyDefault. destruct (initializing (gateway s)); [|done].
    destruct r; [done|..]; simpl; by rewrite conclude_all_store.
Qed.

Lemma run_defaultSlot ops s :
  forallb (λ op, negb (populatesDefault op)) ops = true →
  defaultSlot (store (run ops s)) = defaultSlot (store s).
Proof.
  unfold run. revert s.
  induction ops as [|op ops IH]; intros s Hops; simpl in *; [done|].
  apply andb_true_iff in Hops as [Hop Hops]. apply negb_true_iff in Hop.
  rewrite IH by done. by apply step_defaultSlot.
Qed.

(** *** Initialisation *)

(** [n + 1] calls on an empty slot with nothing in flight: one gateway read,
    and the callers queue up behind it. *)
Lemma initializeTimes_queue n s :
  defaultSlot (store s) = None → initializing (gateway s) = None →
  initializeTimes (S n) s
  = with_gateway
      (λ g, {| calls := calls g ++ [fetchDefaultEntity];
               awaiting := awaiting g;
               initializing := Some (seq (nextPromise g) (S n));
               settled := settled g;
               nextPromise := nextPromise g + S n |}) s.
Proof.
  intros Hslot Hinit. unfold initializeTimes.
  induction n as [|n IH].
  - simpl. unfold initialize. simpl. rewrite Hslot, Hinit.
    unfold set_initializing, issue, with_gateway. simpl.
    do 2 f_equal. lia.
  - rewrite Nat.iter_succ, IH. unfold initialize. simpl. rewrite Hslot.
    unfold set_initializing, with_gateway. simpl.
    do 2 f_equal; [|lia]. do 2 f_equal.
    change (seq (S (nextPromise (gateway s))) n ++ [nextPromise (gateway s) + S n]
            = seq (S (nextPromise (gateway s))) (S n)).
    rewrite seq_S. do 2 f_equal. lia.
Qed.

Lemma initialize_populated s v :
  defaultSlot (store s) = Some v →
  initialize s
  = (nextPromise (gateway s),
     conclude (nextPromise (gateway s)) Resolved (promise s).2).
Proof. intros Hslot. unfold initialize. simpl. by rewrite Hslot. Qed.

(** *** Optimistic entries and the writes in flight *)







End ProviderServiceFacts.

(** ** The hooks over the service *)

Module ProviderHooksFacts.
Import Js Types ProviderService ProviderHooks Samples.
Import JsFacts ProviderServiceFacts.

(** C1: in every state the service can reach, for every cached id and every
    partial change, the synchronous part of [updateProvider] (the service's
    [update]) leaves the merge of the change over the previous value in the
    cache, marked optimistic, and has invoked each subscriber registered on
    the id exactly once (the registrations carry distinct handles and the
    invocations are exactly those handles, in order); the gateway write has
    been requested (the write in flight records the optimistic value and the
    prior confirmed value), the promise is pending and nothing has settled:
    the asynchronous portion has not run. *)
Theorem updateProvider_applies_and_notifies_before_awaiting
    (ops : list Op) (id : js_string) (change : ProviderUpdates)
    (e : CacheEntry) :
  let s := run ops initial in
  cache (store s) !! id = Some e →
  let k := (useProvider_updateProvider id change s).1 in
  let s' := (useProvider_updateProvider id change s).2 in
  get id (store s') = Some (mkRef (nextAddr (store s))
                              (merge (obj (value e)) change))
  ∧ optimistic <$> cache (store s') !! id = Some true
  ∧ fired (registry s')
    = fired (registry s) ++ (handle <$> subscribers id (registry s))
  ∧ NoDup (handle <$> subscribers id (registry s))
  ∧ awaiting (gateway s') !! k
    = Some (AwaitWrite (mkPendingWrite id (optimisticValue (value e) change s)
                          (priorConfirmedValue id e (gateway s))))
  ∧ calls (gateway s') = calls (gateway s) ++ [writeEntity id change]
  ∧ settled (gateway s') = settled (gateway s).
Proof.
  intros s He k s'.
  assert (wf s) as Hs by apply wf_run, wf_initial.
  subst k s'. unfold useProvider_updateProvider.
  rewrite (update_cached _ _ _ _ He). cbn [fst snd].
  rewrite applyOptimistic_store, applyOptimistic_gateway,
    applyOptimistic_registry by by apply (wf_promise s).
  simpl. unfold get. simpl. rewrite lookup_insert_eq. simpl.
  rewrite notify_fired, lookup_insert_eq.
  split_and!; try done.
  destruct Hs as [(Hnd & _) _]. apply Hnd.
Qed.

Lemma updateProvider_applies_and_notifies_before_awaiting_witness :
  let s := run example_ops initial in
  let e := mkEntry (mkRef 0 (mkProvider p1 "Provider 1" false)) 1 false in
  let k := (useProvider_updateProvider p1 enable s).1 in
  let s' := (useProvider_updateProvider p1 enable s).2 in
  cache (store s) !! p1 = Some e
  ∧ get p1 (store s') = Some (mkRef (nextAddr (store s))
                                (merge (obj (value e)) enable))
  ∧ optimistic <$> cache (store s') !! p1 = Some true
  ∧ fired (registry s')
    = fired (registry s) ++ (handle <$> subscribers p1 (registry s))
  ∧ NoDup (handle <$> subscribers p1 (registry s))
  ∧ awaiting (gateway s') !! k
    = Some (AwaitWrite (mkPendingWrite p1 (optimisticValue (value e) enable s)
                          (value e)))
  ∧ calls (gateway s') = calls (gateway s) ++ [writeEntity p1 enable]
  ∧ settled (gateway s') = settled (gateway s).
Proof.
  split.
  - reflexivity.
  - apply (updateProvider_applies_and_notifies_before_awaiting
             example_ops p1 enable
             (mkEntry (mkRef 0 (mkProvider p1 "Provider 1" false)) 1 false)).
    reflexivity.
Defined.

Example update_example :
  let s := run example_ops initial in
  let s' := (update p1 enable s).2 in
  obj <$> get p1 (store s') = Some (mkProvider p1 "Provider 1" true)
  ∧ fired (registry s') = [0]
  ∧ fired (registry (reply 0 (Entity (mkProvider p1 "Provider 1" true)) s'))
    = [0]
  ∧ obj <$> get p1 (store (reply 0 (Failed "offline") s'))
    = Some (mkProvider p1 "Provider 1" false).
Proof. by vm_compute. Qed.

(** *** The confirmed value *)






(** Two updates of one id overlap and both writes fail, in either order: the
    cache ends with the value that was confirmed before the first. *)
Example overlapping_rejections_restore_the_confirmed_value :
  let s := run example_ops initial in
  let one := (update p1 (mkUpdates (Some "One") None) s).2 in
  let two := (update p1 enable one).2 in
  obj <$> get p1 (store two) = Some (mkProvider p1 "One" true)
  ∧ confirmedValue p1 two = Some (mkRef 0 (mkProvider p1 "Provider 1" false))
  ∧ get p1 (store (reply 1 (Failed "offline") (reply 0 (Failed "offline") two)))
    = Some (mkRef 0 (mkProvider p1 "Provider 1" false))
  ∧ get p1 (store (reply 0 (Failed "offline") (reply 1 (Failed "offline") two)))
    = Some (mkRef 0 (mkProvider p1 "Provider 1" false))
  ∧ optimistic
      <$> cache (store (reply 0 (Failed "offline")
                          (reply 1 (Failed "offline") two))) !! p1
    = Some false.
Proof. by vm_compute. Qed.

(** C3: [initialize] is idempotent.  In every reachable state: with the
    DefaultSlot populated a call resolves at once, asks the gateway nothing
    and changes neither cache nor registry; with the slot empty and no
    initialisation in flight, [n + 1] calls followed by the gateway's single
    answer make exactly one gateway read, resolve all [n + 1] callers, leave
    the answered entity in the DefaultSlot for all of them, and invoke each
    default subscriber exactly once. *)
Theorem initialize_is_idempotent (ops : list Op) (n : nat) (p : Provider) :
  let s := run ops initial in
  (is_Some (defaultSlot (store s)) →
   let s' := (initialize s).2 in
   calls (gateway s') = calls (gateway s)
   ∧ settled (gateway s')
     = settled (gateway s) ++ [((initialize s).1, Resolved)]
   ∧ store s' = store s
   ∧ registry s' = registry s)
  ∧ (defaultSlot (store s) = None → initializing (gateway s) = None →
     let s' := replyDefault (Entity p) (initializeTimes (S n) s) in
     calls (gateway s') = calls (gateway s) ++ [fetchDefaultEntity]
     ∧ settled (gateway s')
       = settled (gateway s)
         ++ ((λ k, (k, Resolved)) <$> seq (nextPromise (gateway s)) (S n))
     ∧ getDefault (store s') = inr (mkRef (nextAddr (store s)) p)
     ∧ fired (registry s')
       = fired (registry s)
         ++ (handle <$> defaultSubscriptions (registry s))
     ∧ NoDup (handle <$> defaultSubscriptions (registry s))
     ∧ initializing (gateway s') = None).
Proof.
  intros s.
  assert (wf s) as Hs by apply wf_run, wf_initial.
  split.
  - intros [v Hslot]. by rewrite (initialize_populated _ _ Hslot).
  - intros Hslot Hinit s'. subst s'.
    rewrite initializeTimes_queue by done.
    unfold replyDefault. cbn [with_gateway gateway initializing].
    cbn [alloc store set_initializing with_gateway with_store].
    rewrite conclude_all_gateway, conclude_all_store, conclude_all_registry.
    rewrite setDefault_gateway, setDefault_store, setDefault_registry.
    cbn [store with_store defaultSlot]. rewrite Hslot.
    cbn [differs registry with_store gateway calls settled initializing].
    rewrite notifyDefault_fired.
    split_and!; try done.
    destruct Hs as [(_ & _ & Hnd & _) _]. apply Hnd.
Qed.

Lemma initialize_is_idempotent_witness :
  let s := run watched_ops initial in
  let s' := replyDefault (Entity default_provider) (initializeTimes 3 s) in
  calls (gateway s') = calls (gateway s) ++ [fetchDefaultEntity]
  ∧ settled (gateway s')
    = settled (gateway s)
      ++ ((λ k, (k, Resolved)) <$> seq (nextPromise (gateway s)) 3)
  ∧ getDefault (store s') = inr (mkRef (nextAddr (store s)) default_provider)
  ∧ fired (registry s')
    = fired (registry s) ++ (handle <$> defaultSubscriptions (registry s))
  ∧ NoDup (handle <$> defaultSubscriptions (registry s))
  ∧ initializing (gateway s') = None.
Proof.
  apply (initialize_is_idempotent watched_ops 2 default_provider);
    reflexivity.
Defined.

Example initialize_example :
  let s := run watched_ops initial in
  let s' := replyDefault (Entity default_provider) (initializeTimes 3 s) in
  calls (gateway s') = [fetchDefaultEntity]
  ∧ settled (gateway s') = [(0, Resolved); (1, Resolved); (2, Resolved)]
  ∧ fired (registry s') = [0; 1]
  ∧ calls (gateway (initialize s').2) = [fetchDefaultEntity]
  ∧ outcome 3 (initialize s').2 = Some Resolved.
Proof. by vm_compute. Qed.

(** The effect of [useDefaultProvider] asks for the initialisation exactly
    when its snapshot is [null]. *)
Lemma initializeEffect_initializes svc :
  initializeEffect (useDefaultProvider_getSnapshot svc) svc
  = match defaultSlot (store svc) with
    | None => (true, Some (initialize svc).1, (initialize svc).2)
    | Some _ => (false, None, svc)
    end.
Proof.
  unfold initializeEffect, useDefaultProvider_getSnapshot, getDefault.
  destruct (defaultSlot (store svc)); [done|]. by destruct (initialize svc).
Qed.

(** C4: after any sequence of operations that contains neither [setDefault]
    nor a successful answer to the initialisation's gateway read, reading the
    default entity signals [UninitializedDefault], and the snapshot of
    [useDefaultProvider] turns that into an absent result ([null]). *)
Theorem default_is_uninitialized_until_populated (ops : list Op) :
  forallb (λ op, negb (populatesDefault op)) ops = true →
  getDefault (store (run ops initial)) = inl UninitializedDefault
  ∧ useDefaultProvider_getSnapshot (run ops initial) = None.
Proof.
  intros Hops. unfold useDefaultProvider_getSnapshot, getDefault.
  by rewrite run_defaultSlot.
Qed.

Lemma default_is_uninitialized_until_populated_witness :
  forallb (λ op, negb (populatesDefault op)) busy_ops = true
  ∧ getDefault (store (run busy_ops initial)) = inl UninitializedDefault
  ∧ useDefaultProvider_getSnapshot (run busy_ops initial) = None.
Proof.
  split.
  - reflexivity.
  - apply (default_is_uninitialized_until_populated busy_ops). reflexivity.
Defined.

Lemma isValidId_blank providerId : isValidId providerId = negb (blank providerId).
Proof.
  unfold isValidId. destruct (blank providerId) eqn:Hb; simpl.
  - apply trim_blank in Hb. rewrite Hb.
    rewrite bool_decide_eq_true_2 by done. apply andb_false_r.
  - destruct providerId as [|u rest]; [done|]. simpl.
    rewrite bool_decide_eq_false_2; [done|].
    intros Ht%trim_blank. congruence.
Qed.

(** *** Handlers never touch the service *)

Lemma loadSettled_service id o w : service (loadSettled id o w) = service w.
Proof. by destruct o. Qed.

Lemma loadSettled_all_service svc due w :
  service (foldl (λ w l, loadSettled l.2 (default Resolved (outcome l.1 svc)) w)
             w due) = service w.
Proof.
  revert w. induction due as [|l due IH]; intros w; simpl; [done|].
  by rewrite IH, loadSettled_service.
Qed.

Lemma deliver_service w : service (deliver w) = service w.
Proof. unfold deliver. simpl. apply loadSettled_all_service. Qed.

(** With no handler attached, nothing is delivered. *)
Lemma deliver_no_loads w :
  loads (instance w) = [] →
  service (deliver w) = service w
  ∧ logger (deliver w) = logger w
  ∧ isLoading (instance (deliver w)) = isLoading (instance w)
  ∧ effectDeps (instance (deliver w)) = effectDeps (instance w)
  ∧ storeDeps (instance (deliver w)) = storeDeps (instance w)
  ∧ unsubscribe (instance (deliver w)) = unsubscribe (instance w)
  ∧ loads (instance (deliver w)) = [].
Proof. intros Hl. unfold deliver. rewrite Hl. simpl. by rewrite Hl. Qed.

(** *** Rendering with a blank id *)

Section Blank.
Context (providerId : js_string) (Hblank : blank providerId = true).

Lemma blank_invalid : isValidId providerId = false.
Proof using Hblank. by rewrite isValidId_blank, Hblank. Qed.

Lemma getSnapshot_blank svc : useProvider_getSnapshot providerId svc = None.
Proof using Hblank. unfold useProvider_getSnapshot. by rewrite blank_invalid. Qed.

Lemma subscribe_blank callback w :
  useProvider_subscribe providerId callback w = (NoOp, w).
Proof using Hblank. unfold useProvider_subscribe. by rewrite blank_invalid. Qed.

Lemma useProvider_blank w :
  useProvider providerId w
  = {| provider := None; result_isLoading := isLoading (instance w) |}.
Proof using Hblank. unfold useProvider. by rewrite getSnapshot_blank. Qed.

Lemma resubscribe_blank w :
  resubscribe providerId w
  = if decide (storeDeps (instance w) = Some (providerId, false)) then w
    else
      with_instance
        (λ i, {| isLoading := isLoading i;
                 storeDeps := Some (providerId, false);
                 effectDeps := effectDeps i; unsubscribe := NoOp;
                 loads := loads i |})
        (call (unsubscribe (instance w)) w).
Proof using Hblank.
  unfold resubscribe. rewrite blank_invalid. case_decide; [done|].
  by rewrite subscribe_blank.
Qed.

Lemma runLoadingEffect_blank w :
  runLoadingEffect providerId w
  = if decide (effectDeps (instance w) = Some (None, providerId, false)) then w
    else
      setIsLoading false
        (with_instance
           (λ i, {| isLoading := isLoading i; storeDeps := storeDeps i;
                    effectDeps := Some (None, providerId, false);
                    unsubscribe := unsubscribe i; loads := loads i |}) w).
Proof using Hblank.
  unfold runLoadingEffect, loadingEffect.
  rewrite getSnapshot_blank, blank_invalid. simpl. by repeat case_decide.
Qed.

(** The commit registers nothing and asks the gateway nothing: at most the
    subscription in force is released. *)
Lemma commit_blank w :
  store (service (commit providerId w)) = store (service w)
  ∧ gateway (service (commit providerId w)) = gateway (service w)
  ∧ narrows (registry (service w)) (registry (service (commit providerId w)))
  ∧ logger (commit providerId w) = logger w
  ∧ loads (instance (commit providerId w)) = loads (instance w).
Proof using Hblank.
  unfold commit. rewrite runLoadingEffect_blank, resubscribe_blank.
  destruct w as [svc [il sd ed u ls] lg]. simpl.
  repeat case_decide; simpl; destruct u; simpl;
    split_and!; try done; apply release_narrows.
Qed.

End Blank.

(** *** The loading flag *)

Lemma loadSettled_isLoading id o w :
  isLoading (instance (loadSettled id o w)) = false.
Proof. by destruct o. Qed.

Lemma loadSettled_effectDeps id o w :
  effectDeps (instance (loadSettled id o w)) = effectDeps (instance w).
Proof. by destruct o. Qed.

Lemma loadSettled_all_isLoading svc due w :
  isLoading (instance w) = false →
  isLoading
    (instance (foldl (λ w l, loadSettled l.2
                               (default Resolved (outcome l.1 svc)) w) w due))
  = false.
Proof.
  revert w. induction due as [|l due IH]; intros w Hw; simpl; [done|].
  apply IH, loadSettled_isLoading.
Qed.

Lemma loadSettled_all_effectDeps svc due w :
  effectDeps
    (instance (foldl (λ w l, loadSettled l.2
                               (default Resolved (outcome l.1 svc)) w) w due))
  = effectDeps (instance w).
Proof.
  revert w. induction due as [|l due IH]; intros w; simpl; [done|].
  by rewrite IH, loadSettled_effectDeps.
Qed.

(** Delivering handlers only ever clears the flag. *)
Lemma deliver_isLoading w :
  isLoading (instance (deliver w)) = true → isLoading (instance w) = true.
Proof.
  unfold deliver. simpl. intros H.
  destruct (isLoading (instance w)) eqn:Hw; [done|].
  by rewrite loadSettled_all_isLoading in H.
Qed.

Lemma deliver_effectDeps w :
  effectDeps (instance (deliver w)) = effectDeps (instance w).
Proof. unfold deliver. simpl. apply loadSettled_all_effectDeps. Qed.

Lemma loadingOnlyIfValid_mount svc log : loadingOnlyIfValid (mount svc log).
Proof. intros H. discriminate H. Qed.

Lemma loadingOnlyIfValid_commit id w :
  loadingOnlyIfValid w → loadingOnlyIfValid (commit id w).
Proof.
  intros Hw. unfold commit, runLoadingEffect.
  assert (loadingOnlyIfValid (resubscribe id w)) as Hw'.
  { unfold resubscribe. case_decide; [done|].
    destruct (useProvider_subscribe _ _ _) as [u w'] eqn:Hsub.
    assert (instance w' = instance w) as Hi.
    { unfold useProvider_subscribe in Hsub.
      destruct (negb (isValidId id)); injection Hsub as <- <-;
        by destruct (unsubscribe (instance w)). }
    unfold loadingOnlyIfValid. simpl. rewrite Hi. apply Hw. }
  case_decide; [done|].
  unfold loadingEffect. destruct (isValidId id) eqn:Hv; simpl.
  - intros _. destruct (useProvider_getSnapshot id (service (resubscribe id w)));
      simpl; [eauto|].
    destruct (getProvider id _) as [k svc]. simpl. eauto.
  - intros H'. discriminate H'.
Qed.

Lemma loadingOnlyIfValid_deliver w :
  loadingOnlyIfValid w → loadingOnlyIfValid (deliver w).
Proof.
  intros Hw H. rewrite deliver_effectDeps. by apply Hw, deliver_isLoading.
Qed.

Lemma loadingOnlyIfValid_react ev w :
  loadingOnlyIfValid w → loadingOnlyIfValid (react ev w).
Proof.
  intros Hw. apply loadingOnlyIfValid_deliver. destruct ev; simpl.
  - by apply loadingOnlyIfValid_commit.
  - done.
Qed.

Lemma loadingOnlyIfValid_play evs w :
  loadingOnlyIfValid w → loadingOnlyIfValid (play evs w).
Proof.
  unfold play. revert w.
  induction evs as [|ev evs IH]; intros w Hw; simpl; [done|].
  by apply IH, loadingOnlyIfValid_react.
Qed.

(** After the commit of a render with a blank id the flag is down. *)
Lemma react_blank_isLoading providerId w :
  blank providerId = true → loadingOnlyIfValid w →
  isLoading (instance (react (Render providerId) w)) = false.
Proof.
  intros Hblank Hw.
  destruct (isLoading (instance (react (Render providerId) w))) eqn:H; [|done].
  apply deliver_isLoading in H. revert H. simpl. unfold commit.
  rewrite runLoadingEffect_blank by done. case_decide as Hdeps; [|done].
  assert (loadingOnlyIfValid (resubscribe providerId w)) as Hw'.
  { rewrite resubscribe_blank by done. case_decide; [done|].
    unfold loadingOnlyIfValid. simpl.
    by destruct (unsubscribe (instance w)). }
  intros H. destruct (Hw' H) as (p & id & Heq). congruence.
Qed.

Lemma serviceOps_cons ev evs :
  serviceOps (ev :: evs) = serviceOps [ev] ++ serviceOps evs.
Proof. by destruct ev. Qed.

Lemma renderedIds_cons ev evs :
  renderedIds (ev :: evs) = renderedIds [ev] ++ renderedIds evs.
Proof. by destruct ev. Qed.

(** Once down, the flag stays down until a valid id is rendered. *)
Lemma react_keeps_flag_down ev w :
  isLoading (instance w) = false →
  Forall (λ id, blank id = true) (renderedIds [ev]) →
  isLoading (instance (react ev w)) = false.
Proof.
  intros Hw Hev.
  destruct (isLoading (instance (react ev w))) eqn:H; [|done].
  apply deliver_isLoading in H. revert H.
  destruct ev as [id|op]; simpl.
  - apply Forall_cons in Hev as [Hblank _]. unfold commit.
    rewrite runLoadingEffect_blank, resubscribe_blank by done.
    destruct w as [svc [il sd ed u ls] lg]. simpl in *. subst il.
    destruct u; repeat case_decide; simpl; done.
  - by rewrite Hw.
Qed.

Lemma play_keeps_flag_down evs w :
  isLoading (instance w) = false →
  Forall (λ id, blank id = true) (renderedIds evs) →
  isLoading (instance (play evs w)) = false.
Proof.
  revert w. induction evs as [|ev evs IH]; intros w Hw Hevs; [done|].
  rewrite renderedIds_cons in Hevs. apply Forall_app in Hevs as [Hev Hevs].
  change (play (ev :: evs) w) with (play evs (react ev w)).
  apply IH; [|done]. by apply react_keeps_flag_down.
Qed.

(** *** An instance that only ever sees blank ids *)

Lemma react_idle ev w :
  idle w → Forall (λ id, blank id = true) (renderedIds [ev]) →
  idle (react ev w)
  ∧ service (react ev w) = run (serviceOps [ev]) (service w)
  ∧ logger (react ev w) = logger w.
Proof.
  intros (Hl & Hloads & Hu) Hev. unfold react, idle.
  destruct ev as [id|op].
  - apply Forall_cons in Hev as [Hblank _].
    assert (idle (commit id w) ∧ service (commit id w) = service w
            ∧ logger (commit id w) = logger w)
      as ((Hl' & Hloads' & Hu') & Hsvc & Hlog).
    { unfold commit. rewrite runLoadingEffect_blank, resubscribe_blank by done.
      destruct w as [svc [il sd ed u ls] lg]. simpl in *. subst.
      unfold idle. repeat case_decide; simpl; done. }
    destruct (deliver_no_loads _ Hloads')
      as (E1 & E2 & E3 & _ & _ & E4 & E5).
    rewrite E1, E2, E3, E4, E5. done.
  - destruct (deliver_no_loads (with_service (step op) w) Hloads)
      as (E1 & E2 & E3 & _ & _ & E4 & E5).
    rewrite E1, E2, E3, E4, E5. done.
Qed.

Lemma play_idle evs w :
  idle w → Forall (λ id, blank id = true) (renderedIds evs) →
  idle (play evs w)
  ∧ service (play evs w) = run (serviceOps evs) (service w)
  ∧ logger (play evs w) = logger w.
Proof.
  revert w.
  induction evs as [|ev evs IH]; intros w Hw Hevs; [by split_and!|].
  rewrite renderedIds_cons in Hevs. apply Forall_app in Hevs as [Hev Hevs].
  destruct (react_idle ev w Hw Hev) as (Hw' & Hsvc & Hlog).
  destruct (IH _ Hw' Hevs) as (Hidle & Hsvc' & Hlog').
  change (play (ev :: evs) w) with (play evs (react ev w)).
  split; [done|]. split; [|congruence].
  by rewrite Hsvc', Hsvc, (serviceOps_cons ev evs), run_app.
Qed.

(** *** Loading an absent entity *)

Lemma outcome_in_fresh k l :
  (∀ k' o, (k', o) ∈ l → k' < k) → outcome_in k l = None.
Proof.
  induction l as [|[k' o] l IH]; intros Hl; simpl; [done|].
  case_decide as Hk.
  - subst k'. specialize (Hl k o (list_elem_of_here _ _)). lia.
  - apply IH. intros k'' o' Hin. eapply Hl. by right.
Qed.

Lemma outcome_in_snoc k o l :
  outcome_in k l = None → outcome_in k (l ++ [(k, o)]) = Some o.
Proof.
  induction l as [|[k' o'] l IH]; simpl.
  - intros _. by case_decide.
  - case_decide; [done|]. apply IH.
Qed.

(** A promise just created has no outcome yet. *)
Lemma outcome_fresh s : wf s → outcome (nextPromise (gateway s)) s = None.
Proof.
  intros [_ (_ & _ & _ & Hsettled & _)]. apply outcome_in_fresh, Hsettled.
Qed.

Lemma getProvider_absent id s :
  get id (store s) = None →
  getProvider id s
  = (nextPromise (gateway s),
     await (nextPromise (gateway s)) (AwaitFetch id)
       (issue (fetchEntity id) (promise s).2)).
Proof. intros Hget. unfold getProvider. simpl. by rewrite Hget. Qed.

Lemma filter_none {A} (P : A → Prop) `{∀ x, Decision (P x)} (l : list A) :
  Forall (λ x, ¬ P x) l → filter P l = [].
Proof.
  induction 1 as [|x l Hx _ IH]; [done|]. by rewrite filter_cons_False.
Qed.

Lemma filter_all {A} (P : A → Prop) `{∀ x, Decision (P x)} (l : list A) :
  Forall P l → filter P l = l.
Proof.
  induction 1 as [|x l Hx _ IH]; [done|]. rewrite filter_cons_True by done.
  by rewrite IH.
Qed.

(** While every awaited promise is pending, no handler runs. *)
Lemma deliver_pending w :
  Forall (λ l, outcome l.1 (service w) = None) (loads (instance w)) →
  deliver w = same w.
Proof.
  intros Hl. unfold deliver. cbv zeta.
  rewrite (filter_none (λ l, is_Some (outcome l.1 (service w)))).
  - unfold with_instance, same. simpl.
    rewrite (filter_all (λ l, ¬ is_Some (outcome l.1 (service w)))); [done|].
    eapply Forall_impl; [done|]. simpl. intros l -> [? ?]. done.
  - eapply Forall_impl; [done|]. simpl. intros l -> [? ?]. done.
Qed.

(** When the one awaited promise settles, its handler runs. *)
Lemma deliver_settled w k id o :
  loads (instance w) = [(k, id)] → outcome k (service w) = Some o →
  deliver w
  = with_instance
      (λ i, {| isLoading := isLoading i; storeDeps := storeDeps i;
               effectDeps := effectDeps i; unsubscribe := unsubscribe i;
               loads := [] |})
      (loadSettled id o w).
Proof.
  intros Hl Ho. unfold deliver. cbv zeta. rewrite Hl.
  rewrite (filter_all (λ l, is_Some (outcome l.1 (service w)))).
  - simpl. rewrite Ho. unfold with_instance. simpl.
    assert (filter (λ l, ¬ is_Some (outcome l.1 (service w)))
              (loads (instance (loadSettled id o w))) = []) as ->; [|done].
    assert (loads (instance (loadSettled id o w)) = [(k, id)]) as ->
      by by destruct o.
    apply filter_none. constructor; [|done]. simpl. rewrite Ho.
    intros Hn. by apply Hn.
  - constructor; [|done]. simpl. by rewrite Ho.
Qed.

Lemma commit_mount_absent svc log id :
  isValidId id = true → get id (store svc) = None →
  commit id (mount svc log) = loadingWorld svc log id.
Proof.
  intros Hvalid Hget.
  unfold commit, resubscribe, runLoadingEffect, loadingEffect,
    useProvider_subscribe, useProvider_getSnapshot.
  rewrite Hvalid. simpl. rewrite Hget. simpl.
  unfold loadingWorld. by rewrite !(getProvider_absent id) by exact Hget.
Qed.

Lemma mount_render_absent svc log id :
  wf svc → isValidId id = true → get id (store svc) = None →
  react (Render id) (mount svc log) = loadingWorld svc log id.
Proof.
  intros Hwf Hvalid Hget. unfold react.
  rewrite commit_mount_absent by done.
  rewrite deliver_pending; [done|].
  constructor; [|done]. simpl.
  rewrite (getProvider_absent id) by done. apply (outcome_fresh svc Hwf).
Qed.

Lemma loading_fails svc log id r :
  wf svc → get id (store svc) = None → rejects r = true →
  react (Use (OpReply (nextPromise (gateway svc)) r)) (loadingWorld svc log id)
  = failedWorld svc log id r.
Proof.
  intros Hwf Hget Hr. unfold react.
  assert (step (OpReply (nextPromise (gateway svc)) r)
            (service (loadingWorld svc log id))
          = settle (nextPromise (gateway svc)) (Rejected (failure_of r))
              (service (loadingWorld svc log id))) as Hstep.
  { simpl. rewrite (getProvider_absent id) by done. unfold reply. simpl.
    rewrite lookup_insert_eq. by destruct r. }
  set (k := nextPromise (gateway svc)) in *.
  set (w := with_service (step (OpReply k r)) (loadingWorld svc log id)).
  assert (service w = settle k (Rejected (failure_of r))
                        (service (loadingWorld svc log id))) as Hsvc.
  { unfold w. cbn [service with_service]. exact Hstep. }
  rewrite (deliver_settled w k id (Rejected (failure_of r))).
  - unfold failedWorld. fold k. rewrite <- Hsvc.
    unfold loadSettled, setIsLoading, ProviderHooks.log, with_instance.
    cbn [service instance logger isLoading storeDeps effectDeps unsubscribe].
    unfold w, loadingWorld. cbn. by rewrite <- app_assoc.
  - done.
  - rewrite Hsvc. unfold outcome. simpl.
    rewrite (getProvider_absent id) by exact Hget. simpl.
    apply outcome_in_snoc, (outcome_fresh svc Hwf).
Qed.

Lemma failedWorld_service svc log id r :
  get id (store svc) = None → rejects r = true →
  service (failedWorld svc log id r)
  = run [OpSubscribe id storeChanged; OpGetProvider id;
         OpReply (nextPromise (gateway svc)) r] svc.
Proof.
  intros Hget Hr. unfold run. simpl.
  rewrite (getProvider_absent id) by exact Hget. unfold reply. simpl.
  rewrite lookup_insert_eq. by destruct r.
Qed.

(** A render of the same instance after the failure changes nothing: the
    effect's dependencies are what they were. *)
Lemma rerender_after_failure svc log id r :
  wf svc → isValidId id = true → get id (store svc) = None →
  rejects r = true →
  react (Render id) (failedWorld svc log id r) = failedWorld svc log id r.
Proof.
  intros Hwf Hvalid Hget Hr. unfold react, commit.
  assert (resubscribe id (failedWorld svc log id r) = failedWorld svc log id r)
    as ->.
  { unfold resubscribe. rewrite Hvalid. simpl. by case_decide. }
  assert (runLoadingEffect id (failedWorld svc log id r)
          = failedWorld svc log id r) as ->.
  { unfold runLoadingEffect, useProvider_getSnapshot. rewrite Hvalid. simpl.
    rewrite (getProvider_absent id) by exact Hget. simpl.
    unfold get in *. simpl. destruct (cache (store svc) !! id); [done|].
    simpl. by repeat case_decide. }
  by rewrite deliver_pending.
Qed.

(** C5: the loading state machine of [useProvider], for a valid id absent
    from the cache of any reachable service state.  Mounting the hook enters
    Loading ([isLoading = true], one [fetchEntity] requested).  When the
    gateway fails that load, the cache is what it was (still absent for the
    id: nothing about the error is stored), the promise is rejected with the
    typed failure, the hook's [catch] logs it and the hook reports
    [provider = null, isLoading = false].  The next request for the entity
    (the hook mounted again) enters Loading again and asks the gateway a
    second time. *)
Theorem failed_load_is_surfaced_not_cached_and_retried
    (ops : list Op) (log : list LogEntry) (providerId : js_string)
    (r : Reply) :
  let svc := run ops initial in
  isValidId providerId = true →
  get providerId (store svc) = None →
  rejects r = true →
  let k := nextPromise (gateway svc) in
  let loading := react (Render providerId) (mount svc log) in
  let failed := react (Use (OpReply k r)) loading in
  let again :=
    react (Render providerId) (mount (service failed) (logger failed)) in
  useProvider providerId loading
  = {| provider := None; result_isLoading := true |}
  ∧ calls (gateway (service loading))
    = calls (gateway svc) ++ [fetchEntity providerId]
  ∧ store (service failed) = store svc
  ∧ get providerId (store (service failed)) = None
  ∧ useProvider providerId failed
    = {| provider := None; result_isLoading := false |}
  ∧ outcome k (service failed) = Some (Rejected (failure_of r))
  ∧ logger failed
    = log ++ [verbose_subscribing providerId;
              error_failed_to_load providerId (failure_of r)]
  ∧ useProvider providerId again
    = {| provider := None; result_isLoading := true |}
  ∧ calls (gateway (service again))
    = calls (gateway svc) ++ [fetchEntity providerId; fetchEntity providerId].
Proof.
  intros svc Hvalid Hget Hr k loading failed again.
  assert (wf svc) as Hwf by apply wf_run, wf_initial.
  assert (loading = loadingWorld svc log providerId) as Hloading
    by by apply mount_render_absent.
  assert (failed = failedWorld svc log providerId r) as Hfailed.
  { unfold failed. rewrite Hloading. by apply loading_fails. }
  assert (store (service failed) = store svc) as Hstore.
  { rewrite Hfailed. simpl.
    by rewrite (getProvider_absent providerId) by exact Hget. }
  assert (get providerId (store (service failed)) = None) as Hget'
    by by rewrite Hstore.
  assert (wf (service failed)) as Hwf'.
  { rewrite Hfailed, failedWorld_service by done. by apply wf_run. }
  assert (again = loadingWorld (service failed) (logger failed) providerId)
    as Hagain by by apply mount_render_absent.
  assert (calls (gateway (service failed))
          = calls (gateway svc) ++ [fetchEntity providerId]) as Hcalls.
  { rewrite Hfailed. simpl.
    by rewrite (getProvider_absent providerId) by exact Hget. }
  assert (∀ w, get providerId (store (service w)) = None →
               useProvider providerId w
               = {| provider := None;
                    result_isLoading := isLoading (instance w) |}) as Hresult.
  { intros w Hw. unfold useProvider, useProvider_getSnapshot.
    by rewrite Hvalid, Hw. }
  clearbody loading failed again.
  split_and!.
  - rewrite Hresult; [by rewrite Hloading|].
    rewrite Hloading. simpl.
    by rewrite (getProvider_absent providerId) by exact Hget.
  - rewrite Hloading. simpl.
    by rewrite (getProvider_absent providerId) by exact Hget.
  - done.
  - done.
  - rewrite Hresult by done. by rewrite Hfailed.
  - rewrite Hfailed. unfold outcome. simpl.
    rewrite (getProvider_absent providerId) by exact Hget. simpl.
    apply outcome_in_snoc, (outcome_fresh svc Hwf).
  - by rewrite Hfailed.
  - rewrite Hresult; [by rewrite Hagain|].
    rewrite Hagain. simpl.
    by rewrite (getProvider_absent providerId) by exact Hget'.
  - rewrite Hagain. simpl.
    rewrite (getProvider_absent providerId) by exact Hget'. simpl.
    by rewrite Hcalls, <- app_assoc.
Qed.

Lemma failed_load_is_surfaced_not_cached_and_retried_witness :
  let svc := run [OpSubscribeDefault (mkCallback 1 [])] initial in
  let r := Failed "database is locked" in
  let k := nextPromise (gateway svc) in
  let loading := react (Render p1) (mount svc []) in
  let failed := react (Use (OpReply k r)) loading in
  let again := react (Render p1) (mount (service failed) (logger failed)) in
  isValidId p1 = true
  ∧ get p1 (store svc) = None
  ∧ rejects r = true
  ∧ useProvider p1 loading = {| provider := None; result_isLoading := true |}
  ∧ calls (gateway (service loading)) = calls (gateway svc) ++ [fetchEntity p1]
  ∧ store (service failed) = store svc
  ∧ get p1 (store (service failed)) = None
  ∧ useProvider p1 failed = {| provider := None; result_isLoading := false |}
  ∧ outcome k (service failed) = Some (Rejected (failure_of r))
  ∧ logger failed
    = [] ++ [verbose_subscribing p1; error_failed_to_load p1 (failure_of r)]
  ∧ useProvider p1 again = {| provider := None; result_isLoading := true |}
  ∧ calls (gateway (service again))
    = calls (gateway svc) ++ [fetchEntity p1; fetchEntity p1].
Proof.
  split; [reflexivity|]. split; [reflexivity|]. split; [reflexivity|].
  apply (failed_load_is_surfaced_not_cached_and_retried
           [OpSubscribeDefault (mkCallback 1 [])] [] p1
           (Failed "database is locked")); reflexivity.
Defined.

(** C9, as amended: for a [providerId] that is empty or whitespace only, at
    any point of any history of a mounted [useProvider] (renders with any
    ids, any use of the service): the snapshot is [null]; [subscribe] returns
    the no-op unsubscribe and registers nothing; the commit of a render with
    that id registers no callback and requests nothing of the gateway (cache
    and gateway state are untouched, registrations can only have been
    released); after that commit the hook returns [provider = null,
    isLoading = false], and keeps doing so whatever happens to the service
    and however often it is rendered with such ids; and an instance that has only ever been rendered with
    such ids returns [provider = null, isLoading = false] on every render and
    leaves the service exactly as its other users made it. *)
Theorem useProvider_blank_id_is_inert
    (svc : Service) (log : list LogEntry) (evs later : list Event)
    (providerId : js_string) (callback : Callback) :
  blank providerId = true →
  let w := play evs (mount svc log) in
  let w' := react (Render providerId) w in
  provider (useProvider providerId w) = None
  ∧ useProvider_subscribe providerId callback w = (NoOp, w)
  ∧ call NoOp w = w
  ∧ nextHandle (registry (service w')) = nextHandle (registry (service w))
  ∧ (∀ id, subscribers id (registry (service w'))
           `sublist_of` subscribers id (registry (service w)))
  ∧ gateway (service w') = gateway (service w)
  ∧ store (service w') = store (service w)
  ∧ (Forall (λ id, blank id = true) (renderedIds later) →
     useProvider providerId (play later w')
     = {| provider := None; result_isLoading := false |})
  ∧ (Forall (λ id, blank id = true) (renderedIds evs) →
     useProvider providerId w
     = {| provider := None; result_isLoading := false |}
     ∧ service w = run (serviceOps evs) svc).
Proof.
  intros Hblank w w'.
  assert (loadingOnlyIfValid w) as Hw
    by apply loadingOnlyIfValid_play, loadingOnlyIfValid_mount.
  destruct (commit_blank providerId Hblank w) as (Hst & Hgw & Hrg & _ & _).
  destruct Hrg as (Hnext & Hsubs & _).
  split_and!.
  - by rewrite useProvider_blank.
  - by apply subscribe_blank.
  - done.
  - unfold w', react. by rewrite deliver_service.
  - intros id. unfold w', react. rewrite deliver_service. apply Hsubs.
  - unfold w', react. by rewrite deliver_service.
  - unfold w', react. by rewrite deliver_service.
  - intros Hlater. rewrite useProvider_blank by done.
    rewrite play_keeps_flag_down; [done| |done]. unfold w'.
    by apply react_blank_isLoading.
  - intros Hevs.
    destruct (play_idle evs (mount svc log)) as ((Hl & _) & Hsvc & _); [done..|].
    rewrite useProvider_blank by done. fold w in Hl, Hsvc. by rewrite Hl.
Qed.

Lemma useProvider_blank_id_is_inert_witness :
  let svc := run [OpPut p1 (mkProvider p1 "Provider 1" true) false] initial in
  let evs := [Render p1; Use (OpUpdate p1 (mkUpdates (Some "One") None));
              Render (of_ascii "  ")] in
  let later := [Use (OpReply 1 (Failed "offline")); Render []] in
  let providerId := of_ascii " " in
  let w := play evs (mount svc []) in
  let w' := react (Render providerId) w in
  blank providerId = true
  ∧ provider (useProvider providerId w) = None
  ∧ useProvider_subscribe providerId storeChanged w = (NoOp, w)
  ∧ call NoOp w = w
  ∧ nextHandle (registry (service w')) = nextHandle (registry (service w))
  ∧ (∀ id, subscribers id (registry (service w'))
           `sublist_of` subscribers id (registry (service w)))
  ∧ gateway (service w') = gateway (service w)
  ∧ store (service w') = store (service w)
  ∧ (Forall (λ id, blank id = true) (renderedIds later) →
     useProvider providerId (play later w')
     = {| provider := None; result_isLoading := false |})
  ∧ (Forall (λ id, blank id = true) (renderedIds evs) →
     useProvider providerId w
     = {| provider := None; result_isLoading := false |}
     ∧ service w = run (serviceOps evs) svc).
Proof.
  split; [reflexivity|].
  apply (useProvider_blank_id_is_inert
           (run [OpPut p1 (mkProvider p1 "Provider 1" true) false] initial) []
           [Render p1; Use (OpUpdate p1 (mkUpdates (Some "One") None));
            Render (of_ascii "  ")]
           [Use (OpReply 1 (Failed "offline")); Render []]
           (of_ascii " ") storeChanged).
  reflexivity.
Defined.

(** The claim C9 as stated fails on one render: when [providerId] changes
    from a valid id that is still loading to the empty string, the render
    with the empty string still returns [isLoading = true]; the loading
    effect clears the flag after that render. *)
Lemma useProvider_blank_id_reports_loading_once :
  let w := play [Render p1] (mount initial []) in
  blank [] = true
  ∧ useProvider [] w = {| provider := None; result_isLoading := true |}
  ∧ useProvider [] (react (Render []) w)
    = {| provider := None; result_isLoading := false |}.
Proof. by vm_compute. Qed.

End ProviderHooksFacts.

(** ** More on the preference tables *)

Module PreferenceMore.
Import Preference PreferenceFacts.

(** X1: every key [PreferenceSchemas['default']] declares has, in
    [DefaultPreferences.default], a value of the declared type and, in
    [PreferenceDescriptions], a description that is not the empty string. *)
Theorem defaults_have_declared_types_and_descriptions :
  Forall (λ kt, (∃ v, get DefaultPreferences kt.1 = Some v
                      ∧ has_type v kt.2 = true)
                ∧ (∃ d, get PreferenceDescriptions kt.1 = Some d ∧ d ≠ ""))
         PreferenceSchemas.
Proof.
  repeat constructor; try (eexists; split; [reflexivity|done]).
Qed.

End PreferenceMore.

(** ** More on [useAllProviders] *)

Module AllProvidersMore.
Import Js Types AllProviders AllProvidersFacts Samples.

(** X2: the comparator passed to [sort] is consistent: a provider compares
    equal to itself, swapping the arguments negates the result, [<= 0] and
    [= 0] are transitive, and two providers compare equal exactly when their
    [enabled] flags agree. *)
Theorem compareEnabled_is_consistent (a b c : Provider) :
  compareEnabled a a = 0%Z
  ∧ compareEnabled a b = (- compareEnabled b a)%Z
  ∧ ((compareEnabled a b ≤ 0)%Z → (compareEnabled b c ≤ 0)%Z →
     (compareEnabled a c ≤ 0)%Z)
  ∧ (compareEnabled a b = 0%Z → compareEnabled b c = 0%Z →
     compareEnabled a c = 0%Z)
  ∧ (compareEnabled a b = 0%Z ↔ enabled a = enabled b).
Proof.
  unfold compareEnabled.
  destruct (enabled a), (enabled b), (enabled c); simpl;
    split_and!; try done; try lia; split; done.
Qed.

Lemma enabled_first_tail x l : enabled_first (x :: l) → enabled_first l.
Proof.
  intros H i j a b Hi Hj Ha Hb.
  specialize (H (S i) (S j) a b Hi Hj Ha Hb). lia.
Qed.

Lemma enabled_first_disabled_head x l :
  enabled_first (x :: l) → enabled x = false → Forall is_disabled l.
Proof.
  intros H Hx. apply Forall_lookup. intros j y Hj. simpl.
  destruct (enabled y) eqn:Hy; [|done].
  specialize (H (S j) 0 y x Hj eq_refl Hy Hx). lia.
Qed.

Lemma filter_enabled_of_disabled l :
  Forall is_disabled l →
  filter is_enabled l = [] ∧ filter is_disabled l = l.
Proof.
  induction 1 as [|y l Hy _ [IH1 IH2]]; [done|]. simpl in Hy.
  rewrite (filter_cons_False is_enabled) by (simpl; congruence).
  rewrite (filter_cons_True is_disabled) by done. by rewrite IH2.
Qed.

(** X3: sorting leaves an enabled-first list as it is: when no disabled
    provider precedes an enabled one, [sort] with the hook's comparator
    returns the list unchanged. *)
Theorem Array_sort_keeps_enabled_first_list (l : list Provider) :
  enabled_first l → Array_sort compareEnabled l = l.
Proof.
  rewrite Array_sort_compareEnabled.
  induction l as [|x l IH]; intros Hl; [done|].
  destruct (enabled x) eqn:Hx.
  - rewrite (filter_cons_True is_enabled) by done.
    rewrite (filter_cons_False is_disabled) by (simpl; congruence).
    simpl. f_equal. apply IH. by eapply enabled_first_tail.
  - destruct (filter_enabled_of_disabled l) as [E1 E2].
    { by eapply enabled_first_disabled_head. }
    rewrite (filter_cons_False is_enabled) by (simpl; congruence).
    rewrite (filter_cons_True is_disabled) by done.
    by rewrite E1, E2.
Qed.

Lemma Array_sort_keeps_enabled_first_list_witness :
  let l := [ mkProvider p1 "A" true; mkProvider p1 "B" true;
             mkProvider p1 "C" false ] in
  enabled_first l ∧ Array_sort compareEnabled l = l.
Proof.
  assert (enabled_first [ mkProvider p1 "A" true; mkProvider p1 "B" true;
                          mkProvider p1 "C" false ]) as Hl.
  { intros [|[|[|i]]] [|[|[|j]]] a b Hi Hj Ha Hb; simpl in *;
      simplify_eq; simpl in *; try done; try lia. }
  split; [exact Hl|].
  exact (Array_sort_keeps_enabled_first_list _ Hl).
Defined.

(** X4: the sort is a stable partition: [useAllProviders] returns the
    enabled providers in the order of their rows, followed by the disabled
    ones in the order of their rows. *)
Theorem useAllProviders_keeps_row_order
    {Row : Type} (transformDbToProvider : Row → Provider)
    (query : LiveQuery Row) :
  delivered_together query →
  providers (useAllProviders transformDbToProvider query)
  = filter (λ p, enabled p = true) (map transformDbToProvider (rows query))
    ++ filter (λ p, enabled p = false) (map transformDbToProvider (rows query)).
Proof.
  intros Hq.
  destruct (rows query) as [|r rest] eqn:Hrows.
  - by rewrite useAllProviders_loading by auto.
  - destruct (updatedAt query) as [t|] eqn:Ht; [|by rewrite Hq in Hrows].
    rewrite <- Hrows.
    rewrite useAllProviders_ready by (by rewrite ?Ht, ?Hrows). simpl.
    unfold processedProviders.
    destruct (noRows (data query)) eqn:Hno.
    { apply noRows_rows in Hno. congruence. }
    apply Array_sort_compareEnabled.
Qed.

Lemma useAllProviders_keeps_row_order_witness :
  let query := mkLiveQuery (Some sample_rows) (Some 1) in
  delivered_together query
  ∧ providers (useAllProviders (λ p, p) query)
    = filter (λ p, enabled p = true) (map (λ p, p) (rows query))
      ++ filter (λ p, enabled p = false) (map (λ p, p) (rows query)).
Proof.
  split.
  - intros Hnone. discriminate Hnone.
  - apply (useAllProviders_keeps_row_order
             (λ p, p) (mkLiveQuery (Some sample_rows) (Some 1))).
    intros Hnone. discriminate Hnone.
Defined.

(** X5: [useAllProviders] reports [isLoading = false] exactly when the query
    has an [updatedAt] and at least one row; it then returns as many
    providers as there are rows, and while it reports loading it returns no
    provider. *)
Theorem useAllProviders_loads_iff_rows_delivered
    {Row : Type} (transformDbToProvider : Row → Provider)
    (query : LiveQuery Row) :
  (isLoading (useAllProviders transformDbToProvider query) = false
   ↔ is_Some (updatedAt query) ∧ rows query ≠ [])
  ∧ (isLoading (useAllProviders transformDbToProvider query) = false →
     length (providers (useAllProviders transformDbToProvider query))
     = length (rows query))
  ∧ (isLoading (useAllProviders transformDbToProvider query) = true →
     providers (useAllProviders transformDbToProvider query) = []).
Proof.
  assert (isLoading (useAllProviders transformDbToProvider query) = false
          ↔ is_Some (updatedAt query) ∧ rows query ≠ []) as Hiff.
  { split.
    - intros H. destruct (updatedAt query) as [t|] eqn:Ht.
      + split; [eauto|]. intros Hrows.
        rewrite useAllProviders_loading in H by auto. done.
      + rewrite useAllProviders_loading in H by auto. done.
    - intros [Ht Hrows]. by rewrite useAllProviders_ready. }
  split_and!; [done| |].
  - intros H. apply Hiff in H as [Ht Hrows].
    rewrite useAllProviders_ready by done. simpl.
    rewrite (Permutation_length (processedProviders_Permutation _ query)).
    apply length_map.
  - intros H.
    destruct (updatedAt query) as [t|] eqn:Ht;
      [|by rewrite useAllProviders_loading by auto].
    destruct (rows query) as [|r rest] eqn:Hrows;
      [by rewrite useAllProviders_loading by auto|].
    rewrite useAllProviders_ready in H; [done|by rewrite Ht|by rewrite Hrows].
Qed.

End AllProvidersMore.

(** ** More on [pauseMessages], and [useTopicLoading] *)

Module MessageOperationMore.
Import Js MessageOperation MessageOperationFacts TopicLoading.

(** X6: when the topic's messages are found, [pauseMessages] does nothing
    but [updateTopic(topic.id, { isLoading: false })] exactly when no
    streaming message carries a non-empty [askId]. *)
Theorem pauseMessages_only_updates_topic_when_nothing_streams
    (getMessagesByTopicId : string → option (list Message)) (topic : Topic)
    (topicMessages : list Message) :
  getMessagesByTopicId (topic_id topic) = Some topicMessages →
  (pauseMessages getMessagesByTopicId topic
   = [updateTopic (topic_id topic) false]
   ↔ ∀ m, m ∈ topicMessages →
          status m = "processing" ∨ status m = "pending" →
          askId m = None ∨ askId m = Some "").
Proof.
  intros Hget. unfold pauseMessages. rewrite Hget.
  split.
  - intros H m Hm Hs.
    destruct (askIds topicMessages) as [|a ids] eqn:Hids; [|done].
    destruct (askId m) as [a|] eqn:Ha; [|by left]. right. f_equal.
    destruct (decide (a = "")) as [->|Hne]; [done|].
    assert (a ∈ askIds topicMessages) as Hin by (apply askIds_elem; eauto).
    rewrite Hids in Hin. by apply elem_of_nil in Hin.
  - intros H.
    destruct (askIds topicMessages) as [|a ids] eqn:Hids; [done|].
    assert (a ∈ askIds topicMessages) as Hin by (rewrite Hids; left).
    apply askIds_elem in Hin as (Hne & m & Hm & Hs & Ha).
    destruct (H m Hm Hs) as [Hn|Hn]; congruence.
Qed.

Lemma pauseMessages_only_updates_topic_when_nothing_streams_witness :
  let topic := mkTopic "t1" true in
  let msgs := [ mkMessage "m1" "success" (Some "ask-1");
                mkMessage "m2" "pending" None;
                mkMessage "m3" "processing" (Some "") ] in
  let db := λ _ : string, Some msgs in
  db (topic_id topic) = Some msgs
  ∧ (pauseMessages db topic = [updateTopic (topic_id topic) false]
     ↔ ∀ m, m ∈ msgs →
            status m = "processing" ∨ status m = "pending" →
            askId m = None ∨ askId m = Some "").
Proof.
  split; [reflexivity|].
  apply (pauseMessages_only_updates_topic_when_nothing_streams
           (λ _ : string, Some [ mkMessage "m1" "success" (Some "ask-1");
                                 mkMessage "m2" "pending" None;
                                 mkMessage "m3" "processing" (Some "") ])
           (mkTopic "t1" true)).
  reflexivity.
Defined.

(** X7: [useTopicLoading] is [true] exactly when the topic query has
    finished, found the topic, and the topic's [isLoading] is set. *)
Theorem useTopicLoading_true_iff
    (useTopic : string → UseTopic) (topicId : string) :
  useTopicLoading useTopic topicId = true
  ↔ isLoading (useTopic topicId) = false
    ∧ ∃ t, topic (useTopic topicId) = Some t ∧ topic_isLoading t = true.
Proof.
  unfold useTopicLoading.
  destruct (useTopic topicId) as [[t|] loading]; simpl.
  - destruct loading; simpl.
    + split; [done|]. by intros [? _].
    + rewrite orb_false_r. split; [eauto|]. by intros (_ & t' & [= <-] & ?).
  - rewrite orb_true_r. split; [done|]. by intros (_ & t' & ? & _).
Qed.

End MessageOperationMore.

(** ** More on [useProvider] *)

Module UseProviderMore.
Import Js Types ProviderService ProviderHooks HookSubscriptions Samples.
Import JsFacts ProviderServiceFacts ProviderHooksFacts.

(** X8: [isValidId] holds exactly for the ids with a code unit that is not
    white space. *)
Theorem isValidId_iff_some_visible_character (providerId : js_string) :
  isValidId providerId = true
  ↔ ∃ u, u ∈ providerId ∧ isWhiteSpace u = false.
Proof.
  rewrite isValidId_blank, negb_true_iff. unfold blank.
  induction providerId as [|u rest IH]; simpl.
  - split; [done|]. by intros (u & ?%elem_of_nil & _).
  - destruct (isWhiteSpace u) eqn:Hu; simpl.
    + rewrite IH. split.
      * intros (u' & Hin & Hu'). exists u'. split; [by right|done].
      * intros (u' & [->|Hin]%elem_of_cons & Hu'); [congruence|eauto].
    + split; [|done]. intros _. exists u. split; [by left|done].
Qed.

(** *** What a commit leaves alone *)

Lemma getProvider_store id s : store (getProvider id s).2 = store s.
Proof. unfold getProvider. simpl. by destruct (get id (store s)). Qed.

Lemma getProvider_registry id s : registry (getProvider id s).2 = registry s.
Proof. unfold getProvider. simpl. by destruct (get id (store s)). Qed.

Lemma loadingEffect_frame id p w :
  store (service (loadingEffect id p w)) = store (service w)
  ∧ registry (service (loadingEffect id p w)) = registry (service w)
  ∧ storeDeps (instance (loadingEffect id p w)) = storeDeps (instance w)
  ∧ effectDeps (instance (loadingEffect id p w)) = effectDeps (instance w)
  ∧ unsubscribe (instance (loadingEffect id p w)) = unsubscribe (instance w)
  ∧ logger (loadingEffect id p w) = logger w.
Proof.
  unfold loadingEffect. destruct (negb (isValidId id)); [done|].
  destruct p; [done|].
  pose proof (getProvider_store id (service (setIsLoading true w))) as Hs.
  pose proof (getProvider_registry id (service (setIsLoading true w))) as Hr.
  destruct (getProvider id (service (setIsLoading true w))) as [k svc].
  simpl in *. by rewrite Hs, Hr.
Qed.

Lemma runLoadingEffect_frame id w :
  store (service (runLoadingEffect id w)) = store (service w)
  ∧ registry (service (runLoadingEffect id w)) = registry (service w)
  ∧ storeDeps (instance (runLoadingEffect id w)) = storeDeps (instance w)
  ∧ unsubscribe (instance (runLoadingEffect id w)) = unsubscribe (instance w)
  ∧ logger (runLoadingEffect id w) = logger w
  ∧ effectDeps (instance (runLoadingEffect id w))
    = Some (addr <$> useProvider_getSnapshot id (service w), id, isValidId id).
Proof.
  unfold runLoadingEffect. case_decide as Hdeps; [by split_and!|].
  match goal with |- context [loadingEffect id ?p ?w'] =>
    destruct (loadingEffect_frame id p w') as (E1 & E2 & E3 & E4 & E5 & E6) end.
  rewrite E1, E2, E3, E4, E5, E6. done.
Qed.

Lemma subscribe_frame id cb w :
  store (service (useProvider_subscribe id cb w).2) = store (service w)
  ∧ gateway (service (useProvider_subscribe id cb w).2) = gateway (service w)
  ∧ instance (useProvider_subscribe id cb w).2 = instance w.
Proof.
  unfold useProvider_subscribe. by destruct (negb (isValidId id)).
Qed.

Lemma call_frame u w :
  store (service (call u w)) = store (service w)
  ∧ gateway (service (call u w)) = gateway (service w)
  ∧ instance (call u w) = instance w
  ∧ logger (call u w) = logger w.
Proof. by destruct u. Qed.

Lemma resubscribe_frame id w :
  store (service (resubscribe id w)) = store (service w)
  ∧ gateway (service (resubscribe id w)) = gateway (service w)
  ∧ isLoading (instance (resubscribe id w)) = isLoading (instance w)
  ∧ effectDeps (instance (resubscribe id w)) = effectDeps (instance w)
  ∧ loads (instance (resubscribe id w)) = loads (instance w)
  ∧ storeDeps (instance (resubscribe id w)) = Some (id, isValidId id).
Proof.
  unfold resubscribe. case_decide as Hdeps; [by split_and!|].
  destruct (call_frame (unsubscribe (instance w)) w) as (C1 & C2 & C3 & _).
  destruct (subscribe_frame id storeChanged (call (unsubscribe (instance w)) w))
    as (S1 & S2 & S3).
  destruct (useProvider_subscribe id storeChanged _) as [u w'].
  simpl in *. rewrite S1, S2, S3, C1, C2, C3. done.
Qed.

Lemma loadSettled_frame id o w :
  storeDeps (instance (loadSettled id o w)) = storeDeps (instance w)
  ∧ unsubscribe (instance (loadSettled id o w)) = unsubscribe (instance w)
  ∧ loads (instance (loadSettled id o w)) = loads (instance w).
Proof. by destruct o. Qed.

Lemma loadSettled_all_frame svc due w :
  let w' := foldl (λ w l, loadSettled l.2 (default Resolved (outcome l.1 svc)) w)
              w due in
  storeDeps (instance w') = storeDeps (instance w)
  ∧ unsubscribe (instance w') = unsubscribe (instance w)
  ∧ loads (instance w') = loads (instance w).
Proof.
  revert w. induction due as [|l due IH]; intros w; simpl; [done|].
  destruct (IH (loadSettled l.2 (default Resolved (outcome l.1 svc)) w))
    as (E1 & E2 & E3).
  destruct (loadSettled_frame l.2 (default Resolved (outcome l.1 svc)) w)
    as (F1 & F2 & F3).
  simpl in *. rewrite E1, E2, E3, F1, F2, F3. done.
Qed.

Lemma deliver_frame w :
  storeDeps (instance (deliver w)) = storeDeps (instance w)
  ∧ unsubscribe (instance (deliver w)) = unsubscribe (instance w)
  ∧ loads (instance (deliver w))
    = filter (λ l, ¬ is_Some (outcome l.1 (service w))) (loads (instance w)).
Proof.
  unfold deliver. cbv zeta.
  match goal with |- context [foldl ?f w ?due] =>
    destruct (loadSettled_all_frame (service w) due w) as (E1 & E2 & E3) end.
  simpl in *. unfold with_instance. simpl. rewrite E1, E2, E3. done.
Qed.

(** Handlers run once: delivering again changes nothing. *)
Lemma deliver_idempotent w : deliver (deliver w) = deliver w.
Proof.
  rewrite (deliver_pending (deliver w)); [done|].
  destruct (deliver_frame w) as (_ & _ & ->). rewrite deliver_service.
  apply Forall_forall. intros l [Hl _]%list_elem_of_filter.
  destruct (outcome l.1 (service w)); [|done]. destruct Hl. eauto.
Qed.

(** X9: rendering [useProvider] again with the same id, with nothing
    happening in between, changes nothing: no second subscription, no second
    load, no state change. *)
Theorem useProvider_render_is_idempotent (providerId : js_string) (w : World) :
  react (Render providerId) (react (Render providerId) w)
  = react (Render providerId) w.
Proof.
  unfold react at 1. set (w1 := react (Render providerId) w).
  assert (commit providerId w1 = w1) as ->; [|apply deliver_idempotent].
  set (r := resubscribe providerId w).
  destruct (resubscribe_frame providerId w) as (_ & _ & _ & _ & _ & Rdeps).
  destruct (runLoadingEffect_frame providerId r) as (Est & _ & Esd & _ & _ & Eed).
  fold r in Rdeps.
  assert (service w1 = service (runLoadingEffect providerId r)) as Hsvc
    by apply deliver_service.
  assert (storeDeps (instance w1) = Some (providerId, isValidId providerId))
    as Hsd.
  { unfold w1, react. destruct (deliver_frame (commit providerId w)) as (-> & _).
    unfold commit. fold r. by rewrite Esd. }
  assert (effectDeps (instance w1)
          = Some (addr <$> useProvider_getSnapshot providerId (service w1),
                  providerId, isValidId providerId)) as Hed.
  { unfold w1, react at 1. rewrite deliver_effectDeps. unfold commit. fold r.
    rewrite Eed. do 3 f_equal.
    unfold useProvider_getSnapshot, get. fold w1. by rewrite Hsvc, Est. }
  unfold commit.
  assert (resubscribe providerId w1 = w1) as ->.
  { unfold resubscribe. by rewrite decide_True. }
  unfold runLoadingEffect. by rewrite decide_True.
Qed.


(** Rendering an id whose entity is cached: the effect stops at its
    [else] branch, so the service is the one the subscription left. *)
Lemma render_cached (providerId : js_string) (v : Ref) (w : World) :
  isValidId providerId = true →
  get providerId (store (service w)) = Some v →
  service (react (Render providerId) w) = service (resubscribe providerId w)
  ∧ loads (instance (commit providerId w)) = loads (instance w).
Proof.
  intros Hvalid Hget.
  set (r := resubscribe providerId w).
  destruct (resubscribe_frame providerId w) as (Rst & _ & _ & _ & Rl & _).
  fold r in Rst, Rl.
  assert (useProvider_getSnapshot providerId (service r) = Some v) as Hsnap.
  { unfold useProvider_getSnapshot. by rewrite Hvalid, Rst. }
  unfold react. rewrite deliver_service.
  unfold commit. fold r. unfold runLoadingEffect, loadingEffect.
  rewrite Hsnap, Hvalid. simpl. by case_decide.
Qed.

(** X10: for a valid id whose entity is cached [useProvider] returns the
    cached object with [isLoading = false], before and after the commit; the
    commit leaves the cache and the gateway alone (no [getProvider] goes
    out) and attaches no handler. *)
Theorem useProvider_cached_id_asks_no_gateway
    (providerId : js_string) (v : Ref) (w : World) :
  isValidId providerId = true →
  get providerId (store (service w)) = Some v →
  let w' := react (Render providerId) w in
  useProvider providerId w = {| provider := Some v; result_isLoading := false |}
  ∧ useProvider providerId w'
    = {| provider := Some v; result_isLoading := false |}
  ∧ store (service w') = store (service w)
  ∧ gateway (service w') = gateway (service w)
  ∧ loads (instance w') `sublist_of` loads (instance w).
Proof.
  intros Hvalid Hget w'.
  assert (∀ w0, store (service w0) = store (service w) →
                useProvider providerId w0
                = {| provider := Some v; result_isLoading := false |}) as Hres.
  { intros w0 Hst. unfold useProvider, useProvider_getSnapshot.
    by rewrite Hvalid, Hst, Hget. }
  destruct (resubscribe_frame providerId w) as (Rst & Rgw & _).
  destruct (render_cached providerId v w Hvalid Hget) as [Hsvc Hcl].
  fold w' in Hsvc.
  split_and!.
  - by apply Hres.
  - apply Hres. by rewrite Hsvc.
  - by rewrite Hsvc.
  - by rewrite Hsvc.
  - unfold w', react.
    destruct (deliver_frame (commit providerId w)) as (_ & _ & ->).
    rewrite Hcl. apply sublist_filter.
Qed.

Lemma useProvider_cached_id_asks_no_gateway_witness :
  let svc := run example_ops initial in
  let w := play [Render (of_ascii "other"); Render []] (mount svc []) in
  let v := mkRef 0 (mkProvider p1 "Provider 1" false) in
  let w' := react (Render p1) w in
  isValidId p1 = true
  ∧ get p1 (store (service w)) = Some v
  ∧ useProvider p1 w = {| provider := Some v; result_isLoading := false |}
  ∧ useProvider p1 w' = {| provider := Some v; result_isLoading := false |}
  ∧ store (service w') = store (service w)
  ∧ gateway (service w') = gateway (service w)
  ∧ loads (instance w') `sublist_of` loads (instance w).
Proof.
  split; [reflexivity|]. split; [reflexivity|].
  apply (useProvider_cached_id_asks_no_gateway p1
           (mkRef 0 (mkProvider p1 "Provider 1" false))
           (play [Render (of_ascii "other"); Render []]
              (mount (run example_ops initial) []))); reflexivity.
Defined.

(** *** From Loading to Ready *)

Lemma loaded_store id p s :
  store (loaded id p s)
  = {| cache := <[id := mkEntry (mkRef (nextAddr (store s)) p)
                           (S (from_option generation 0 (cache (store s) !! id)))
                           false]> (cache (store s));
       defaultSlot := defaultSlot (store s);
       nextAddr := S (nextAddr (store s)) |}.
Proof. unfold loaded. simpl. by rewrite put_store. Qed.

Lemma loaded_registry_absent id p s :
  cache (store s) !! id = None →
  registry (loaded id p s) = notify id (registry s).
Proof.
  intros Hc. unfold loaded. simpl. rewrite put_registry. simpl. by rewrite Hc.
Qed.

(** X11: a hook mounted on a valid id that is not cached.  Its first render
    returns [provider = null] with [isLoading = false] (the state starts at
    [false] and the effect has not run); the commit of that render issues one
    load, and from then on the hook returns [isLoading = true]; when the
    gateway answers with the entity the hook returns it (a new object) with
    [isLoading = false], its own subscription is notified after the others,
    nothing is logged but the subscription, and the next render asks nothing
    more. *)
Theorem useProvider_load_succeeds
    (ops : list Op) (log : list LogEntry) (providerId : js_string)
    (p : Provider) :
  let svc := run ops initial in
  isValidId providerId = true →
  get providerId (store svc) = None →
  let k := nextPromise (gateway svc) in
  let loading := react (Render providerId) (mount svc log) in
  let ready := react (Use (OpReply k (Entity p))) loading in
  let rendered := react (Render providerId) ready in
  useProvider providerId (mount svc log)
  = {| provider := None; result_isLoading := false |}
  ∧ useProvider providerId loading
    = {| provider := None; result_isLoading := true |}
  ∧ calls (gateway (service loading))
    = calls (gateway svc) ++ [fetchEntity providerId]
  ∧ useProvider providerId ready
    = {| provider := Some (mkRef (nextAddr (store svc)) p);
         result_isLoading := false |}
  ∧ isLoading (instance ready) = false
  ∧ loads (instance ready) = []
  ∧ outcome k (service ready) = Some Resolved
  ∧ logger ready = log ++ [verbose_subscribing providerId]
  ∧ fired (registry (service ready))
    = fired (registry svc)
      ++ (handle <$> subscribers providerId (registry svc))
      ++ [nextHandle (registry svc)]
  ∧ calls (gateway (service rendered))
    = calls (gateway svc) ++ [fetchEntity providerId]
  ∧ useProvider providerId rendered = useProvider providerId ready.
Proof.
  intros svc Hvalid Hget k loading ready rendered.
  assert (wf svc) as Hwf by apply wf_run, wf_initial.
  assert (cache (store svc) !! providerId = None) as Hcache.
  { unfold get in Hget. by destruct (cache (store svc) !! providerId). }
  assert (loading = loadingWorld svc log providerId) as Hloading
    by by apply mount_render_absent.
  set (svc1 := service (loadingWorld svc log providerId)).
  assert (step (OpReply k (Entity p)) svc1
          = settle k Resolved (loaded providerId p svc1)) as Hstep.
  { unfold svc1. simpl. rewrite (getProvider_absent providerId) by exact Hget.
    unfold reply. simpl. by rewrite lookup_insert_eq. }
  assert (store svc1 = store svc ∧ settled (gateway svc1) = settled (gateway svc)
          ∧ calls (gateway svc1) = calls (gateway svc) ++ [fetchEntity providerId]
          ∧ registry svc1
            = (subscribe providerId storeChanged (registry svc)).2)
    as (Hst1 & Hse1 & Hca1 & Hrg1).
  { unfold svc1. simpl.
    by rewrite (getProvider_absent providerId) by exact Hget. }
  set (w0 := with_service (step (OpReply k (Entity p)))
               (loadingWorld svc log providerId)).
  assert (service w0 = settle k Resolved (loaded providerId p svc1)) as Hsvc0.
  { unfold w0. cbn [service with_service]. exact Hstep. }
  assert (outcome k (service w0) = Some Resolved) as Hout.
  { rewrite Hsvc0. unfold outcome. simpl. rewrite loaded_gateway, Hse1.
    apply outcome_in_snoc, (outcome_fresh svc Hwf). }
  assert (ready
          = with_instance
              (λ i, {| isLoading := isLoading i; storeDeps := storeDeps i;
                       effectDeps := effectDeps i;
                       unsubscribe := unsubscribe i; loads := [] |})
              (loadSettled providerId Resolved w0)) as Hready.
  { unfold ready, react. rewrite Hloading. fold w0.
    by apply (deliver_settled w0 k providerId Resolved). }
  assert (service ready = settle k Resolved (loaded providerId p svc1)) as Hsr.
  { rewrite Hready. simpl. exact Hsvc0. }
  assert (get providerId (store (service ready))
          = Some (mkRef (nextAddr (store svc)) p)) as Hgetr.
  { rewrite Hsr. unfold get. simpl. rewrite loaded_store. simpl.
    by rewrite lookup_insert_eq, Hst1. }
  assert (useProvider providerId ready
          = {| provider := Some (mkRef (nextAddr (store svc)) p);
               result_isLoading := false |}) as Hres.
  { unfold useProvider, useProvider_getSnapshot. by rewrite Hvalid, Hgetr. }
  destruct (render_cached providerId
              (mkRef (nextAddr (store svc)) p) ready Hvalid Hgetr)
    as [Hrendered _].
  fold rendered in Hrendered.
  destruct (resubscribe_frame providerId ready) as (Rst & Rgw & _).
  split_and!.
  - unfold useProvider, useProvider_getSnapshot.
    rewrite Hvalid. cbn [negb mount service instance]. by rewrite Hget.
  - rewrite Hloading. unfold useProvider, useProvider_getSnapshot.
    rewrite Hvalid. fold svc1. rewrite Hst1, Hget. reflexivity.
  - rewrite Hloading. fold svc1. exact Hca1.
  - done.
  - by rewrite Hready.
  - by rewrite Hready.
  - by rewrite Hsr, <- Hsvc0.
  - by rewrite Hready.
  - rewrite Hsr. simpl. rewrite loaded_registry_absent by by rewrite Hst1.
    rewrite notify_fired, Hrg1, subscribers_subscribe. simpl.
    rewrite decide_True by done. rewrite fmap_app. simpl.
    reflexivity.
  - rewrite Hrendered, Rgw, Hsr. simpl. by rewrite loaded_gateway.
  - rewrite Hres. unfold useProvider, useProvider_getSnapshot.
    by rewrite Hvalid, Hrendered, Rst, Hgetr.
Qed.

Lemma useProvider_load_succeeds_witness :
  let providerId := of_ascii "openai" in
  let p := mkProvider providerId "OpenAI" true in
  let svc := run example_ops initial in
  let loading := react (Render providerId) (mount svc []) in
  let ready := react (Use (OpReply 0 (Entity p))) loading in
  isValidId providerId = true
  ∧ get providerId (store svc) = None
  ∧ useProvider providerId (mount svc [])
    = {| provider := None; result_isLoading := false |}
  ∧ useProvider providerId loading
    = {| provider := None; result_isLoading := true |}
  ∧ calls (gateway (service loading)) = [fetchEntity providerId]
  ∧ useProvider providerId ready
    = {| provider := Some (mkRef 1 p); result_isLoading := false |}.
Proof.
  split; [reflexivity|]. split; [reflexivity|].
  pose proof (useProvider_load_succeeds example_ops [] (of_ascii "openai")
                (mkProvider (of_ascii "openai") "OpenAI" true)
                eq_refl eq_refl) as (H0 & H1 & H2 & H3 & _).
  split; [exact H0|]. split; [exact H1|]. split; [exact H2|exact H3].
Defined.

(** *** The flag and the loads behind it *)

Lemma play_snoc evs ev w : play (evs ++ [ev]) w = react ev (play evs w).
Proof. unfold play. by rewrite foldl_app. Qed.

Lemma renderedIds_snoc evs ev :
  renderedIds (evs ++ [ev]) = renderedIds evs ++ renderedIds [ev].
Proof. unfold renderedIds. by rewrite omap_app. Qed.

Lemma filter_nil_Forall {A} (P : A → Prop) `{∀ x, Decision (P x)} (l : list A) :
  filter P l = [] → Forall (λ x, ¬ P x) l.
Proof.
  induction l as [|x l IH]; [done|].
  destruct (decide (P x)) as [Hx|Hx].
  - by rewrite filter_cons_True.
  - rewrite filter_cons_False by done. intros Hl. constructor; auto.
Qed.

Lemma loadSettled_some_isLoading svc due w :
  due ≠ [] →
  isLoading
    (instance (foldl (λ w l, loadSettled l.2
                               (default Resolved (outcome l.1 svc)) w) w due))
  = false.
Proof.
  destruct due as [|l due]; [done|]. intros _. simpl.
  apply loadSettled_all_isLoading, loadSettled_isLoading.
Qed.

(** The flag survives a delivery only when no handler ran. *)
Lemma deliver_flag_up w :
  isLoading (instance (deliver w)) = true →
  isLoading (instance w) = true
  ∧ loads (instance (deliver w)) = loads (instance w)
  ∧ Forall (λ l, outcome l.1 (service w) = None) (loads (instance w)).
Proof.
  intros Hup. split; [by apply deliver_isLoading|].
  destruct (filter (λ l, is_Some (outcome l.1 (service w))) (loads (instance w)))
    as [|l due] eqn:Hdue.
  - apply filter_nil_Forall in Hdue.
    assert (Forall (λ l, outcome l.1 (service w) = None) (loads (instance w)))
      as Hnone.
    { eapply Forall_impl; [exact Hdue|]. simpl. intros l Hl.
      destruct (outcome l.1 (service w)); [|done]. destruct Hl. eauto. }
    split; [|done]. rewrite deliver_pending by done. done.
  - exfalso. unfold deliver in Hup. cbv zeta in Hup. rewrite Hdue in Hup.
    unfold with_instance in Hup. cbn [instance isLoading] in Hup.
    rewrite loadSettled_some_isLoading in Hup; done.
Qed.

(** What a commit does to the loads: nothing, or one more for the id
    rendered. *)
Lemma commit_loads id w :
  (loads (instance (commit id w)) = loads (instance w)
   ∧ (isLoading (instance (commit id w)) = true →
      isLoading (instance w) = true))
  ∨ (isValidId id = true
     ∧ ∃ k, loads (instance (commit id w)) = loads (instance w) ++ [(k, id)]).
Proof.
  unfold commit.
  destruct (resubscribe_frame id w) as (_ & _ & Rl & _ & Rloads & _).
  set (r := resubscribe id w) in *.
  unfold runLoadingEffect. case_decide as Hdeps.
  { left. by rewrite Rl, Rloads. }
  unfold loadingEffect. destruct (isValidId id) eqn:Hvalid; simpl.
  - destruct (useProvider_getSnapshot id (service r)) as [v|] eqn:Hsnap.
    + left. simpl. by rewrite Rloads.
    + right. split; [done|].
      match goal with |- context [getProvider id ?s] =>
        destruct (getProvider id s) as [k svc'] end.
      exists k. simpl. by rewrite Rloads.
  - left. by rewrite Rloads.
Qed.

Lemma react_loads ev w l :
  l ∈ loads (instance (react ev w)) →
  l ∈ loads (instance w)
  ∨ (isValidId l.2 = true ∧ l.2 ∈ renderedIds [ev]).
Proof.
  unfold react. match goal with |- context [deliver ?w0] =>
    destruct (deliver_frame w0) as (_ & _ & ->); set (w1 := w0) end.
  intros [_ Hl]%list_elem_of_filter. subst w1.
  destruct ev as [id|op]; [|by left].
  destruct (commit_loads id w) as [[E _]|(Hvalid & k & E)];
    rewrite E in Hl; [by left|].
  apply elem_of_app in Hl as [Hl|Hl]; [by left|].
  apply list_elem_of_singleton in Hl as ->. right. split; [done|]. simpl.
  apply list_elem_of_singleton. done.
Qed.

Lemma react_backed ev w :
  (isLoading (instance w) = true → loads (instance w) ≠ []) →
  isLoading (instance (react ev w)) = true →
  loads (instance (react ev w)) ≠ []
  ∧ Forall (λ l, outcome l.1 (service (react ev w)) = None)
      (loads (instance (react ev w))).
Proof.
  intros Hw Hup. unfold react in *.
  match type of Hup with context [deliver ?w0] => set (w1 := w0) in * end.
  apply deliver_flag_up in Hup as (Hup & -> & Hnone).
  rewrite deliver_service. split; [|done].
  subst w1. destruct ev as [id|op]; [|by apply Hw].
  destruct (commit_loads id w) as [[E Hflag]|(_ & k & E)]; rewrite E.
  - by apply Hw, Hflag.
  - by destruct (loads (instance w)).
Qed.

Lemma play_backed evs svc log :
  let w := play evs (mount svc log) in
  isLoading (instance w) = true →
  loads (instance w) ≠ []
  ∧ Forall (λ l, outcome l.1 (service w) = None) (loads (instance w)).
Proof.
  induction evs as [|ev evs IH] using rev_ind; simpl; [done|].
  rewrite play_snoc. apply react_backed. intros H. by apply IH.
Qed.

Lemma play_loads evs svc log l :
  l ∈ loads (instance (play evs (mount svc log))) →
  isValidId l.2 = true ∧ l.2 ∈ renderedIds evs.
Proof.
  induction evs as [|ev evs IH] using rev_ind; simpl.
  - by intros ?%elem_of_nil.
  - rewrite play_snoc, renderedIds_snoc.
    intros [Hl|[Hv Hl]]%react_loads.
    + destruct (IH Hl) as [Hv Hin]. split; [done|]. apply elem_of_app. by left.
    + split; [done|]. apply elem_of_app. by right.
Qed.

(** X12: whatever happened since the hook mounted, when [useProvider]
    reports [isLoading = true] its provider is [null] and one of the
    [getProvider] promises it attached handlers to is still pending; that
    load is for a valid id the hook was rendered with. *)
Theorem useProvider_reports_loading_only_while_a_load_is_pending
    (evs : list Event) (svc : Service) (log : list LogEntry)
    (providerId : js_string) :
  let w := play evs (mount svc log) in
  result_isLoading (useProvider providerId w) = true →
  provider (useProvider providerId w) = None
  ∧ ∃ k id, (k, id) ∈ loads (instance w)
            ∧ outcome k (service w) = None
            ∧ isValidId id = true
            ∧ id ∈ renderedIds evs.
Proof.
  intros w Hup. unfold useProvider in *. cbn [result_isLoading provider] in *.
  apply andb_true_iff in Hup as [Hnone Hflag].
  split.
  { destruct (useProvider_getSnapshot providerId (service w)); [|done].
    rewrite bool_decide_true in Hnone by eauto. done. }
  destruct (play_backed evs svc log Hflag) as [Hne Hpending]. fold w in Hne, Hpending.
  destruct (loads (instance w)) as [|[k id] rest] eqn:Hl; [done|].
  exists k, id. split; [by left|].
  apply Forall_cons in Hpending as [Hk _]. split; [done|].
  apply (play_loads evs svc log (k, id)). fold w. rewrite Hl. by left.
Qed.

Lemma useProvider_reports_loading_only_while_a_load_is_pending_witness :
  let evs := [Render p1; Use (OpSubscribe p1 (mkCallback 1 []))] in
  let w := play evs (mount initial []) in
  result_isLoading (useProvider p1 w) = true
  ∧ provider (useProvider p1 w) = None
  ∧ ∃ k id, (k, id) ∈ loads (instance w)
            ∧ outcome k (service w) = None
            ∧ isValidId id = true
            ∧ id ∈ renderedIds evs.
Proof.
  split; [reflexivity|].
  apply (useProvider_reports_loading_only_while_a_load_is_pending
           [Render p1; Use (OpSubscribe p1 (mkCallback 1 []))] initial [] p1).
  reflexivity.
Defined.

(** X13: the handlers of a load are not tied to the id being shown: when
    any load the hook still waits for settles, [isLoading] drops to [false],
    also while loads for other ids stay pending. *)
Theorem useProvider_settled_load_clears_the_flag
    (op : Op) (w : World) (i k : nat) (id providerId : js_string) :
  loads (instance w) !! i = Some (k, id) →
  is_Some (outcome k (step op (service w))) →
  let w' := react (Use op) w in
  isLoading (instance w') = false
  ∧ result_isLoading (useProvider providerId w') = false
  ∧ loads (instance w')
    = filter (λ l, outcome l.1 (service w') = None) (loads (instance w)).
Proof.
  intros Hi Hk w'.
  assert (isLoading (instance w') = false) as Hdown.
  { destruct (isLoading (instance w')) eqn:Hup; [|done]. exfalso.
    apply deliver_flag_up in Hup as (_ & _ & Hpending).
    simpl in Hpending. rewrite Forall_lookup in Hpending.
    specialize (Hpending i (k, id) Hi). simpl in Hpending.
    rewrite Hpending in Hk. by destruct Hk. }
  split_and!; [done| |].
  - unfold useProvider. cbn [result_isLoading]. rewrite Hdown.
    apply andb_false_r.
  - unfold w', react.
    match goal with |- context [deliver ?w0] =>
      destruct (deliver_frame w0) as (_ & _ & ->) end.
    rewrite deliver_service. simpl.
    apply list_filter_iff. intros l.
    destruct (outcome l.1 (step op (service w))); split; try done.
    intros Hn. destruct Hn. eauto.
Qed.

Lemma useProvider_settled_load_clears_the_flag_witness :
  let a := of_ascii "openai" in
  let b := of_ascii "gemini" in
  let w := play [Render a; Render b] (mount initial []) in
  let op := OpReply 0 (Entity (mkProvider a "OpenAI" true)) in
  let w' := react (Use op) w in
  loads (instance w) !! 0 = Some (0, a)
  ∧ is_Some (outcome 0 (step op (service w)))
  ∧ (isLoading (instance w') = false
     ∧ result_isLoading (useProvider b w') = false
     ∧ loads (instance w')
       = filter (λ l, outcome l.1 (service w') = None) (loads (instance w)))
  ∧ useProvider b w = {| provider := None; result_isLoading := true |}
  ∧ provider (useProvider b w') = None
  ∧ loads (instance w') = [(1, b)]
  ∧ outcome 1 (service w') = None.
Proof.
  assert (is_Some (outcome 0
            (step (OpReply 0 (Entity (mkProvider (of_ascii "openai") "OpenAI" true)))
               (service (play [Render (of_ascii "openai");
                               Render (of_ascii "gemini")]
                           (mount initial []))))))
    as Hk by (exists Resolved; vm_compute; reflexivity).
  split; [vm_compute; reflexivity|]. split; [exact Hk|].
  split.
  - apply (useProvider_settled_load_clears_the_flag
             (OpReply 0 (Entity (mkProvider (of_ascii "openai") "OpenAI" true)))
             (play [Render (of_ascii "openai"); Render (of_ascii "gemini")]
                (mount initial []))
             0 0 (of_ascii "openai") (of_ascii "gemini"));
      [vm_compute; reflexivity|exact Hk].
  - split_and!; vm_compute; reflexivity.
Defined.

(** *** The registration the hook holds *)

Lemma filter_keeps_base (base : Registry) id h :
  registry_wf base → nextHandle base ≤ h →
  filter (λ sub, handle sub ≠ h) (subscribers id base) = subscribers id base.
Proof.
  intros (_ & Hbase & _) Hh. apply filter_all, Forall_forall. intros sub Hsub.
  specialize (Hbase id sub Hsub). lia.
Qed.

Lemma filter_keeps_base_default (base : Registry) h :
  registry_wf base → nextHandle base ≤ h →
  filter (λ sub, handle sub ≠ h) (defaultSubscriptions base)
  = defaultSubscriptions base.
Proof.
  intros (_ & _ & _ & Hbase) Hh. apply filter_all, Forall_forall.
  intros sub Hsub. specialize (Hbase sub Hsub). lia.
Qed.

Lemma subscribe_valid id cb w :
  isValidId id = true →
  useProvider_subscribe id cb w
  = (Release (nextHandle (registry (service w))),
     with_service (with_registry (λ r, (subscribe id cb r).2))
       (log (verbose_subscribing id) w)).
Proof. intros Hvalid. unfold useProvider_subscribe. by rewrite Hvalid. Qed.

Lemma subscribe_invalid id cb w :
  isValidId id = false → useProvider_subscribe id cb w = (NoOp, w).
Proof. intros Hvalid. unfold useProvider_subscribe. by rewrite Hvalid. Qed.

Lemma resubscribe_tracked base id w :
  registry_wf base → tracked base w →
  tracked base (resubscribe id w)
  ∧ storeDeps (instance (resubscribe id w)) = Some (id, isValidId id).
Proof.
  intros Hbase (Hnext & Hheld & Hdef & Hsubs).
  unfold resubscribe. case_decide as Hdeps; [by split_and!|].
  set (w1 := call (unsubscribe (instance w)) w).
  assert (nextHandle (registry (service w1)) = nextHandle (registry (service w))
          ∧ defaultSubscriptions (registry (service w1))
            = defaultSubscriptions base
          ∧ ∀ id', subscribers id' (registry (service w1)) = subscribers id' base)
    as (Hnext1 & Hdef1 & Hreleased).
  { unfold w1. unfold hookSubscription in Hsubs.
    destruct (unsubscribe (instance w)) as [|h] eqn:Hu; simpl.
    - split_and!; [done..|]. intros id'. rewrite Hsubs. apply app_nil_r.
    - destruct (storeDeps (instance w)) as [[id0 [|]]|]; try done.
      split_and!; [done| |].
      + rewrite Hdef. by apply filter_keeps_base_default.
      + intros id'. rewrite subscribers_release, Hsubs.
        rewrite filter_app, filter_keeps_base by done.
        case_decide; simpl; [|apply app_nil_r].
        rewrite filter_cons_False by (simpl; tauto). apply app_nil_r. }
  clearbody w1.
  destruct (isValidId id) eqn:Hvalid.
  - rewrite subscribe_valid by done. cbn -[subscribe subscribers].
    split; [|done]. unfold tracked, hookSubscription.
    cbn -[subscribe subscribers]. split_and!; [simpl; lia|lia|done|].
    intros id'. rewrite subscribers_subscribe, !Hreleased.
    case_decide as E1; case_decide as E2; subst; try done.
    by rewrite app_nil_r.
  - rewrite subscribe_invalid by done. cbn -[subscribers].
    split; [|done]. unfold tracked, hookSubscription. cbn -[subscribers].
    split_and!; [lia|done|done|].
    intros id'. by rewrite Hreleased, app_nil_r.
Qed.

Lemma render_tracked base id w :
  registry_wf base → tracked base w →
  tracked base (react (Render id) w)
  ∧ storeDeps (instance (react (Render id) w)) = Some (id, isValidId id).
Proof.
  intros Hbase Hw.
  destruct (resubscribe_tracked base id w Hbase Hw)
    as [(Hn & Hh & Hd & Hs) Hdeps].
  set (r := resubscribe id w) in *.
  destruct (runLoadingEffect_frame id r) as (_ & Ereg & Esd & Eun & _).
  unfold react.
  destruct (deliver_frame (commit id w)) as (Dsd & Dun & _).
  unfold commit in *. fold r in Dsd, Dun |- *.
  split; [|by rewrite Dsd, Esd].
  unfold tracked, hookSubscription.
  rewrite deliver_service, Dsd, Dun, Ereg, Esd, Eun. by split_and!.
Qed.

Lemma mount_tracked svc log : tracked (registry svc) (mount svc log).
Proof.
  split_and!; simpl; [done..|]. intros id. by rewrite app_nil_r.
Qed.

Lemma renders_tracked base ids w :
  registry_wf base → tracked base w → tracked base (play (Render <$> ids) w).
Proof.
  intros Hbase. induction ids as [|id ids IH] using rev_ind; [done|].
  intros Hw. rewrite fmap_app.
  change (Render <$> [id]) with [Render id]. rewrite play_snoc.
  by apply render_tracked, IH.
Qed.

(** X14: the hook keeps one registration: after any sequence of renders the
    registry holds the registrations it had when the hook mounted and, for
    the id last rendered, the hook's own (none when that id is blank);
    registrations made for earlier ids are released, and the default channel
    is untouched. *)
Theorem useProvider_holds_one_subscription
    (ops : list Op) (log : list LogEntry) (ids : list js_string)
    (providerId : js_string) :
  let svc := run ops initial in
  let w := play (Render <$> (ids ++ [providerId])) (mount svc log) in
  ∃ own : list Subscription,
    (∀ id, subscribers id (registry (service w))
           = subscribers id (registry svc)
             ++ if decide (id = providerId) then own else [])
    ∧ defaultSubscriptions (registry (service w))
      = defaultSubscriptions (registry svc)
    ∧ if isValidId providerId
      then ∃ h, own = [mkSubscription h storeChanged]
                ∧ unsubscribe (instance w) = Release h
                ∧ nextHandle (registry svc) ≤ h
      else own = [] ∧ unsubscribe (instance w) = NoOp.
Proof.
  intros svc w.
  assert (wf svc) as [Hreg _] by apply wf_run, wf_initial.
  assert (tracked (registry svc) w
          ∧ storeDeps (instance w) = Some (providerId, isValidId providerId))
    as [(_ & Hheld & Hdef & Hsubs) Hdeps].
  { unfold w. rewrite fmap_app.
    change (Render <$> [providerId]) with [Render providerId].
    rewrite play_snoc.
    apply render_tracked; [done|].
    apply renders_tracked; [done|apply mount_tracked]. }
  exists (hookSubscription providerId w).
  split_and!; [|done|].
  - intros id. rewrite Hsubs. f_equal. unfold hookSubscription.
    rewrite Hdeps. destruct (unsubscribe (instance w)); [by case_decide|].
    case_decide as E; [subst; by rewrite decide_True|done].
  - unfold hookSubscription. rewrite Hdeps in Hheld |- *.
    destruct (isValidId providerId), (unsubscribe (instance w)) as [|h];
      try done.
    exists h. by rewrite decide_True.
Qed.

End UseProviderMore.

(** ** [useDefaultProvider] as a mounted hook *)

Module UseDefaultProviderMore.
Import Js Types ProviderService ProviderHooks DefaultProviderHook Samples.
Import ProviderServiceFacts.
Import ProviderHooksFacts.

(** *** What the pieces of a commit leave alone *)

Lemma initialize_frame s :
  store (initialize s).2 = store s ∧ registry (initialize s).2 = registry s.
Proof.
  unfold initialize. simpl.
  destruct (defaultSlot (store s)); [done|].
  by destruct (initializing (gateway s)).
Qed.

(** [initialize] with the slot empty: the caller joins the initialisation
    in flight, or starts one. *)
Lemma initialize_empty s :
  defaultSlot (store s) = None →
  (initialize s).1 = nextPromise (gateway s)
  ∧ settled (gateway (initialize s).2) = settled (gateway s)
  ∧ nextPromise (gateway (initialize s).2) = S (nextPromise (gateway s))
  ∧ initializing (gateway (initialize s).2)
    = Some (default [] (initializing (gateway s)) ++ [nextPromise (gateway s)])
  ∧ calls (gateway (initialize s).2)
    = calls (gateway s)
      ++ if initializing (gateway s) is Some _ then [] else [fetchDefaultEntity].
Proof.
  intros Hslot. unfold initialize. simpl. rewrite Hslot.
  destruct (initializing (gateway s)); simpl; by rewrite ?app_nil_r.
Qed.

Lemma initializeSettled_frame o w :
  service (initializeSettled o w) = service w
  ∧ isLoading (instance (initializeSettled o w)) = false
  ∧ unsubscribe (instance (initializeSettled o w)) = unsubscribe (instance w)
  ∧ effectDeps (instance (initializeSettled o w)) = effectDeps (instance w)
  ∧ initializations (instance (initializeSettled o w))
    = initializations (instance w).
Proof. by destruct o. Qed.

Lemma initializeSettled_all_frame svc due w :
  let w' := foldl (λ w k, initializeSettled (default Resolved (outcome k svc)) w)
              w due in
  service w' = service w
  ∧ (isLoading (instance w') = if due is [] then isLoading (instance w) else false)
  ∧ unsubscribe (instance w') = unsubscribe (instance w)
  ∧ effectDeps (instance w') = effectDeps (instance w)
  ∧ initializations (instance w') = initializations (instance w).
Proof.
  revert w. induction due as [|k due IH]; intros w; simpl; [done|].
  destruct (IH (initializeSettled (default Resolved (outcome k svc)) w))
    as (E1 & E2 & E3 & E4 & E5).
  destruct (initializeSettled_frame (default Resolved (outcome k svc)) w)
    as (F1 & F2 & F3 & F4 & F5).
  simpl in *. rewrite E1, E2, E3, E4, E5, F1, F2, F3, F4, F5.
  split_and!; try done. by destruct due.
Qed.

Lemma default_deliver_frame w :
  service (deliver w) = service w
  ∧ (isLoading (instance (deliver w))
     = if filter (λ k, is_Some (outcome k (service w)))
            (initializations (instance w)) is []
       then isLoading (instance w) else false)
  ∧ unsubscribe (instance (deliver w)) = unsubscribe (instance w)
  ∧ effectDeps (instance (deliver w)) = effectDeps (instance w)
  ∧ initializations (instance (deliver w))
    = filter (λ k, ¬ is_Some (outcome k (service w)))
        (initializations (instance w)).
Proof.
  unfold deliver. cbv zeta.
  match goal with |- context [foldl ?f w ?due] =>
    destruct (initializeSettled_all_frame (service w) due w)
      as (E1 & E2 & E3 & E4 & E5) end.
  simpl in *. unfold with_instance. simpl. rewrite E1, E2, E3, E4, E5. done.
Qed.

Lemma default_filter_none {A} (P : A → Prop) `{∀ x, Decision (P x)} (l : list A) :
  Forall (λ x, ¬ P x) l → filter P l = [] ∧ filter (λ x, ¬ P x) l = l.
Proof.
  induction 1 as [|x l Hx _ [IH1 IH2]]; [done|].
  rewrite filter_cons_False by done.
  rewrite (filter_cons_True (λ x, ¬ P x)) by done. by rewrite IH2.
Qed.

(** With every awaited promise still pending, no handler runs. *)
Lemma default_deliver_pending w :
  Forall (λ k, outcome k (service w) = None) (initializations (instance w)) →
  deliver w
  = {| service := service w;
       instance :=
         {| isLoading := isLoading (instance w);
            unsubscribe := unsubscribe (instance w);
            effectDeps := effectDeps (instance w);
            initializations := initializations (instance w) |};
       logger := logger w |}.
Proof.
  intros Hl.
  destruct (default_filter_none (λ k, is_Some (outcome k (service w)))
              (initializations (instance w))) as [E1 E2].
  { eapply Forall_impl; [done|]. simpl. intros k -> [? ?]. done. }
  unfold deliver. cbv zeta. rewrite E1. unfold with_instance. simpl.
  by rewrite E2.
Qed.

(** Handlers run once: delivering again changes nothing. *)
Lemma default_deliver_idempotent w : deliver (deliver w) = deliver w.
Proof.
  rewrite (default_deliver_pending (deliver w)); [done|].
  destruct (default_deliver_frame w) as (-> & _ & _ & _ & ->).
  apply Forall_forall. intros k [Hk _]%list_elem_of_filter.
  destruct (outcome k (service w)); [|done]. destruct Hk. eauto.
Qed.

Lemma subscribeOnce_frame w :
  store (service (subscribeOnce w)) = store (service w)
  ∧ gateway (service (subscribeOnce w)) = gateway (service w)
  ∧ isLoading (instance (subscribeOnce w)) = isLoading (instance w)
  ∧ effectDeps (instance (subscribeOnce w)) = effectDeps (instance w)
  ∧ initializations (instance (subscribeOnce w)) = initializations (instance w)
  ∧ is_Some (unsubscribe (instance (subscribeOnce w))).
Proof.
  unfold subscribeOnce.
  destruct (unsubscribe (instance w)) eqn:Hu; simpl; split_and!; eauto.
Qed.

Lemma initializationEffect_frame dp w :
  store (service (initializationEffect dp w)) = store (service w)
  ∧ registry (service (initializationEffect dp w)) = registry (service w)
  ∧ unsubscribe (instance (initializationEffect dp w)) = unsubscribe (instance w)
  ∧ effectDeps (instance (initializationEffect dp w)) = effectDeps (instance w)
  ∧ logger (initializationEffect dp w) = logger w.
Proof.
  unfold initializationEffect, initializeEffect. destruct dp; [done|].
  destruct (initialize_frame (service w)) as [Hs Hr].
  destruct (initialize (service w)) as [k svc]. simpl in *.
  by rewrite Hs, Hr.
Qed.

Lemma runInitializationEffect_frame w :
  store (service (runInitializationEffect w)) = store (service w)
  ∧ registry (service (runInitializationEffect w)) = registry (service w)
  ∧ unsubscribe (instance (runInitializationEffect w)) = unsubscribe (instance w)
  ∧ logger (runInitializationEffect w) = logger w
  ∧ effectDeps (instance (runInitializationEffect w))
    = Some (addr <$> useDefaultProvider_getSnapshot (service w)).
Proof.
  unfold runInitializationEffect. case_decide as Hdeps; [by split_and!|].
  match goal with |- context [initializationEffect ?p ?w'] =>
    destruct (initializationEffect_frame p w') as (E1 & E2 & E3 & E4 & E5) end.
  rewrite E1, E2, E3, E4, E5. done.
Qed.

Lemma getSnapshot_store svc svc' :
  store svc = store svc' →
  useDefaultProvider_getSnapshot svc = useDefaultProvider_getSnapshot svc'.
Proof. unfold useDefaultProvider_getSnapshot. by intros ->. Qed.

(** X15: rendering [useDefaultProvider] again, with nothing happening in
    between, changes nothing: no second subscription and no second
    [initialize]. *)
Theorem useDefaultProvider_render_is_idempotent (w : World) :
  react Render (react Render w) = react Render w.
Proof.
  unfold react at 1. set (w1 := react Render w).
  assert (commit w1 = w1) as ->; [|apply default_deliver_idempotent].
  set (s := subscribeOnce w).
  destruct (subscribeOnce_frame w) as (_ & _ & _ & _ & _ & [u Hu]).
  destruct (runInitializationEffect_frame s) as (Est & _ & Eun & _ & Eed).
  fold s in Hu.
  destruct (default_deliver_frame (commit w)) as (Dsvc & _ & Dun & Ded & _).
  fold (react Render w) in Dsvc, Dun, Ded. fold w1 in Dsvc, Dun, Ded.
  unfold commit in Dsvc, Dun, Ded. fold s in Dsvc, Dun, Ded.
  unfold commit.
  assert (subscribeOnce w1 = w1) as ->.
  { unfold subscribeOnce. by rewrite Dun, Eun, Hu. }
  unfold runInitializationEffect. rewrite decide_True; [done|].
  rewrite Ded, Eed. do 2 f_equal. apply getSnapshot_store.
  by rewrite Dsvc, Est.
Qed.

(** Rendering with the default slot populated: the effect stops at its
    [else] branch, so the service is the one the subscription left. *)
Lemma default_render_populated (v : Ref) (w : World) :
  defaultSlot (store (service w)) = Some v →
  service (react Render w) = service (subscribeOnce w)
  ∧ initializations (instance (commit w)) = initializations (instance w).
Proof.
  intros Hslot.
  set (s := subscribeOnce w).
  destruct (subscribeOnce_frame w) as (Sst & _ & _ & _ & Sin & _).
  fold s in Sst, Sin.
  assert (useDefaultProvider_getSnapshot (service s) = Some v) as Hsnap.
  { unfold useDefaultProvider_getSnapshot, getDefault. by rewrite Sst, Hslot. }
  destruct (default_deliver_frame (commit w)) as (Dsvc & _).
  fold (react Render w) in Dsvc. rewrite Dsvc.
  unfold commit. fold s. unfold runInitializationEffect, initializationEffect.
  rewrite Hsnap. simpl. case_decide; [done|]. simpl.
  by rewrite app_nil_r.
Qed.

(** X16: with the default slot populated [useDefaultProvider] returns it
    with [isLoading = false], before and after the commit, and the commit
    leaves the cache and the gateway alone: [initialize] is not called. *)
Theorem useDefaultProvider_populated_slot_asks_no_gateway
    (v : Ref) (w : World) :
  defaultSlot (store (service w)) = Some v →
  let w' := react Render w in
  useDefaultProvider w
  = {| defaultProvider := Some v; result_isLoading := false |}
  ∧ useDefaultProvider w'
    = {| defaultProvider := Some v; result_isLoading := false |}
  ∧ store (service w') = store (service w)
  ∧ gateway (service w') = gateway (service w)
  ∧ initializations (instance w') `sublist_of` initializations (instance w).
Proof.
  intros Hslot w'.
  assert (∀ w0, store (service w0) = store (service w) →
                useDefaultProvider w0
                = {| defaultProvider := Some v; result_isLoading := false |})
    as Hres.
  { intros w0 Hst.
    unfold useDefaultProvider, useDefaultProvider_getSnapshot, getDefault.
    by rewrite Hst, Hslot. }
  destruct (subscribeOnce_frame w) as (Sst & Sgw & _).
  destruct (default_render_populated v w Hslot) as [Hsvc Hcl].
  fold w' in Hsvc.
  destruct (default_deliver_frame (commit w)) as (_ & _ & _ & _ & Din).
  fold (react Render w) in Din. fold w' in Din.
  split_and!.
  - by apply Hres.
  - apply Hres. by rewrite Hsvc.
  - by rewrite Hsvc.
  - by rewrite Hsvc.
  - rewrite Din, Hcl. apply sublist_filter.
Qed.

Lemma useDefaultProvider_populated_slot_asks_no_gateway_witness :
  let svc := run [OpSetDefault default_provider] initial in
  let w := mount svc [] in
  let v := mkRef 0 default_provider in
  let w' := react Render w in
  defaultSlot (store (service w)) = Some v
  ∧ useDefaultProvider w
    = {| defaultProvider := Some v; result_isLoading := false |}
  ∧ useDefaultProvider w'
    = {| defaultProvider := Some v; result_isLoading := false |}
  ∧ store (service w') = store (service w)
  ∧ gateway (service w') = gateway (service w)
  ∧ initializations (instance w') `sublist_of` initializations (instance w).
Proof.
  split; [reflexivity|].
  apply (useDefaultProvider_populated_slot_asks_no_gateway
           (mkRef 0 default_provider)
           (mount (run [OpSetDefault default_provider] initial) [])).
  reflexivity.
Defined.

(** *** The first render with the slot empty *)

Lemma default_commit_mount svc log :
  defaultSlot (store svc) = None →
  let svc1 := with_registry (λ r, (subscribeDefault storeChanged r).2) svc in
  service (commit (mount svc log)) = (initialize svc1).2
  ∧ instance (commit (mount svc log))
    = {| isLoading := true;
         unsubscribe := Some (Release (nextHandle (registry svc)));
         effectDeps := Some None;
         initializations := [(initialize svc1).1] |}
  ∧ logger (commit (mount svc log)) = log ++ [verbose_subscribing_default].
Proof.
  intros Hslot svc1.
  unfold commit, subscribeOnce, runInitializationEffect, initializationEffect,
    initializeEffect, useDefaultProvider_getSnapshot, getDefault.
  simpl. rewrite Hslot. simpl.
  match goal with |- context [initialize ?x] => change x with svc1 end.
  by destruct (initialize svc1).
Qed.

Lemma default_mount_render svc log :
  wf svc → defaultSlot (store svc) = None →
  let svc1 := with_registry (λ r, (subscribeDefault storeChanged r).2) svc in
  let w := react Render (mount svc log) in
  service w = (initialize svc1).2
  ∧ instance w
    = {| isLoading := true;
         unsubscribe := Some (Release (nextHandle (registry svc)));
         effectDeps := Some None;
         initializations := [nextPromise (gateway svc)] |}
  ∧ logger w = log ++ [verbose_subscribing_default].
Proof.
  intros Hwf Hslot svc1 w.
  destruct (default_commit_mount svc log Hslot) as (Hs & Hi & Hl).
  fold svc1 in Hs, Hi.
  destruct (initialize_empty svc1 Hslot) as (Hk & Hsettled & _).
  change (nextPromise (gateway svc1)) with (nextPromise (gateway svc)) in Hk.
  change (settled (gateway svc1)) with (settled (gateway svc)) in Hsettled.
  rewrite Hk in Hi.
  unfold w, react. rewrite default_deliver_pending.
  - simpl. rewrite Hs, Hl, Hi. done.
  - rewrite Hi, Hs. simpl. constructor; [|done].
    unfold outcome. rewrite Hsettled. apply (outcome_fresh svc Hwf).
Qed.

(** When the one awaited promise settles, its handler runs. *)
Lemma default_deliver_settled w k o :
  initializations (instance w) = [k] → outcome k (service w) = Some o →
  deliver w
  = with_instance
      (λ i, {| isLoading := isLoading i; unsubscribe := unsubscribe i;
               effectDeps := effectDeps i; initializations := [] |})
      (initializeSettled o w).
Proof.
  intros Hl Ho. unfold deliver. cbv zeta. rewrite Hl.
  rewrite (filter_cons_True (λ k, is_Some (outcome k (service w)))) by eauto.
  rewrite filter_nil. simpl. rewrite Ho. unfold with_instance. simpl.
  destruct (initializeSettled_frame o w) as (_ & _ & _ & _ & ->). rewrite Hl.
  rewrite (filter_cons_False (λ k, ¬ is_Some (outcome k (service w)))).
  - by rewrite filter_nil.
  - intros Hn. apply Hn. eauto.
Qed.

Lemma replyDefault_entity p cs s :
  initializing (gateway s) = Some cs →
  replyDefault (Entity p) s
  = conclude_all cs Resolved
      (setDefault (mkRef (nextAddr (store s)) p)
         (with_store (λ _, (alloc p (store s)).2) (set_initializing None s))).
Proof. intros Hi. unfold replyDefault. by rewrite Hi. Qed.

Lemma replyDefault_rejects r cs s :
  rejects r = true → initializing (gateway s) = Some cs →
  replyDefault r s
  = conclude_all cs (Rejected (failure_of r)) (set_initializing None s).
Proof. intros Hr Hi. unfold replyDefault. rewrite Hi. by destruct r. Qed.

(** The caller that joined last is settled with the others. *)
Lemma outcome_last_caller k o settled0 cs :
  (∀ k' o', (k', o') ∈ settled0 → k' < k) → (∀ k', k' ∈ cs → k' < k) →
  outcome_in k (settled0 ++ ((λ k, (k, o)) <$> (cs ++ [k]))) = Some o.
Proof.
  intros Hs Hc. rewrite fmap_app, app_assoc. simpl.
  apply outcome_in_snoc, outcome_in_fresh.
  intros k' o' [Hin|Hin]%elem_of_app; [by eapply Hs|].
  apply list_elem_of_fmap in Hin as (k'' & [= -> ->] & Hin). by apply Hc.
Qed.

Section FirstRender.
Context (ops : list Op) (log : list LogEntry).
Let svc : Service := run ops initial.
Let svc1 : Service :=
  with_registry (λ r, (subscribeDefault storeChanged r).2) svc.
Let k : nat := nextPromise (gateway svc).
Let callers : list nat := default [] (initializing (gateway svc)).
Let loading : World := react Render (mount svc log).
Context (Hslot : defaultSlot (store svc) = None).

Lemma svc_wf : wf svc.
Proof using Type. apply wf_run, wf_initial. Qed.

Lemma loading_world :
  service loading = (initialize svc1).2
  ∧ instance loading
    = {| isLoading := true;
         unsubscribe := Some (Release (nextHandle (registry svc)));
         effectDeps := Some None;
         initializations := [k] |}
  ∧ logger loading = log ++ [verbose_subscribing_default].
Proof using Hslot. apply default_mount_render; [apply svc_wf|done]. Qed.

Lemma loading_service :
  store (service loading) = store svc
  ∧ registry (service loading) = registry svc1
  ∧ settled (gateway (service loading)) = settled (gateway svc)
  ∧ initializing (gateway (service loading)) = Some (callers ++ [k])
  ∧ calls (gateway (service loading))
    = calls (gateway svc)
      ++ (if initializing (gateway svc) is Some _ then []
          else [fetchDefaultEntity])
  ∧ wf (service loading).
Proof using Hslot.
  destruct loading_world as (-> & _ & _).
  destruct (initialize_frame svc1) as [-> ->].
  destruct (initialize_empty svc1 Hslot) as (_ & -> & _ & -> & ->).
  split_and!; try done.
  apply wf_initialize, wf_with_registry; [apply svc_wf|].
  apply subscribeDefault_wf, svc_wf.
Qed.

Lemma callers_settle o s :
  settled (gateway s) = settled (gateway svc) →
  outcome k (conclude_all (callers ++ [k]) o s) = Some o.
Proof using Type.
  intros Hs. unfold outcome. rewrite conclude_all_gateway. simpl. rewrite Hs.
  destruct svc_wf as [_ (_ & _ & _ & Hsettled & Hinit)].
  apply outcome_last_caller; [exact Hsettled|].
  intros k' Hk'. unfold callers in Hk'.
  destruct (initializing (gateway svc)) as [cs|] eqn:Hcs; simpl in Hk'.
  - by eapply Hinit.
  - by apply elem_of_nil in Hk'.
Qed.

Lemma loading_result :
  useDefaultProvider loading
  = {| defaultProvider := None; result_isLoading := true |}.
Proof using Hslot.
  destruct loading_world as (_ & Hi & _).
  destruct loading_service as (Hst & _).
  unfold useDefaultProvider, useDefaultProvider_getSnapshot, getDefault.
  by rewrite Hst, Hslot, Hi.
Qed.

(** X17: mounted over an empty default slot, the hook reports
    [isLoading = true] and the gateway is asked for the default entity unless
    an initialisation is already in flight; when the gateway answers with the
    entity the hook returns it with [isLoading = false], its subscription on
    the default channel is notified after the others, and the next render
    asks nothing more. *)
Theorem useDefaultProvider_initialization_succeeds (p : Provider) :
  let ready := react (Use (OpReplyDefault (Entity p))) loading in
  useDefaultProvider loading
  = {| defaultProvider := None; result_isLoading := true |}
  ∧ calls (gateway (service loading))
    = calls (gateway svc)
      ++ (if initializing (gateway svc) is Some _ then []
          else [fetchDefaultEntity])
  ∧ useDefaultProvider ready
    = {| defaultProvider := Some (mkRef (nextAddr (store svc)) p);
         result_isLoading := false |}
  ∧ isLoading (instance ready) = false
  ∧ initializations (instance ready) = []
  ∧ logger ready = log ++ [verbose_subscribing_default]
  ∧ fired (registry (service ready))
    = fired (registry svc)
      ++ (handle <$> defaultSubscriptions (registry svc))
      ++ [nextHandle (registry svc)]
  ∧ gateway (service (react Render ready)) = gateway (service ready).
Proof using Hslot.
  intros ready.
  destruct loading_world as (_ & Hi & Hl).
  destruct loading_service as (Hst & Hrg & Hse & Hin & Hca & Hwf).
  set (s2 := service loading) in *.
  set (s3 := replyDefault (Entity p) s2).
  assert (s3 = conclude_all (callers ++ [k]) Resolved
                 (setDefault (mkRef (nextAddr (store svc)) p)
                    (with_store (λ _, (alloc p (store s2)).2)
                       (set_initializing None s2)))) as Hs3.
  { unfold s3. rewrite (replyDefault_entity p (callers ++ [k])) by done.
    by rewrite Hst. }
  set (w0 := with_service (step (OpReplyDefault (Entity p))) loading).
  assert (service w0 = s3) as Hsvc0 by done.
  assert (outcome k (service w0) = Some Resolved) as Hout.
  { rewrite Hsvc0, Hs3. apply callers_settle.
    by rewrite setDefault_gateway. }
  assert (ready
          = with_instance
              (λ i, {| isLoading := isLoading i; unsubscribe := unsubscribe i;
                       effectDeps := effectDeps i; initializations := [] |})
              (initializeSettled Resolved w0)) as Hready.
  { unfold ready, react. fold w0. apply (default_deliver_settled w0 k); [|done].
    change (initializations (instance loading) = [k]). by rewrite Hi. }
  assert (service ready = s3) as Hsr by by rewrite Hready.
  assert (defaultSlot (store (service ready))
          = Some (mkRef (nextAddr (store svc)) p)) as Hslot'.
  { by rewrite Hsr, Hs3, conclude_all_store, setDefault_store. }
  destruct (default_render_populated _ ready Hslot') as [Hrendered _].
  destruct (subscribeOnce_frame ready) as (_ & Sgw & _).
  split_and!.
  - apply loading_result.
  - done.
  - unfold useDefaultProvider, useDefaultProvider_getSnapshot, getDefault.
    by rewrite Hslot'.
  - by rewrite Hready.
  - by rewrite Hready.
  - rewrite Hready. unfold w0.
    cbn [logger with_instance with_service initializeSettled setIsLoading
         DefaultProviderHook.log].
    done.
  - rewrite Hsr, Hs3, conclude_all_registry, setDefault_registry. simpl.
    rewrite Hst, Hslot. simpl. rewrite notifyDefault_fired, Hrg. simpl.
    by rewrite fmap_app.
  - by rewrite Hrendered, Sgw.
Qed.

(** X18: when the initialisation fails, the hook logs the error and returns
    [null] with [isLoading = false], and the slot stays empty; rendering
    again does not retry; a hook mounted afterwards reports loading and asks
    the gateway again. *)
Theorem useDefaultProvider_initialization_fails
    (r : Reply) (log' : list LogEntry) :
  rejects r = true →
  let failed := react (Use (OpReplyDefault r)) loading in
  let again := react Render failed in
  let remounted := react Render (mount (service failed) log') in
  useDefaultProvider failed
  = {| defaultProvider := None; result_isLoading := false |}
  ∧ logger failed
    = log ++ [verbose_subscribing_default;
              error_failed_to_initialize (failure_of r)]
  ∧ defaultSlot (store (service failed)) = None
  ∧ useDefaultProvider again
    = {| defaultProvider := None; result_isLoading := false |}
  ∧ service again = service failed
  ∧ logger again = logger failed
  ∧ useDefaultProvider remounted
    = {| defaultProvider := None; result_isLoading := true |}
  ∧ calls (gateway (service remounted))
    = calls (gateway (service failed)) ++ [fetchDefaultEntity].
Proof using Hslot.
  intros Hr failed again remounted.
  destruct loading_world as (_ & Hi & Hl).
  destruct loading_service as (Hst & Hrg & Hse & Hin & Hca & Hwf).
  set (s2 := service loading) in *.
  set (s3 := replyDefault r s2).
  assert (s3 = conclude_all (callers ++ [k]) (Rejected (failure_of r))
                 (set_initializing None s2)) as Hs3.
  { unfold s3. by rewrite (replyDefault_rejects r (callers ++ [k])). }
  set (w0 := with_service (step (OpReplyDefault r)) loading).
  assert (service w0 = s3) as Hsvc0 by done.
  assert (outcome k (service w0) = Some (Rejected (failure_of r))) as Hout.
  { rewrite Hsvc0, Hs3. by apply callers_settle. }
  assert (failed
          = with_instance
              (λ i, {| isLoading := isLoading i; unsubscribe := unsubscribe i;
                       effectDeps := effectDeps i; initializations := [] |})
              (initializeSettled (Rejected (failure_of r)) w0)) as Hfailed.
  { unfold failed, react. fold w0. apply (default_deliver_settled w0 k); [|done].
    change (initializations (instance loading) = [k]). by rewrite Hi. }
  clearbody failed.
  assert (service failed = s3) as Hsf by by rewrite Hfailed.
  assert (defaultSlot (store (service failed)) = None) as Hslot'.
  { rewrite Hsf, Hs3, conclude_all_store. simpl. by rewrite Hst. }
  assert (instance failed
          = {| isLoading := false;
               unsubscribe := Some (Release (nextHandle (registry svc)));
               effectDeps := Some None;
               initializations := [] |}) as Hinst.
  { rewrite Hfailed. unfold w0.
    cbn [instance with_instance with_service initializeSettled setIsLoading
         DefaultProviderHook.log isLoading unsubscribe effectDeps].
    by rewrite Hi. }
  assert (useDefaultProvider_getSnapshot (service failed) = None) as Hsnap.
  { unfold useDefaultProvider_getSnapshot, getDefault. by rewrite Hslot'. }
  assert (commit failed = failed) as Hcommit.
  { unfold commit, subscribeOnce. rewrite Hinst. simpl.
    unfold runInitializationEffect. rewrite Hsnap, Hinst.
    by rewrite decide_True. }
  assert (service again = service failed ∧ instance again = instance failed
          ∧ logger again = logger failed) as (Has & Hai & Hal).
  { unfold again, react. rewrite Hcommit, default_deliver_pending.
    - simpl. by rewrite Hinst.
    - by rewrite Hinst. }
  assert (wf (service failed)) as Hwf'.
  { rewrite Hsf. unfold s3. by apply wf_replyDefault. }
  destruct (default_mount_render (service failed) log' Hwf' Hslot')
    as (Hrs & Hri & _).
  fold remounted in Hrs, Hri.
  split_and!.
  - unfold useDefaultProvider. by rewrite Hsnap, Hinst.
  - rewrite Hfailed. unfold w0.
    cbn [logger with_instance with_service initializeSettled setIsLoading
         DefaultProviderHook.log].
    by rewrite Hl, <- app_assoc.
  - done.
  - unfold useDefaultProvider. by rewrite Has, Hai, Hsnap, Hinst.
  - done.
  - done.
  - unfold useDefaultProvider, useDefaultProvider_getSnapshot, getDefault.
    rewrite Hrs, Hri.
    match goal with |- context [initialize ?x] =>
      destruct (initialize_frame x) as [-> _] end.
    simpl. by rewrite Hslot'.
  - rewrite Hrs.
    match goal with |- context [initialize ?x] =>
      destruct (initialize_empty x Hslot') as (_ & _ & _ & _ & ->) end.
    simpl. rewrite Hsf, Hs3, conclude_all_gateway. done.
Qed.

End FirstRender.

Lemma useDefaultProvider_initialization_succeeds_witness :
  let svc := run watched_ops initial in
  let loading := react Render (mount svc []) in
  let ready := react (Use (OpReplyDefault (Entity default_provider))) loading in
  defaultSlot (store svc) = None
  ∧ useDefaultProvider loading
    = {| defaultProvider := None; result_isLoading := true |}
  ∧ calls (gateway (service loading)) = [fetchDefaultEntity]
  ∧ useDefaultProvider ready
    = {| defaultProvider := Some (mkRef 0 default_provider);
         result_isLoading := false |}.
Proof.
  split; [reflexivity|].
  pose proof (useDefaultProvider_initialization_succeeds watched_ops []
                eq_refl default_provider) as (H1 & H2 & H3 & _).
  split; [exact H1|]. split; [exact H2|exact H3].
Defined.

Lemma useDefaultProvider_initialization_fails_witness :
  let svc := run watched_ops initial in
  let r := Failed "no default configured" in
  let loading := react Render (mount svc []) in
  let failed := react (Use (OpReplyDefault r)) loading in
  defaultSlot (store svc) = None
  ∧ rejects r = true
  ∧ useDefaultProvider failed
    = {| defaultProvider := None; result_isLoading := false |}
  ∧ logger failed
    = [verbose_subscribing_default;
       error_failed_to_initialize (PersistenceFailure "no default configured")].
Proof.
  split; [reflexivity|]. split; [reflexivity|].
  pose proof (useDefaultProvider_initialization_fails watched_ops []
                eq_refl (Failed "no default configured") [] eq_refl)
    as (H1 & H2 & _).
  split; [exact H1|exact H2].
Defined.

(** *** The flag and the initialisations behind it *)

Lemma default_play_snoc evs ev w : play (evs ++ [ev]) w = react ev (play evs w).
Proof. unfold play. by rewrite foldl_app. Qed.

Lemma default_filter_nil {A} (P : A → Prop) `{∀ x, Decision (P x)} (l : list A) :
  filter P l = [] → Forall (λ x, ¬ P x) l.
Proof.
  induction l as [|x l IH]; [done|].
  destruct (decide (P x)) as [Hx|Hx].
  - by rewrite filter_cons_True.
  - rewrite filter_cons_False by done. intros Hl. constructor; auto.
Qed.

(** The flag survives a delivery only when no handler ran. *)
Lemma default_deliver_flag_up w :
  isLoading (instance (deliver w)) = true →
  isLoading (instance w) = true
  ∧ initializations (instance (deliver w)) = initializations (instance w)
  ∧ Forall (λ k, outcome k (service w) = None) (initializations (instance w)).
Proof.
  intros Hup.
  destruct (default_deliver_frame w) as (_ & Hflag & _ & _ & Hin).
  rewrite Hflag in Hup.
  destruct (filter (λ k, is_Some (outcome k (service w)))
              (initializations (instance w))) as [|k due] eqn:Hdue; [|done].
  apply default_filter_nil in Hdue.
  assert (Forall (λ k, outcome k (service w) = None)
            (initializations (instance w))) as Hnone.
  { eapply Forall_impl; [exact Hdue|]. simpl. intros k Hk.
    destruct (outcome k (service w)); [|done]. destruct Hk. eauto. }
  split_and!; [done| |done].
  rewrite Hin. by apply default_filter_none.
Qed.

(** What a commit does to the awaited initialisations: nothing, or one
    more. *)
Lemma commit_initializations w :
  (initializations (instance (commit w)) = initializations (instance w)
   ∧ (isLoading (instance (commit w)) = true → isLoading (instance w) = true))
  ∨ (∃ k, initializations (instance (commit w))
          = initializations (instance w) ++ [k]).
Proof.
  unfold commit.
  destruct (subscribeOnce_frame w) as (_ & _ & Sl & _ & Sin & _).
  set (s := subscribeOnce w) in *.
  unfold runInitializationEffect. case_decide as Hdeps.
  { left. by rewrite Sl, Sin. }
  unfold initializationEffect, initializeEffect.
  destruct (useDefaultProvider_getSnapshot (service s)) as [v|].
  - left. simpl. by rewrite app_nil_r, Sin.
  - right.
    match goal with |- context [initialize ?x] =>
      destruct (initialize x) as [k svc'] end.
    exists k. simpl. by rewrite Sin.
Qed.

Lemma default_react_backed ev w :
  (isLoading (instance w) = true → initializations (instance w) ≠ []) →
  isLoading (instance (react ev w)) = true →
  initializations (instance (react ev w)) ≠ []
  ∧ Forall (λ k, outcome k (service (react ev w)) = None)
      (initializations (instance (react ev w))).
Proof.
  intros Hw Hup. unfold react in *.
  match type of Hup with context [deliver ?w0] => set (w1 := w0) in * end.
  apply default_deliver_flag_up in Hup as (Hup & -> & Hnone).
  destruct (default_deliver_frame w1) as (-> & _). split; [|done].
  subst w1. destruct ev as [|op]; [|by apply Hw].
  destruct (commit_initializations w) as [[E Hflag]|[k E]]; rewrite E.
  - by apply Hw, Hflag.
  - by destruct (initializations (instance w)).
Qed.

Lemma default_play_backed evs svc log :
  let w := play evs (mount svc log) in
  isLoading (instance w) = true →
  initializations (instance w) ≠ []
  ∧ Forall (λ k, outcome k (service w) = None) (initializations (instance w)).
Proof.
  induction evs as [|ev evs IH] using rev_ind; simpl; [done|].
  rewrite default_play_snoc. apply default_react_backed. intros H. by apply IH.
Qed.

(** X19: whatever happened since the hook mounted, when
    [useDefaultProvider] reports [isLoading = true] the default slot is empty
    and one of the [initialize] promises it attached handlers to is still
    pending. *)
Theorem useDefaultProvider_reports_loading_only_while_initializing
    (evs : list Event) (svc : Service) (log : list LogEntry) :
  let w := play evs (mount svc log) in
  result_isLoading (useDefaultProvider w) = true →
  defaultSlot (store (service w)) = None
  ∧ ∃ k, k ∈ initializations (instance w) ∧ outcome k (service w) = None.
Proof.
  intros w Hup. unfold useDefaultProvider in Hup.
  cbn [result_isLoading] in Hup.
  apply andb_true_iff in Hup as [Hnone Hflag].
  split.
  { unfold useDefaultProvider_getSnapshot, getDefault in Hnone.
    destruct (defaultSlot (store (service w))); [|done].
    rewrite bool_decide_true in Hnone by eauto. done. }
  destruct (default_play_backed evs svc log Hflag) as [Hne Hpending].
  fold w in Hne, Hpending.
  destruct (initializations (instance w)) as [|k rest] eqn:Hl; [done|].
  exists k. split; [by left|]. by apply Forall_cons in Hpending as [Hk _].
Qed.

Lemma useDefaultProvider_reports_loading_only_while_initializing_witness :
  let evs := [Render; Use (OpPut p1 default_provider false); Render] in
  let w := play evs (mount initial []) in
  result_isLoading (useDefaultProvider w) = true
  ∧ defaultSlot (store (service w)) = None
  ∧ ∃ k, k ∈ initializations (instance w) ∧ outcome k (service w) = None.
Proof.
  split; [vm_compute; reflexivity|].
  apply (useDefaultProvider_reports_loading_only_while_initializing
           [Render; Use (OpPut p1 default_provider false); Render] initial []).
  vm_compute. reflexivity.
Defined.

End UseDefaultProviderMore.
